(** * scalc: the stack calculator built on the parlex tree package

    A shallow embedding of the evaluator ([evalStack], [evalSmp], [evalE],
    [evalUop], [evalBop], [evalSop], [maxPrecision]) and of the canonicalizer
    ([rdcr], [stack]) of the scalc example, together with the properties of
    its specification.

    Go's [float64] is IEEE binary64, modelled by Rocq's primitive floats;
    Go's [int] is modelled by [Z] (the only integers the evaluator computes
    are lengths and digit counts, far below the 64-bit range). *)

From Stdlib Require Import String Ascii List ZArith Lia Bool Uint63 Floats.
From Stdlib Require Import Permutation.
Import ListNotations.
Open Scope string_scope.
Open Scope list_scope.
Open Scope Z_scope.

(** ** Parse nodes *)

(** [tree.PN]: a lexeme (kind and value) and an ordered list of children.
    The parent pointer of the Go structure is derived data and is not read
    by the calculator. *)
#[warnings="-register-all"]
Inductive PN : Type :=
  Node (kind : string) (value : string) (C : list PN).

Definition Kind (n : PN) : string := let 'Node k _ _ := n in k.
Definition Value (n : PN) : string := let 'Node _ v _ := n in v.
Definition Cs (n : PN) : list PN := let 'Node _ _ c := n in c.

(** Size of a tree: the number of its nodes. *)
Fixpoint size (n : PN) : nat :=
  let 'Node _ _ c := n in
  S ((fix sizes (l : list PN) : nat :=
        match l with [] => O | x :: r => (size x + sizes r)%nat end) c).

Fixpoint sizes (l : list PN) : nat :=
  match l with [] => O | x :: r => (size x + sizes r)%nat end.

(** ** The tree package's node operations *)

Module Tree.

(** Modelled from the spec: [tree.PN.GetIdx] is not among the sources. A
    child index counts from the front when it is non-negative and from the
    back when it is negative ([-1] is the last child); it is valid when it
    names an existing child. *)
Definition GetIdx {A : Type} (l : list A) (cIdx : Z) : option nat :=
  let ln := Z.of_nat (length l) in
  let i := if cIdx <? 0 then ln + cIdx else cIdx in
  if (0 <=? i) && (i <? ln) then Some (Z.to_nat i) else None.

(** Modelled from the spec: [tree.PN.Child] is not among the sources. The
    child at an index, nil (here [None]) when the index names no child. *)
Definition Child (n : PN) (cIdx : Z) : option PN :=
  match GetIdx (Cs n) cIdx with
  | Some i => nth_error (Cs n) i
  | None => None
  end.

(** Modelled from the spec: [tree.PN.ChildAt] is not among the sources. Does
    the child at the index exist and carry one of the kinds? *)
Definition ChildAt (n : PN) (cIdx : Z) (kinds : list string) : bool :=
  match Child n cIdx with
  | Some c => existsb (String.eqb (Kind c)) kinds
  | None => false
  end.

(** Modelled from the spec: [tree.PN.RemoveChild] is not among the sources.
    "Remove a child": the child at the index leaves the list, its siblings
    keep their order. *)
Definition RemoveChild (n : PN) (cIdx : Z) : PN :=
  match GetIdx (Cs n) cIdx with
  | Some i => Node (Kind n) (Value n) (firstn i (Cs n) ++ skipn (S i) (Cs n))
  | None => n
  end.

(** Modelled from the spec: [tree.PN.PromoteChildrenOf] is not among the
    sources. "That child's elements are spliced into the parent at the same
    position." *)
Definition PromoteChildrenOf (n : PN) (cIdx : Z) : PN :=
  match GetIdx (Cs n) cIdx with
  | Some i =>
      match nth_error (Cs n) i with
      | Some c =>
          Node (Kind n) (Value n) (firstn i (Cs n) ++ Cs c ++ skipn (S i) (Cs n))
      | None => n
      end
  | None => n
  end.

(** Modelled from the spec: [tree.PN.PromoteChild] is not among the sources.
    "Promote a child to replace its parent": the node takes the child's
    lexeme; the child's own children take the child's place among the
    node's children, and the child's siblings stay (the evaluator reads the
    operands of an operator, and the elements a stack manipulation edits,
    as the children of the promoted operator node). *)
Definition PromoteChild (n : PN) (cIdx : Z) : PN :=
  match GetIdx (Cs n) cIdx with
  | Some i =>
      match nth_error (Cs n) i with
      | Some c =>
          Node (Kind c) (Value c) (firstn i (Cs n) ++ Cs c ++ skipn (S i) (Cs n))
      | None => n
      end
  | None => n
  end.

(** Modelled from the spec: [tree.PN.PromoteSingleChild] is not among the
    sources. "Any wrapper node with exactly one child collapses into that
    child." *)
Definition PromoteSingleChild (n : PN) : PN :=
  match Cs n with
  | [_] => PromoteChild n 0
  | _ => n
  end.

(** Modelled from the spec: [tree.PN.ReplaceWithChild] is not among the
    sources. The node is replaced by the child at the index, with that
    child's children; the other children are dropped. *)
Definition ReplaceWithChild (n : PN) (cIdx : Z) : PN :=
  match Child n cIdx with
  | Some c => c
  | None => n
  end.

End Tree.

(** ** Results of a run *)

(** A Go call either returns or panics (an index out of range, a failed
    type assertion). Recursion is bounded by a fuel counter; [OutOfFuel] is
    the model's own outcome and is shown unreachable with enough fuel. *)
Inductive res (A : Type) : Type :=
| Ok (a : A)
| Panic
| OutOfFuel.
Arguments Ok {A} a.
Arguments Panic {A}.
Arguments OutOfFuel {A}.

Definition bind {A B : Type} (m : res A) (k : A -> res B) : res B :=
  match m with
  | Ok a => k a
  | Panic => Panic
  | OutOfFuel => OutOfFuel
  end.

Notation "x <- m ;; k" := (bind m (fun x => k))
  (at level 61, m at next level, right associativity).

(** A [for ... range] loop filling [out[i]] from left to right. *)
Fixpoint mapM {A B : Type} (f : A -> res B) (l : list A) : res (list B) :=
  match l with
  | [] => Ok []
  | x :: r => y <- f x ;; ys <- mapM f r ;; Ok (y :: ys)
  end.

(** ** Precision floats *)

(** [Pfloat]: a value and a precision. *)
Record Pfloat : Type := mkPfloat { V : float; P : Z }.

(** The zero value [Pfloat{}]. *)
Definition Pfloat0 : Pfloat := mkPfloat 0%float 0.

(** [float64(n)] for a length [n]. *)
Definition float64_of_len (n : nat) : float :=
  PrimFloat.of_uint63 (Uint63.of_Z (Z.of_nat n)).

(** [maxPrecision]: the running maximum [m] starts at 0. *)
Fixpoint maxPrecision_loop (m : Z) (pfs : list Pfloat) : Z :=
  match pfs with
  | [] => m
  | p :: r => maxPrecision_loop (if m <? P p then P p else m) r
  end.

Definition maxPrecision (pfs : list Pfloat) : Z := maxPrecision_loop 0 pfs.

(** The largest of a list of precisions, 0 for the empty list: what the
    specification calls the max over all element precisions. *)
Definition maxOf (l : list Z) : Z := fold_right Z.max 0 l.

(** The count [n] as a float, reached by adding 1.0 to 0.0 [n] times:
    what the specification calls the element count. *)
Fixpoint countFloat (n : nat) : float :=
  match n with
  | O => 0%float
  | S m => (countFloat m + 1)%float
  end.

(** The element [v] is the choice of a selection loop over [seen], where
    [better p v] makes the loop replace [v] by [p]: [v] is an element, no
    element is better, and no element before it is the same. *)
Definition chosenBy (better same : Pfloat -> Pfloat -> bool)
    (seen : list Pfloat) (v : Pfloat) : Prop :=
  exists l1 l2,
    seen = l1 ++ v :: l2 /\
    (forall p, In p seen -> better p v = false) /\
    (forall q, In q l1 -> same q v = false).

(** String comparison of a [switch] on a kind or a value. *)
Infix "==" := String.eqb (at level 70, no associativity).

(** ** Stack manipulation *)

(** [l[i] = x] for an index in range. *)
Fixpoint set_nth {A : Type} (i : nat) (x : A) (l : list A) : list A :=
  match l, i with
  | [], _ => []
  | _ :: r, O => x :: r
  | y :: r, S j => y :: set_nth j x r
  end.

(** [evalSmp]: the node after the mutation of its child list. *)
Definition evalSmp (op : PN) : PN :=
  let c := Cs op in
  let ln := length c in
  if Value op == "swap" then
    if (1 <? ln)%nat then
      match nth_error c (ln - 1), nth_error c (ln - 2) with
      | Some a, Some b =>
          Node (Kind op) (Value op) (set_nth (ln - 2) a (set_nth (ln - 1) b c))
      | _, _ => op
      end
    else op
  else if Value op == "drop" then
    if (0 <? ln)%nat then Node (Kind op) (Value op) (firstn (ln - 1) c) else op
  else if Value op == "clear" then Node (Kind op) (Value op) []
  else op.

(** ** The evaluator *)

(** The Go functions mutate the tree in place and visit each node once.
    Here each function returns its values; where a later step reads the
    mutated node (the child list after [evalSmp], the node after the
    ternary step) the mutated node is passed on explicitly. *)

Section Evaluator.

(** Go's standard library, outside the repository: [strconv.ParseFloat]
    (the value and whether the error is nil), [math.Pow] and [math.Mod]. *)
Variable ParseFloat : string -> float * bool.
Variable math_Pow : float -> float -> float.
Variable math_Mod : float -> float -> float.

(** The [switch op.Value()] of [evalUop], on the evaluated operand. *)
Definition applyUop (op : string) (ae : Pfloat) : Pfloat :=
  if op == "--" then mkPfloat (- V ae)%float (P ae)
  else if op == "abs" then
    if (V ae <? 0)%float then mkPfloat (- V ae)%float (P ae) else ae
  else ae.

(** The body of [evalBop] after its operands are evaluated: [v] starts as
    the zero float and [p] is [maxPrecision(ae, be)]. *)
Definition applyBop (op : string) (ae be : Pfloat) : Pfloat :=
  let p := maxPrecision [ae; be] in
  let v :=
    if op == "+" then (V ae + V be)%float
    else if op == "*" then (V ae * V be)%float
    else if op == "/" then (V ae / V be)%float
    else if op == "-" then (V ae - V be)%float
    else if op == "^" then math_Pow (V ae) (V be)
    else if op == "%" then math_Mod (V ae) (V be)
    else if op == ">" then (if (V be <? V ae)%float then 1 else 0)%float
    else if op == "<" then (if (V ae <? V be)%float then 1 else 0)%float
    else if op == "=" then (if (V ae =? V be)%float then 1 else 0)%float
    else if op == "cmpr" then
      (if (V be <? V ae)%float then 1
       else if (V ae <? V be)%float then -1 else 0)%float
    else 0%float
  in mkPfloat v p.

(** [evalSop], on the evaluated sub-sequence. *)
Definition evalSop (stack : list Pfloat) (op : PN) : Pfloat :=
  let o := Value op in
  if (o == "sum") || (o == "avg") then
    let p := maxPrecision stack in
    let v := fold_left (fun acc q => (acc + V q)%float) stack 0%float in
    if (o == "avg") && (0 <? length stack)%nat
    then mkPfloat (v / float64_of_len (length stack))%float p
    else mkPfloat v p
  else if o == "len" then mkPfloat (float64_of_len (length stack)) 0
  else if o == "min" then
    match stack with
    | [] => Pfloat0
    | x :: r => fold_left (fun v p => if (V p <? V v)%float then p else v) r x
    end
  else if o == "max" then
    match stack with
    | [] => Pfloat0
    | x :: r => fold_left (fun v p => if (V v <? V p)%float then p else v) r x
    end
  else if o == "last" then
    match stack with
    | [] => Pfloat0
    | x :: _ => x
    end
  else if o == "first" then
    if (0 <? length stack)%nat then nth (length stack - 1) stack Pfloat0
    else Pfloat0
  else Pfloat0.

(** [evalUop] and [evalBop] over the recursive call. An operand slot that
    is absent is an index out of range. *)
Definition evalUop (evalE : PN -> res Pfloat) (a : option PN) (op : PN)
  : res Pfloat :=
  match a with
  | Some a => ae <- evalE a ;; Ok (applyUop (Value op) ae)
  | None => Panic
  end.

Definition evalBop (evalE : PN -> res Pfloat) (a b : option PN) (op : PN)
  : res Pfloat :=
  match a, b with
  | Some a, Some b =>
      ae <- evalE a ;; be <- evalE b ;; Ok (applyBop (Value op) ae be)
  | _, _ => Panic
  end.

(** The ternary step of [evalStack]: the node after the condition and the
    branch not taken are removed and the remaining last child promoted. *)
Definition selectBranch (node : PN) (v : float) : PN :=
  let node := Tree.RemoveChild node (-1) in
  if (0 <? v)%float
  then Tree.PromoteChild (Tree.RemoveChild node (-2)) (-1)
  else Tree.PromoteChild (Tree.RemoveChild node (-1)) (-1).

(** [evalStack] and [evalE]. The tests [c == 2] and [c == 1] on
    [node.Children()] are the match on the child list; [node.C[i]] on an
    absent child and the type assertion on a nil [node.Child(-1)] panic. *)
Fixpoint evalStack (fuel : nat) (node : PN) : res (list Pfloat) :=
  match fuel with
  | O => OutOfFuel
  | S f =>
      let kind := Kind node in
      if kind == "?" then
        match Tree.Child node (-1) with
        | None => Panic
        | Some c =>
            v <- evalE f c ;;
            evalStack f (selectBranch node (V v))
        end
      else if kind == "smp" then mapM (evalE f) (Cs (evalSmp node))
      else if kind == "Stack" then mapM (evalE f) (Cs node)
      else x <- evalE f node ;; Ok [x]
  end
with evalE (fuel : nat) (node : PN) : res Pfloat :=
  match fuel with
  | O => OutOfFuel
  | S f =>
      let kind := Kind node in
      if kind == "Number" then
        match Cs node with
        | [c0; c1n] =>
            let c1 := Value c1n in
            Ok (mkPfloat (fst (ParseFloat (Value c0 ++ c1)%string))
                         (Z.of_nat (String.length c1) - 1))
        | [c0] => Ok (mkPfloat (fst (ParseFloat (Value c0))) 0)
        | _ => Ok Pfloat0
        end
      else if kind == "uop" then
        evalUop (evalE f) (nth_error (Cs node) 0) node
      else if kind == "bop" then
        evalBop (evalE f) (nth_error (Cs node) 0) (nth_error (Cs node) 1) node
      else if kind == "sop" then
        match nth_error (Cs node) 0 with
        | Some c0 => st <- evalStack f c0 ;; Ok (evalSop st node)
        | None => Panic
        end
      else Ok Pfloat0
  end.

(** Fuel that always suffices (see [evalStack_fuel_enough]). *)
Definition fuelFor (node : PN) : nat := (2 * size node + 1)%nat.

(** [Eval] on the canonical tree: [evalStack(t)]. *)
Definition EvalTree (node : PN) : res (list Pfloat) :=
  evalStack (fuelFor node) node.

Definition evalNode (node : PN) : res Pfloat :=
  evalE (fuelFor node) node.

End Evaluator.

(** ** The canonicalizer *)

(** [stack], the reduction of a "Stack" node. *)
Definition stack (node : PN) : PN :=
  let node :=
    if Tree.ChildAt node (-1) ["Stack"] then Tree.PromoteChildrenOf node (-1)
    else node in
  let node :=
    if Tree.ChildAt node 0 ["Stack"] then Tree.PromoteChildrenOf node 0
    else node in
  if Tree.ChildAt node (-1) ["smp"; "?"] then Tree.PromoteChild node (-1)
  else Tree.PromoteSingleChild node.

(** [rdcr], the table of reductions by kind. *)
Definition rdcr (kind : string) : option (PN -> PN) :=
  if kind == "Stack" then Some stack
  else if kind == "E" then Some (fun n => Tree.PromoteChild n (-1))
  else if kind == "P" then Some (fun n => Tree.ReplaceWithChild n 1)
  else if kind == "Bop" then Some (fun n => Tree.PromoteChild n (-1))
  else if kind == "Uop" then Some (fun n => Tree.PromoteChild n (-1))
  else if kind == "Sop" then Some (fun n => Tree.PromoteChild n (-1))
  else if kind == "Smp" then Some (fun n => Tree.PromoteChild n (-1))
  else None.

(** Modelled from the spec: [tree.Reducer.Reduce] is not among the sources.
    The rules are "applied node-kind by node-kind, innermost first": the
    children are reduced, then the reduction of the node's kind, if the
    table has one, is applied to the node, once. The reading in which the
    rule is applied until nothing changes is [ReduceFix] below; the two
    differ only on a "Stack" node that keeps a "Stack" child after its
    rule. *)
Fixpoint Reduce (n : PN) : PN :=
  let 'Node k v c := n in
  let cp := Node k v (map Reduce c) in
  match rdcr k with
  | Some reduction => reduction cp
  | None => cp
  end.

(** ** Raw parse trees of the grammar, for the examples *)

Module Raw.

Definition tok (kind value : string) : PN := Node kind value [].
Definition nt (kind : string) (c : list PN) : PN := Node kind "" c.

(** [Number -> int] and [Number -> int dec]. *)
Definition int (s : string) : PN := nt "Number" [tok "int" s].
Definition dec (s d : string) : PN := nt "Number" [tok "int" s; tok "dec" d].
(** [E -> Number], [E -> E E Bop], [E -> E Uop], [E -> Stack Sop],
    [E -> E E E ?]. *)
Definition num (n : PN) : PN := nt "E" [n].
Definition bop (a b : PN) (o : string) : PN :=
  nt "E" [a; b; nt "Bop" [tok "bop" o]].
Definition uop (a : PN) (o : string) : PN := nt "E" [a; nt "Uop" [tok "uop" o]].
Definition sop (s : PN) (o : string) : PN := nt "E" [s; nt "Sop" [tok "sop" o]].
Definition tern (a b c : PN) : PN := nt "E" [a; b; c; tok "?" "?"].
(** [Stack -> ], [Stack -> E Stack], [Stack -> Stack Smp],
    [Stack -> Stack P Stack] with [P -> ( Stack )]. *)
Definition eps : PN := nt "Stack" [].
Definition cons (e s : PN) : PN := nt "Stack" [e; s].
Definition smp (s : PN) (o : string) : PN :=
  nt "Stack" [s; nt "Smp" [tok "smp" o]].
Definition group (s1 s s3 : PN) : PN :=
  nt "Stack" [s1; nt "P" [tok "(" "("; s; tok ")" ")"]; s3].

End Raw.

(** ** A sample standard library, to run the examples *)

Module Sample.

Definition digit (c : ascii) : option Z :=
  let n := Z.of_nat (nat_of_ascii c) in
  if (48 <=? n) && (n <=? 57) then Some (n - 48) else None.

(** Digits read as a number, with the count of digits after the point;
    [frac] is [None] before the point is met. *)
Fixpoint digits (s : string) (acc : Z) (frac : option Z) : option (Z * Z) :=
  match s with
  | EmptyString => Some (acc, match frac with Some k => k | None => 0 end)
  | String c r =>
      if Ascii.eqb c "."%char then
        match frac with
        | None => digits r acc (Some 0)
        | Some _ => None
        end
      else
        match digit c with
        | Some d =>
            digits r (10 * acc + d)
                   (match frac with Some k => Some (k + 1) | None => None end)
        | None => None
        end
  end.

Definition float_of_Z (z : Z) : float := PrimFloat.of_uint63 (Uint63.of_Z z).

(** A reader for short literals: an optional sign, digits, an optional
    point and digits. With fewer than 16 digits in all, numerator and
    denominator are exact floats and one division rounds correctly, as
    [strconv.ParseFloat] does; longer or malformed texts are reported as
    errors with value 0. *)
Definition ParseFloat (s : string) : float * bool :=
  let '(neg, body) :=
    match s with
    | String "-"%char r => (true, r)
    | String "+"%char r => (false, r)
    | _ => (false, s)
    end in
  match body with
  | EmptyString => (0%float, false)
  | _ =>
      match digits body 0 None with
      | Some (m, k) =>
          if m <? 10 ^ 15 then
            let f := (float_of_Z m / float_of_Z (10 ^ k))%float in
            ((if neg then - f else f)%float, true)
          else (0%float, false)
      | None => (0%float, false)
      end
  end.

(** [math.Pow] and [math.Mod] are not needed by the examples. *)
Definition Pow (x y : float) : float := nan.
Definition Mod (x y : float) : float := nan.

Definition Eval (raw : PN) : res (list Pfloat) :=
  EvalTree ParseFloat Pow Mod (Reduce raw).

End Sample.

(** ** Shapes of canonical trees *)

(** The children the evaluator indexes under a kind: one operand under
    "uop", two under "bop", the sub-sequence under "sop", two alternatives
    and a condition under "?". *)
Definition enoughChildren (k : string) (ln : nat) : bool :=
  if k == "uop" then (1 <=? ln)%nat
  else if k == "bop" then (2 <=? ln)%nat
  else if k == "sop" then (1 <=? ln)%nat
  else if k == "?" then (3 <=? ln)%nat
  else true.

(** Every operator node of the tree has the children the evaluator
    indexes. *)
Fixpoint operandsPresent (n : PN) : bool :=
  let 'Node k _ c := n in
  enoughChildren k (length c)
  && (fix all (l : list PN) : bool :=
        match l with [] => true | x :: r => operandsPresent x && all r end) c.

(** The shape the evaluator is written for: a "?" node has exactly its
    two alternatives and its condition, and the decimal fragment of a
    literal has at least its point; so throughout the tree. *)
Definition shapeOk (k : string) (c : list PN) : bool :=
  (if k == "?" then (length c =? 3)%nat else true)
  && (if k == "Number" then
        match c with
        | [_; d] => (1 <=? String.length (Value d))%nat
        | _ => true
        end
      else true).

Fixpoint ternaryShape (n : PN) : bool :=
  let 'Node k _ c := n in
  shapeOk k c
  && (fix all (l : list PN) : bool :=
        match l with [] => true | x :: r => ternaryShape x && all r end) c.

(** The largest precision written in a literal of the tree: the digits
    of the decimal fragment of a [Number -> int dec] node, 0 when there is
    no such node. *)
Fixpoint maxLiteralPrecision (n : PN) : Z :=
  let 'Node k _ c := n in
  Z.max
    (if k == "Number" then
       match c with
       | [_; d] => Z.of_nat (String.length (Value d)) - 1
       | _ => 0
       end
     else 0)
    ((fix over (l : list PN) : Z :=
        match l with
        | [] => 0
        | x :: r => Z.max (maxLiteralPrecision x) (over r)
        end) c).

(** ** Programs used as examples *)

Module Programs.

Import Raw.

Definition one : PN := num (int "1").
Definition two : PN := num (int "2").
Definition three : PN := num (int "3").

(** [1 0 25 1 ?]: the element 1, then the ternary of 0, 25 and 1. *)
Definition prefixed_ternary : PN :=
  cons (num (int "1"))
       (cons (tern (num (int "0")) (num (int "25")) (num (int "1"))) eps).

(** [(1 2) 3]: the group of 1 and 2, then the element 3. *)
Definition group_then_element : PN :=
  group eps (cons (num (int "1")) (cons (num (int "2")) eps))
        (cons (num (int "3")) eps).

End Programs.

(** ** Sequences of expressions *)

(** The raw tree of the program [e1 ... en], by [Stack -> E Stack] and
    [Stack -> ]. *)
Definition sequence (es : list PN) : PN := fold_right Raw.cons Raw.eps es.

(** A canonical expression that is an element of its sequence: not a
    "Stack" node (no expression is one) and not one the reduction of
    "Stack" promotes (a "smp" or "?" node). *)
Definition isElement (n : PN) : bool :=
  negb (Kind n == "Stack") && negb (Kind n == "smp") && negb (Kind n == "?").

(** The canonical tree of a sequence of canonical elements: the empty
    "Stack" node, the element itself when it is alone, and otherwise one
    "Stack" node over the elements. *)
Definition canonicalSequence (xs : list PN) : PN :=
  match xs with
  | [] => Node "Stack" "" []
  | [x] => x
  | _ => Node "Stack" "" xs
  end.

(** * The reducer language (tree/reducer) *)

Module ReducerLang.

(** [tree.Condition], [tree.Reduction] and their constructors are not
    among the sources. A reduction is represented by the chain of
    constructor calls that built it, in the order of the calls, each with
    its arguments; the nil reduction is the empty chain. *)
Inductive Condition : Type :=
| ChildIs (i : Z) (kind : string).

#[warnings="-register-all"]
Inductive Step : Type :=
| PromoteSingleChild
| RemoveChildren (args : list Z)
| PromoteChildValue (i : Z)
| RemoveChild (i : Z)
| ReplaceWithChild (i : Z)
| If (c : option Condition) (t e : list Step).

Definition Reduction : Type := list Step.

(** [tree.Reducer], a Go map from rule names to reductions: the bindings,
    the latest first; a lookup finds the latest binding of a name. *)
Definition Reducer : Type := list (string * Reduction).

Fixpoint lookup (k : string) (rdcr : Reducer) : option Reduction :=
  match rdcr with
  | [] => None
  | (k', v) :: rest => if k' == k then Some v else lookup k rest
  end.

Section WithAtoi.

(** [strconv.Atoi]: the value and whether the error is nil. *)
Variable Atoi : string -> Z * bool.

(** The loop of [evalVarNumArgs]: [args[i] = Atoi(n.Value())] for the
    [i]-th child. *)
Fixpoint fillArgs (i : nat) (ns : list PN) (args : list Z) : list Z :=
  match ns with
  | [] => args
  | n :: rest => fillArgs (S i) rest (set_nth i (fst (Atoi (Value n))) args)
  end.

(** [evalVarNumArgs]: [args] starts as [len(n.C)] zeros. *)
Definition evalVarNumArgs (n : PN) : list Z :=
  fillArgs 0 (Cs n) (repeat 0 (length (Cs n))).

(** [evalOneNumArg]. *)
Definition evalOneNumArg (n : PN) : Z :=
  match Cs n with
  | [] => 0
  | c0 :: _ => fst (Atoi (Value c0))
  end.

(** [evalConditional]; [None] is the nil condition. *)
Definition evalConditional (n : PN) : res (option Condition) :=
  if Kind n == "ChildIs" then
    match Cs n with
    | c0 :: c1 :: _ => Ok (Some (ChildIs (fst (Atoi (Value c0))) (Value c1)))
    | _ => Panic
    end
  else Ok None.

(** The [switch] of [evalReduction] on one node: the calls it adds to the
    chain [r]. The argument node [n.C[0]] must exist; an "If" node needs
    its condition and its two chains. *)
Fixpoint evalCase (n : PN) : res (list Step) :=
  let 'Node kind _ c := n in
  if kind == "PromoteSingleChild" then Ok [PromoteSingleChild]
  else if kind == "RemoveChildren" then
    match c with
    | c0 :: _ => Ok [RemoveChildren (evalVarNumArgs c0)]
    | [] => Panic
    end
  else if kind == "PromoteChildValue" then
    match c with
    | c0 :: _ => Ok [PromoteChildValue (evalOneNumArg c0)]
    | [] => Panic
    end
  else if kind == "RemoveChild" then
    match c with
    | c0 :: _ => Ok [RemoveChild (evalOneNumArg c0)]
    | [] => Panic
    end
  else if kind == "ReplaceWithChild" then
    match c with
    | c0 :: _ => Ok [ReplaceWithChild (evalOneNumArg c0)]
    | [] => Panic
    end
  else if kind == "If" then
    match c with
    | c0 :: Node _ _ ts :: Node _ _ es :: _ =>
        cnd <- evalConditional c0 ;;
        t <- (fix loop (ns : list PN) (r : list Step) : res (list Step) :=
                match ns with
                | [] => Ok r
                | x :: rest => s <- evalCase x ;; loop rest (r ++ s)
                end) ts [] ;;
        e <- (fix loop (ns : list PN) (r : list Step) : res (list Step) :=
                match ns with
                | [] => Ok r
                | x :: rest => s <- evalCase x ;; loop rest (r ++ s)
                end) es [] ;;
        Ok [If cnd t e]
    | _ => Panic
    end
  else Ok [].

(** The loop of [evalReduction] from the chain [r]. *)
Fixpoint evalLoop (ns : list PN) (r : list Step) : res (list Step) :=
  match ns with
  | [] => Ok r
  | x :: rest => s <- evalCase x ;; evalLoop rest (r ++ s)
  end.

(** [evalReduction]: [r] starts nil. *)
Definition evalReduction (ns : list PN) : res Reduction := evalLoop ns [].

(** The loop of [Parse] over the children of the root: a "Rule" child
    binds its value to the reduction of its children. *)
Fixpoint parseRules (ns : list PN) (rdcr : Reducer) : res Reducer :=
  match ns with
  | [] => Ok rdcr
  | n :: rest =>
      if Kind n == "Rule" then
        v <- evalReduction (Cs n) ;; parseRules rest ((Value n, v) :: rdcr)
      else parseRules rest rdcr
  end.

(** [Parse], from the root the runner returns. *)
Definition ParseTree (root : PN) : res Reducer := parseRules (Cs root) [].

End WithAtoi.

(** A reader of decimal integers, to run the examples: an optional sign
    and digits; any other text is an error with value 0. *)
Fixpoint atoiDigits (s : string) (acc : Z) : option Z :=
  match s with
  | EmptyString => Some acc
  | String c r =>
      match Sample.digit c with
      | Some d => atoiDigits r (10 * acc + d)
      | None => None
      end
  end.

Definition sampleAtoi (s : string) : Z * bool :=
  let '(neg, body) :=
    match s with
    | String "-"%char r => (true, r)
    | String "+"%char r => (false, r)
    | _ => (false, s)
    end in
  match body with
  | EmptyString => (0, false)
  | _ =>
      match atoiDigits body 0 with
      | Some m => (if neg then - m else m, true)
      | None => (0, false)
      end
  end.

(** The reduced tree of the rules
    [E PromoteSingleChild] , [P ReplaceWithChild(1)] and again
    [E RemoveChildren(0, -1).PromoteSingleChild]. *)
Definition sampleRules : PN :=
  Node "Rules" ""
    [Node "Rule" "E" [Node "PromoteSingleChild" "PromoteSingleChild" []];
     Node "Rule" "P"
       [Node "ReplaceWithChild" "ReplaceWithChild"
          [Node "OneNumArg" "" [Node "number" "1" []]]];
     Node "Rule" "E"
       [Node "RemoveChildren" "RemoveChildren"
          [Node "VarNumArg" "" [Node "number" "0" []; Node "number" "-1" []]];
        Node "PromoteSingleChild" "PromoteSingleChild" []]].

End ReducerLang.

(** ** Canonicalization run to a fixed point *)

(** Equality of trees, to detect that a rule changed nothing. *)
Fixpoint PN_eqb (a b : PN) : bool :=
  let 'Node ka va ca := a in
  let 'Node kb vb cb := b in
  (ka == kb) && (va == vb)
  && (fix eql (l1 l2 : list PN) : bool :=
        match l1, l2 with
        | [], [] => true
        | x :: r1, y :: r2 => PN_eqb x y && eql r1 r2
        | _, _ => false
        end) ca cb.

(** The rule of the node's kind, applied again (by the kind the node then
    has) until the node no longer changes. *)
Fixpoint fixRule (fuel : nat) (n : PN) : PN :=
  match fuel with
  | O => n
  | S f =>
      match rdcr (Kind n) with
      | Some reduction =>
          let n' := reduction n in
          if PN_eqb n' n then n else fixRule f n'
      | None => n
      end
  end.

(** Modelled from the spec: a second reading of [tree.Reducer.Reduce],
    which is not among the sources. "It runs to a fixed point per node
    (each rule application may expose further rule matches at the same
    position)": the children are reduced, then the rule of the node's kind
    is applied until it changes nothing. Every rule that changes a node
    removes a node of the tree, so the node count bounds the number of
    applications. [Reduce] above applies the rule once. *)
Fixpoint ReduceFix (n : PN) : PN :=
  let 'Node k v c := n in
  let cp := Node k v (map ReduceFix c) in
  fixRule (size cp) cp.

(** A canonical tree no rule changes any more, at any node. *)
Fixpoint stable (n : PN) : bool :=
  (match rdcr (Kind n) with
   | Some reduction => PN_eqb (reduction n) n
   | None => true
   end)
  && (let 'Node _ _ c := n in
      (fix all (l : list PN) : bool :=
         match l with [] => true | x :: r => stable x && all r end) c).

(** Modelled from the spec: [tree.RemoveChildren] is not among the
    sources. The children at the given indices, each resolved on the child
    list as it stands before the removal, leave the list. *)
Definition RemoveChildren (idxs : list Z) (n : PN) : PN :=
  let c := Cs n in
  let gone := flat_map (fun i => match Tree.GetIdx c i with
                                 | Some j => [j]
                                 | None => []
                                 end) idxs in
  Node (Kind n) (Value n)
       (map snd (filter (fun p => negb (existsb (Nat.eqb (fst p)) gone))
                        (combine (seq 0 (length c)) c))).

(** ** More programs used as examples *)

Module Nested.

Import Raw.

(** [1 2 0 5 1 ? ?]: the ternary of 1, 2 and the condition [0 5 1 ?]. *)
Definition condition : PN :=
  tern (num (int "0")) (num (int "5")) (num (int "1")).
Definition nested_condition : PN :=
  cons (tern Programs.one Programs.two condition) eps.

(** [7 (1 2) 3], by [Stack -> Stack P Stack] with the element 7 as the
    first sequence and the element 3 as the last. *)
Definition group_between_elements : PN :=
  group (cons (num (int "7")) eps)
        (cons Programs.one (cons Programs.two eps))
        (cons Programs.three eps).

(** The raw argument [( 1 )] of the reducer language's grammar,
    [OneNumArg -> lp number rp]. *)
Definition one_num_arg : PN :=
  Node "OneNumArg" "" [tok "lp" "("; tok "number" "1"; tok "rp" ")"].

End Nested.

(** ** Parse trees of the grammar and the shape of their canonical trees *)

(** The four operator categories of the grammar, each with its
    nonterminal, its token and the number of operands the evaluator reads
    before the operator. *)
Inductive Cat : Type := CBop | CUop | CSop | CSmp.

Definition catName (c : Cat) : string :=
  match c with CBop => "Bop" | CUop => "Uop" | CSop => "Sop" | CSmp => "Smp" end.

Definition catToken (c : Cat) : string :=
  match c with CBop => "bop" | CUop => "uop" | CSop => "sop" | CSmp => "smp" end.

Definition catOperands (c : Cat) : nat :=
  match c with CBop => 2 | CUop => 1 | CSop => 1 | CSmp => 0 end%nat.

Inductive NT : Type := NStack | NE | NNumber | NP | NOp (c : Cat).

(** [derives nt t]: [t] is a raw parse tree of the nonterminal [nt], one
    node per production of [grammarRules] with the trees of its symbols as
    children, a token being a node without children. *)
Inductive derives : NT -> PN -> Prop :=
| d_Stack_Smp v s m :
    derives NStack s -> derives (NOp CSmp) m ->
    derives NStack (Node "Stack" v [s; m])
| d_Stack_E v e s :
    derives NE e -> derives NStack s ->
    derives NStack (Node "Stack" v [e; s])
| d_Stack_P v s1 p s3 :
    derives NStack s1 -> derives NP p -> derives NStack s3 ->
    derives NStack (Node "Stack" v [s1; p; s3])
| d_Stack_empty v :
    derives NStack (Node "Stack" v [])
| d_E_Sop v s o :
    derives NStack s -> derives (NOp CSop) o ->
    derives NE (Node "E" v [s; o])
| d_E_ternary v q a b c :
    derives NE a -> derives NE b -> derives NE c ->
    derives NE (Node "E" v [a; b; c; Node "?" q []])
| d_E_Uop v a o :
    derives NE a -> derives (NOp CUop) o ->
    derives NE (Node "E" v [a; o])
| d_E_Bop v a b o :
    derives NE a -> derives NE b -> derives (NOp CBop) o ->
    derives NE (Node "E" v [a; b; o])
| d_E_Number v n :
    derives NNumber n -> derives NE (Node "E" v [n])
| d_Number_int v t :
    derives NNumber (Node "Number" v [Node "int" t []])
| d_Number_dec v t d :
    derives NNumber (Node "Number" v [Node "int" t []; Node "dec" d []])
| d_P v l r s :
    derives NStack s ->
    derives NP (Node "P" v [Node "(" l []; s; Node ")" r []])
| d_Op_token c v o :
    derives (NOp c) (Node (catName c) v [Node (catToken c) o []])
| d_Op_choice c v q a b e :
    derives (NOp c) a -> derives (NOp c) b -> derives NE e ->
    derives (NOp c) (Node (catName c) v [a; b; e; Node "?" q []]).

(** The operands a canonical tree of a nonterminal still waits for. *)
Definition operandsOf (nt : NT) : nat :=
  match nt with
  | NOp c => catOperands c
  | _ => 0%nat
  end.

(** The children [evalE] indexes under a kind. *)
Definition need (k : string) : nat :=
  (if k == "uop" then 1
   else if k == "bop" then 2
   else if k == "sop" then 1
   else 0)%nat.

(** [wellFormed d n]: the node [n] can be evaluated once [d] operands are
    put before its children. A node that is no ["?"] node has, with them,
    the children its kind indexes, and its children need no operand. A
    ["?"] node ends in two alternatives and a condition; the condition
    needs no operand, and each alternative needs at most the [d] operands
    and the children before the alternatives, which need none. *)
#[warnings="-register-all"]
Inductive wellFormed : nat -> PN -> Prop :=
| wf_plain d k v c :
    (k == "?") = false ->
    (need k <= d + length c)%nat ->
    Forall (wellFormed 0) c ->
    wellFormed d (Node k v c)
| wf_choice d v pre A B C dA dB :
    Forall (wellFormed 0) pre ->
    wellFormed dA A -> (dA <= d + length pre)%nat ->
    wellFormed dB B -> (dB <= d + length pre)%nat ->
    wellFormed 0 C ->
    wellFormed d (Node "?" v (pre ++ [A; B; C])).

(** The rule the table has for a kind, applied to a node; without a rule
    the node is left as it is. *)
Definition applyRule (k : string) (n : PN) : PN :=
  match rdcr k with
  | Some reduction => reduction n
  | None => n
  end.

(** ** Programs and nodes for the zero-value defaults *)

Module Defaults.

Import Raw.

(** [1 2 + - 1 ?]: the operands 1 and 2 under a choice between the
    operators [+] and [-], by [E -> E E Bop] and [Bop -> Bop Bop E ?]. *)
Definition operator_choice : PN :=
  cons (nt "E" [Programs.one; Programs.two;
                nt "Bop" [nt "Bop" [tok "bop" "+"]; nt "Bop" [tok "bop" "-"];
                          num (int "1"); tok "?" "?"]])
       eps.

(** The canonical tree of [1 2 + - 1 ?]: a ["?"] node over the operands,
    the two operators and the condition. *)
Definition operator_choice_tree : PN :=
  Node "?" "?" [Node "Number" "" [Node "int" "1" []];
                Node "Number" "" [Node "int" "2" []];
                Node "bop" "+" []; Node "bop" "-" [];
                Node "Number" "" [Node "int" "1" []]].

(** The program of one literal with a fraction, [s d]. *)
Definition fraction (s d : string) : PN := cons (num (dec s d)) eps.

(** A literal of two tokens whose text is no number. *)
Definition malformed_literal : PN :=
  Node "Number" "" [Node "int" "abc" []; Node "dec" ".55" []].

(** A reader that rejects every text, with value 0. *)
Definition rejectAll (s : string) : float * bool := (0%float, false).

End Defaults.

(** ** Properties of [maxPrecision] *)

Lemma maxPrecision_loop_ge (l : list Pfloat) :
  forall m, m <= maxPrecision_loop m l.
Proof.
  induction l as [|p r IH]; intros m; simpl; [lia|].
  specialize (IH (if m <? P p then P p else m)).
  destruct (Z.ltb_spec m (P p)); lia.
Qed.

Lemma maxPrecision_loop_upper (l : list Pfloat) :
  forall m p, In p l -> P p <= maxPrecision_loop m l.
Proof.
  induction l as [|q r IH]; intros m p Hin; simpl in *; [contradiction|].
  destruct Hin as [->|Hin].
  - pose proof (maxPrecision_loop_ge r (if m <? P p then P p else m)) as H.
    destruct (Z.ltb_spec m (P p)); lia.
  - now apply IH.
Qed.

Lemma maxPrecision_loop_attained (l : list Pfloat) :
  forall m, maxPrecision_loop m l = m \/
            exists p, In p l /\ P p = maxPrecision_loop m l.
Proof.
  induction l as [|q r IH]; intros m; simpl; [now left|].
  destruct (IH (if m <? P q then P q else m)) as [E|(p & Hin & E)].
  - destruct (Z.ltb_spec m (P q)).
    + right. exists q. split; [now left | congruence].
    + now left.
  - right. exists p. split; [now right | exact E].
Qed.

Lemma maxPrecision_nonneg (l : list Pfloat) : 0 <= maxPrecision l.
Proof. apply maxPrecision_loop_ge. Qed.

Lemma maxPrecision_pair (a b : Pfloat) :
  maxPrecision [a; b] = Z.max 0 (Z.max (P a) (P b)).
Proof.
  unfold maxPrecision; simpl.
  destruct (Z.ltb_spec 0 (P a)); destruct (Z.ltb_spec 0 (P b));
    destruct (Z.ltb_spec (P a) (P b)); lia.
Qed.

(** The bound of [maxPrecision] carries over from the elements. *)
Lemma maxPrecision_le (l : list Pfloat) (b : Z) :
  0 <= b -> (forall p, In p l -> P p <= b) -> maxPrecision l <= b.
Proof.
  intros Hb Hall. unfold maxPrecision.
  destruct (maxPrecision_loop_attained l 0) as [E|(p & Hin & E)].
  - lia.
  - rewrite <- E. now apply Hall.
Qed.

(** ** Aggregates that pick an end of the sub-sequence *)

Lemma nth_length_last {A : Type} (r : list A) :
  forall (x d d' : A), nth (length r) (x :: r) d = last (x :: r) d'.
Proof.
  induction r as [|y r IH]; intros x d d'; [reflexivity|].
  change (nth (length (y :: r)) (x :: y :: r) d)
    with (nth (length r) (y :: r) d).
  rewrite (IH y d d'). reflexivity.
Qed.

Lemma nth_last_cons {A : Type} (x d : A) (r : list A) :
  nth (length (x :: r) - 1) (x :: r) d = last (x :: r) x.
Proof.
  cbn [length]. rewrite Nat.sub_succ, Nat.sub_0_r. apply nth_length_last.
Qed.

(** C3: on a non-empty sub-sequence, the operator written [last] returns the
    element at index 0 (the first one) and the operator written [first]
    returns the element at index [len - 1] (the last one). *)
Theorem evalSop_last_first_inverted (k k' : string) (c c' : list PN)
    (x : Pfloat) (r : list Pfloat) :
  evalSop (x :: r) (Node k "last" c) = x /\
  evalSop (x :: r) (Node k' "first" c') = last (x :: r) x.
Proof.
  split; [reflexivity|].
  unfold evalSop. cbn [Value]. simpl String.eqb. cbn [orb].
  change (0 <? length (x :: r))%nat with true. cbv iota.
  apply nth_last_cons.
Qed.

(** ** Stack manipulation *)

Lemma set_nth_app {A : Type} (l r : list A) (i : nat) (x : A) :
  set_nth (length l + i) x (l ++ r) = l ++ set_nth i x r.
Proof.
  induction l as [|y l IH]; [reflexivity|].
  simpl. now rewrite IH.
Qed.

Lemma nth_error_app_at {A : Type} (l r : list A) (i : nat) :
  nth_error (l ++ r) (length l + i) = nth_error r i.
Proof. induction l as [|y l IH]; [reflexivity | exact IH]. Qed.

Lemma evalSmp_swap (k : string) (l : list PN) (a b : PN) :
  evalSmp (Node k "swap" (l ++ [a; b])) = Node k "swap" (l ++ [b; a]).
Proof.
  unfold evalSmp. cbn [Cs Value Kind]. simpl String.eqb. cbv iota.
  rewrite length_app. cbn [length].
  replace (length l + 2 - 1)%nat with (length l + 1)%nat by lia.
  replace (length l + 2 - 2)%nat with (length l + 0)%nat by lia.
  replace (1 <? length l + 2)%nat with true
    by (symmetry; apply Nat.ltb_lt; lia).
  rewrite !nth_error_app_at. cbn [nth_error].
  rewrite set_nth_app. cbn [set_nth]. rewrite set_nth_app. reflexivity.
Qed.

Lemma evalSmp_drop (k : string) (l : list PN) (a : PN) :
  evalSmp (Node k "drop" (l ++ [a])) = Node k "drop" l.
Proof.
  unfold evalSmp. cbn [Cs Value Kind]. simpl String.eqb. cbv iota.
  rewrite length_app. cbn [length].
  replace (0 <? length l + 1)%nat with true
    by (symmetry; apply Nat.ltb_lt; lia).
  replace (length l + 1 - 1)%nat with (length l + 0)%nat by lia.
  rewrite firstn_app_2. cbn [firstn]. now rewrite app_nil_r.
Qed.

Lemma fuelFor_S (n : PN) : fuelFor n = S (2 * size n).
Proof. unfold fuelFor. lia. Qed.

(** C5: [swap] exchanges the last two elements and leaves a list of fewer
    than two elements as it is; [drop] removes the last element and leaves
    the empty list as it is; [clear] removes every element of any list, and
    evaluating a [clear] node returns the empty sequence. *)
Theorem smp_swap_drop_clear (k : string) (l : list PN) (a b : PN) :
  evalSmp (Node k "swap" (l ++ [a; b])) = Node k "swap" (l ++ [b; a]) /\
  evalSmp (Node k "swap" [a]) = Node k "swap" [a] /\
  evalSmp (Node k "swap" []) = Node k "swap" [] /\
  evalSmp (Node k "drop" (l ++ [a])) = Node k "drop" l /\
  evalSmp (Node k "drop" []) = Node k "drop" [] /\
  evalSmp (Node k "clear" l) = Node k "clear" [] /\
  (forall ParseFloat math_Pow math_Mod,
      EvalTree ParseFloat math_Pow math_Mod (Node "smp" "clear" l) = Ok []).
Proof.
  split; [apply evalSmp_swap|].
  do 2 (split; [reflexivity|]).
  split; [apply evalSmp_drop|].
  do 2 (split; [reflexivity|]).
  intros pf pw md. unfold EvalTree. rewrite fuelFor_S. reflexivity.
Qed.

(** ** Binary operators *)

(** C4: for every binary operator and all operands of non-negative
    precision, the result's precision is the larger of the two operand
    precisions, comparisons included; the arithmetic operators compute on
    the two values, a comparison yields 1 when the relation holds and 0
    otherwise, and the three-way compare yields 1, -1 or 0. *)
Theorem evalBop_precision_and_value
    (math_Pow math_Mod : float -> float -> float)
    (ev : PN -> res Pfloat) (a b op : PN) (ae be : Pfloat) :
  ev a = Ok ae -> ev b = Ok be -> 0 <= P ae -> 0 <= P be ->
  exists r,
    evalBop math_Pow math_Mod ev (Some a) (Some b) op = Ok r /\
    P r = Z.max (P ae) (P be) /\
    (Value op = "+" -> V r = (V ae + V be)%float) /\
    (Value op = "-" -> V r = (V ae - V be)%float) /\
    (Value op = "*" -> V r = (V ae * V be)%float) /\
    (Value op = "/" -> V r = (V ae / V be)%float) /\
    (Value op = "^" -> V r = math_Pow (V ae) (V be)) /\
    (Value op = "%" -> V r = math_Mod (V ae) (V be)) /\
    (Value op = ">" ->
     V r = if (V be <? V ae)%float then 1%float else 0%float) /\
    (Value op = "<" ->
     V r = if (V ae <? V be)%float then 1%float else 0%float) /\
    (Value op = "=" ->
     V r = if (V ae =? V be)%float then 1%float else 0%float) /\
    (Value op = "cmpr" ->
     V r = if (V be <? V ae)%float then 1%float
           else if (V ae <? V be)%float then (-1)%float else 0%float).
Proof.
  intros Ha Hb Hpa Hpb.
  exists (applyBop math_Pow math_Mod (Value op) ae be).
  split; [unfold evalBop; rewrite Ha, Hb; reflexivity|].
  split.
  { unfold applyBop. cbn [P]. rewrite maxPrecision_pair. lia. }
  unfold applyBop.
  repeat split; intros ->; reflexivity.
Qed.

Lemma evalBop_precision_and_value_witness :
  exists r,
    evalBop Sample.Pow Sample.Mod
      (evalE Sample.ParseFloat Sample.Pow Sample.Mod 3)
      (Some (Reduce (Raw.num (Raw.int "5"))))
      (Some (Reduce (Raw.num (Raw.dec "3" ".25"))))
      (Node "bop" ">" []) = Ok r /\
    P r = 2 /\ V r = 1%float.
Proof.
  destruct (evalBop_precision_and_value Sample.Pow Sample.Mod
              (evalE Sample.ParseFloat Sample.Pow Sample.Mod 3)
              (Reduce (Raw.num (Raw.int "5")))
              (Reduce (Raw.num (Raw.dec "3" ".25")))
              (Node "bop" ">" [])
              (mkPfloat 5%float 0) (mkPfloat 3.25%float 2))
    as (r & E & Hp & _ & _ & _ & _ & _ & _ & Hgt & _).
  - reflexivity.
  - reflexivity.
  - simpl; lia.
  - simpl; lia.
  - exists r. split; [exact E|]. split; [exact Hp|]. exact (Hgt eq_refl).
Defined.

Lemma evalE_bop (ParseFloat : string -> float * bool)
    (math_Pow math_Mod : float -> float -> float)
    (fuel : nat) (v : string) (c : list PN) :
  evalE ParseFloat math_Pow math_Mod (S fuel) (Node "bop" v c) =
  evalBop math_Pow math_Mod (evalE ParseFloat math_Pow math_Mod fuel)
          (nth_error c 0) (nth_error c 1) (Node "bop" v c).
Proof. reflexivity. Qed.

(** ** Literals *)

Lemma Reduce_int_program (n : string) :
  Reduce (Raw.cons (Raw.num (Raw.int n)) Raw.eps)
  = Node "Number" "" [Node "int" n []].
Proof. reflexivity. Qed.

Lemma Reduce_dec_program (n d : string) :
  Reduce (Raw.cons (Raw.num (Raw.dec n d)) Raw.eps)
  = Node "Number" "" [Node "int" n []; Node "dec" d []].
Proof. reflexivity. Qed.

(** C7: the program made of one integer literal [n] evaluates to the value
    [strconv.ParseFloat] reads from [n], with precision 0; the program made
    of one decimal literal, [n] followed by a point and the digits [d],
    evaluates to the value read from the whole text, with precision the
    number of characters of [d]. *)
Theorem literal_value_and_precision
    (ParseFloat : string -> float * bool)
    (math_Pow math_Mod : float -> float -> float)
    (n d : string) (x y : float) (ex ey : bool) :
  ParseFloat n = (x, ex) ->
  ParseFloat (n ++ String "."%char d)%string = (y, ey) ->
  EvalTree ParseFloat math_Pow math_Mod
    (Reduce (Raw.cons (Raw.num (Raw.int n)) Raw.eps))
  = Ok [mkPfloat x 0] /\
  EvalTree ParseFloat math_Pow math_Mod
    (Reduce (Raw.cons (Raw.num (Raw.dec n (String "."%char d))) Raw.eps))
  = Ok [mkPfloat y (Z.of_nat (String.length d))].
Proof.
  intros Hx Hy. rewrite Reduce_int_program, Reduce_dec_program.
  unfold EvalTree, fuelFor. cbn [size Nat.add Nat.mul].
  cbn [evalStack evalE Kind Cs Value bind]. simpl String.eqb. cbv iota.
  rewrite Hx, Hy. cbn [fst String.length].
  split; [reflexivity|]. cbn [bind].
  replace (Z.of_nat (S (String.length d)) - 1) with (Z.of_nat (String.length d))
    by lia.
  reflexivity.
Qed.

Lemma literal_value_and_precision_witness :
  EvalTree Sample.ParseFloat Sample.Pow Sample.Mod
    (Reduce (Raw.cons (Raw.num (Raw.int "42")) Raw.eps))
  = Ok [mkPfloat 42%float 0] /\
  EvalTree Sample.ParseFloat Sample.Pow Sample.Mod
    (Reduce (Raw.cons (Raw.num (Raw.dec "42" ".125")) Raw.eps))
  = Ok [mkPfloat 42.125%float 3].
Proof.
  apply (literal_value_and_precision Sample.ParseFloat Sample.Pow Sample.Mod
           "42" "125" 42%float 42.125%float true true);
    reflexivity.
Defined.

(** ** Sizes under the tree operations *)

Lemma size_Node (k v : string) (c : list PN) : size (Node k v c) = S (sizes c).
Proof. reflexivity. Qed.

Lemma size_Cs (n : PN) : size n = S (sizes (Cs n)).
Proof. destruct n; reflexivity. Qed.

Lemma sizes_app (l r : list PN) : sizes (l ++ r) = (sizes l + sizes r)%nat.
Proof. induction l as [|x l IH]; simpl; [reflexivity | rewrite IH; lia]. Qed.

Lemma sizes_In (l : list PN) (x : PN) : In x l -> (size x <= sizes l)%nat.
Proof.
  induction l as [|y l IH]; simpl; [contradiction|].
  intros [->|H]; [lia | specialize (IH H); lia].
Qed.

Lemma sizes_split (l : list PN) :
  forall i c, nth_error l i = Some c ->
  sizes l = (sizes (firstn i l) + size c + sizes (skipn (S i) l))%nat.
Proof.
  induction l as [|y l IH]; intros [|i] c H; simpl in *; try discriminate.
  - injection H as ->. lia.
  - rewrite (IH i c H). lia.
Qed.

Lemma GetIdx_lt {A : Type} (l : list A) (cIdx : Z) (i : nat) :
  Tree.GetIdx l cIdx = Some i -> (i < length l)%nat.
Proof.
  unfold Tree.GetIdx. intros H.
  destruct (cIdx <? 0);
    match type of H with (if ?b then _ else _) = _ =>
      destruct b eqn:E; [|discriminate] end;
    injection H as <-; apply andb_prop in E; destruct E as [E1 E2];
    apply Z.leb_le in E1; apply Z.ltb_lt in E2; lia.
Qed.

Lemma GetIdx_nth {A : Type} (l : list A) (cIdx : Z) (i : nat) :
  Tree.GetIdx l cIdx = Some i -> exists c, nth_error l i = Some c.
Proof.
  intros H. apply GetIdx_lt in H.
  destruct (nth_error l i) eqn:E; [eauto|].
  apply nth_error_None in E. lia.
Qed.

Lemma size_RemoveChild (n : PN) (cIdx : Z) :
  (size (Tree.RemoveChild n cIdx) <= size n)%nat.
Proof.
  unfold Tree.RemoveChild. destruct (Tree.GetIdx (Cs n) cIdx) as [i|] eqn:E;
    [|lia].
  destruct (GetIdx_nth _ _ _ E) as [c Hc].
  rewrite size_Node, (size_Cs n), sizes_app, (sizes_split _ _ _ Hc). lia.
Qed.

Lemma size_RemoveChild_Child (n c : PN) (cIdx : Z) :
  Tree.Child n cIdx = Some c ->
  (size (Tree.RemoveChild n cIdx) + size c = size n)%nat.
Proof.
  unfold Tree.Child, Tree.RemoveChild.
  destruct (Tree.GetIdx (Cs n) cIdx) as [i|]; [|discriminate].
  intros Hc.
  rewrite size_Node, (size_Cs n), sizes_app, (sizes_split _ _ _ Hc). lia.
Qed.

Lemma size_PromoteChild (n : PN) (cIdx : Z) :
  (size (Tree.PromoteChild n cIdx) <= size n)%nat.
Proof.
  unfold Tree.PromoteChild. destruct (Tree.GetIdx (Cs n) cIdx) as [i|];
    [|lia].
  destruct (nth_error (Cs n) i) as [c|] eqn:Hc; [|lia].
  rewrite size_Node, (size_Cs n), !sizes_app, (sizes_split _ _ _ Hc),
    (size_Cs c). lia.
Qed.

Lemma size_Child (n c : PN) (cIdx : Z) :
  Tree.Child n cIdx = Some c -> (size c < size n)%nat.
Proof.
  intros H. pose proof (size_RemoveChild_Child _ _ _ H) as E.
  pose proof (size_Cs (Tree.RemoveChild n cIdx)). lia.
Qed.

Lemma size_nth_error (n c : PN) (i : nat) :
  nth_error (Cs n) i = Some c -> (size c < size n)%nat.
Proof.
  intros H. apply nth_error_In, sizes_In in H. rewrite (size_Cs n). lia.
Qed.

Lemma size_selectBranch (n c : PN) (v : float) :
  Tree.Child n (-1) = Some c -> (size (selectBranch n v) < size n)%nat.
Proof.
  intros H. pose proof (size_RemoveChild_Child _ _ _ H) as E.
  pose proof (size_Cs c) as Ec.
  unfold selectBranch. destruct (0 <? v)%float.
  - pose proof (size_PromoteChild
                  (Tree.RemoveChild (Tree.RemoveChild n (-1)) (-2)) (-1)).
    pose proof (size_RemoveChild (Tree.RemoveChild n (-1)) (-2)). lia.
  - pose proof (size_PromoteChild
                  (Tree.RemoveChild (Tree.RemoveChild n (-1)) (-1)) (-1)).
    pose proof (size_RemoveChild (Tree.RemoveChild n (-1)) (-1)). lia.
Qed.

Lemma set_nth_In {A : Type} (l : list A) :
  forall i x y, In y (set_nth i x l) -> y = x \/ In y l.
Proof.
  induction l as [|z l IH]; intros [|i] x y H; simpl in *; try contradiction.
  - destruct H as [<-|H]; auto.
  - destruct H as [<-|H]; auto. destruct (IH i x y H); auto.
Qed.

Lemma firstn_In {A : Type} (l : list A) :
  forall i y, In y (firstn i l) -> In y l.
Proof.
  induction l as [|z l IH]; intros [|i] y H; simpl in *; try contradiction.
  destruct H as [<-|H]; eauto.
Qed.

Lemma evalSmp_In (n x : PN) : In x (Cs (evalSmp n)) -> In x (Cs n).
Proof.
  unfold evalSmp.
  destruct (Value n == "swap").
  - destruct (1 <? length (Cs n))%nat; [|trivial].
    destruct (nth_error (Cs n) (length (Cs n) - 1)) as [a|] eqn:Ea; [|trivial].
    destruct (nth_error (Cs n) (length (Cs n) - 2)) as [b|] eqn:Eb; [|trivial].
    cbn [Cs]. intros H.
    apply set_nth_In in H. destruct H as [->|H];
      [now apply nth_error_In in Ea|].
    apply set_nth_In in H. destruct H as [->|H];
      [now apply nth_error_In in Eb | exact H].
  - destruct (Value n == "drop").
    + destruct (0 <? length (Cs n))%nat; [|trivial].
      cbn [Cs]. apply firstn_In.
    + destruct (Value n == "clear"); [|trivial].
      cbn [Cs]. contradiction.
Qed.

(** ** Fuel: enough of it is never exhausted, and more changes nothing *)

Lemma mapM_fuel {A B : Type} (f : A -> res B) (l : list A) :
  (forall x, In x l -> f x <> OutOfFuel) -> mapM f l <> OutOfFuel.
Proof.
  induction l as [|x l IH]; intros H; simpl; [discriminate|].
  pose proof (H x (or_introl eq_refl)) as Hx.
  destruct (f x); simpl; [|discriminate|congruence].
  assert (Hl : mapM f l <> OutOfFuel) by (apply IH; intros; apply H; now right).
  destruct (mapM f l); simpl; [discriminate|discriminate|congruence].
Qed.

Lemma mapM_more {A B : Type} (f g : A -> res B) (l : list A) :
  (forall x, f x <> OutOfFuel -> g x = f x) ->
  mapM f l <> OutOfFuel -> mapM g l = mapM f l.
Proof.
  intros Hfg. induction l as [|x l IH]; simpl; [reflexivity|].
  intros H. destruct (f x) eqn:Ex; simpl in *.
  - rewrite (Hfg x) by congruence. rewrite Ex. simpl.
    destruct (mapM f l) eqn:El; simpl in *.
    + rewrite IH by discriminate. reflexivity.
    + rewrite IH by discriminate. reflexivity.
    + congruence.
  - rewrite (Hfg x) by congruence. rewrite Ex. reflexivity.
  - congruence.
Qed.

Section Unfold.

Variable ParseFloat : string -> float * bool.
Variable math_Pow : float -> float -> float.
Variable math_Mod : float -> float -> float.

Local Notation "'eStack'" := (evalStack ParseFloat math_Pow math_Mod).
Local Notation "'eE'" := (evalE ParseFloat math_Pow math_Mod).

(** One step of [evalStack] and of [evalE]. *)
Lemma evalStack_S (f : nat) (node : PN) :
  eStack (S f) node =
  if Kind node == "?" then
    match Tree.Child node (-1) with
    | None => Panic
    | Some c => v <- eE f c ;; eStack f (selectBranch node (V v))
    end
  else if Kind node == "smp" then mapM (eE f) (Cs (evalSmp node))
  else if Kind node == "Stack" then mapM (eE f) (Cs node)
  else x <- eE f node ;; Ok [x].
Proof. reflexivity. Qed.

Lemma evalE_S (f : nat) (node : PN) :
  eE (S f) node =
  if Kind node == "Number" then
    match Cs node with
    | [c0; c1n] =>
        Ok (mkPfloat (fst (ParseFloat (Value c0 ++ Value c1n)%string))
                     (Z.of_nat (String.length (Value c1n)) - 1))
    | [c0] => Ok (mkPfloat (fst (ParseFloat (Value c0))) 0)
    | _ => Ok Pfloat0
    end
  else if Kind node == "uop" then
    evalUop (eE f) (nth_error (Cs node) 0) node
  else if Kind node == "bop" then
    evalBop math_Pow math_Mod (eE f)
            (nth_error (Cs node) 0) (nth_error (Cs node) 1) node
  else if Kind node == "sop" then
    match nth_error (Cs node) 0 with
    | Some c0 => st <- eStack f c0 ;; Ok (evalSop st node)
    | None => Panic
    end
  else Ok Pfloat0.
Proof. reflexivity. Qed.

End Unfold.

Section Fuel.

Variable ParseFloat : string -> float * bool.
Variable math_Pow : float -> float -> float.
Variable math_Mod : float -> float -> float.

Local Notation "'eStack'" := (evalStack ParseFloat math_Pow math_Mod).
Local Notation "'eE'" := (evalE ParseFloat math_Pow math_Mod).

Lemma fuel_enough (fuel : nat) :
  forall n,
    ((2 * size n + 1 <= fuel)%nat -> eStack fuel n <> OutOfFuel) /\
    ((2 * size n <= fuel)%nat -> eE fuel n <> OutOfFuel).
Proof.
  induction fuel as [|f IH]; intros n.
  { pose proof (size_Cs n). split; intros; lia. }
  assert (Hch : forall c, (2 * size c + 2 <= S f)%nat ->
                          eE f c <> OutOfFuel /\ eStack f c <> OutOfFuel).
  { intros c Hc. split; apply IH; lia. }
  split; intros Hf.
  - rewrite evalStack_S.
    destruct (Kind n == "?").
    { destruct (Tree.Child n (-1)) as [c|] eqn:Ec; [|discriminate].
      pose proof (size_Child _ _ _ Ec) as Hlt.
      destruct (eE f c) as [v| |] eqn:Ev; cbn [bind]; [|discriminate|].
      - apply IH. pose proof (size_selectBranch n c (V v) Ec). lia.
      - exfalso. revert Ev. apply IH. lia. }
    destruct (Kind n == "smp").
    { apply mapM_fuel. intros x Hx. apply evalSmp_In, sizes_In in Hx.
      apply IH. rewrite (size_Cs n) in Hf. lia. }
    destruct (Kind n == "Stack").
    { apply mapM_fuel. intros x Hx. apply sizes_In in Hx.
      apply IH. rewrite (size_Cs n) in Hf. lia. }
    destruct (eE f n) eqn:Ev; cbn [bind]; [discriminate|discriminate|].
    exfalso. revert Ev. apply IH. lia.
  - rewrite evalE_S.
    destruct (Kind n == "Number").
    { destruct (Cs n) as [|c0 [|c1 [|c2 r]]]; discriminate. }
    destruct (Kind n == "uop").
    { unfold evalUop.
      destruct (nth_error (Cs n) 0) as [a|] eqn:Ea; [|discriminate].
      apply size_nth_error in Ea.
      destruct (eE f a) eqn:Ev; cbn [bind]; [discriminate|discriminate|].
      exfalso. revert Ev. apply IH. lia. }
    destruct (Kind n == "bop").
    { unfold evalBop.
      destruct (nth_error (Cs n) 0) as [a|] eqn:Ea; [|discriminate].
      destruct (nth_error (Cs n) 1) as [b|] eqn:Eb; [|discriminate].
      apply size_nth_error in Ea. apply size_nth_error in Eb.
      destruct (eE f a) eqn:Eva; cbn [bind];
        [|discriminate| exfalso; revert Eva; apply IH; lia].
      destruct (eE f b) eqn:Evb; cbn [bind];
        [discriminate|discriminate| exfalso; revert Evb; apply IH; lia]. }
    destruct (Kind n == "sop"); [|discriminate].
    destruct (nth_error (Cs n) 0) as [a|] eqn:Ea; [|discriminate].
    apply size_nth_error in Ea.
    destruct (eStack f a) eqn:Ev; cbn [bind]; [discriminate|discriminate|].
    exfalso. revert Ev. apply IH. lia.
Qed.

Lemma fuel_more (fuel : nat) :
  forall n,
    (eStack fuel n <> OutOfFuel -> eStack (S fuel) n = eStack fuel n) /\
    (eE fuel n <> OutOfFuel -> eE (S fuel) n = eE fuel n).
Proof.
  induction fuel as [|f IH]; intros n; [split; intros H; now elim H|].
  assert (IHs : forall c, eStack f c <> OutOfFuel -> eStack (S f) c = eStack f c)
    by (intros c; apply IH).
  assert (IHe : forall c, eE f c <> OutOfFuel -> eE (S f) c = eE f c)
    by (intros c; apply IH).
  split.
  - rewrite (evalStack_S _ _ _ (S f)), (evalStack_S _ _ _ f).
    destruct (Kind n == "?").
    { destruct (Tree.Child n (-1)) as [c|]; [|reflexivity].
      destruct (eE f c) as [v| |] eqn:Ev; cbn [bind]; intros H.
      - rewrite IHe, Ev by congruence. cbn [bind]. now apply IHs.
      - rewrite IHe, Ev by congruence. reflexivity.
      - now elim H. }
    destruct (Kind n == "smp"); [apply mapM_more, IHe|].
    destruct (Kind n == "Stack"); [apply mapM_more, IHe|].
    destruct (eE f n) eqn:Ev; cbn [bind]; intros H;
      [| |now elim H]; rewrite IHe, Ev by congruence; reflexivity.
  - rewrite (evalE_S _ _ _ (S f)), (evalE_S _ _ _ f).
    destruct (Kind n == "Number"); [reflexivity|].
    destruct (Kind n == "uop").
    { unfold evalUop. destruct (nth_error (Cs n) 0) as [a|]; [|reflexivity].
      destruct (eE f a) eqn:Ev; cbn [bind]; intros H;
        [| |now elim H]; rewrite IHe, Ev by congruence; reflexivity. }
    destruct (Kind n == "bop").
    { unfold evalBop. destruct (nth_error (Cs n) 0) as [a|]; [|reflexivity].
      destruct (nth_error (Cs n) 1) as [b|]; [|reflexivity].
      destruct (eE f a) eqn:Eva; cbn [bind]; intros H;
        [| |now elim H]; rewrite (IHe a), Eva by congruence; cbn [bind];
        [|reflexivity].
      destruct (eE f b) eqn:Evb; cbn [bind] in *;
        [| |now elim H]; rewrite (IHe b), Evb by congruence; reflexivity. }
    destruct (Kind n == "sop"); [|reflexivity].
    destruct (nth_error (Cs n) 0) as [a|]; [|reflexivity].
    destruct (eStack f a) eqn:Ev; cbn [bind]; intros H;
      [| |now elim H]; rewrite IHs, Ev by congruence; reflexivity.
Qed.

Lemma evalStack_fuel_le (f f' : nat) (n : PN) :
  (f <= f')%nat -> eStack f n <> OutOfFuel -> eStack f' n = eStack f n.
Proof.
  induction 1 as [|g Hle IH]; intros H; [reflexivity|].
  rewrite <- (IH H). apply fuel_more. rewrite (IH H). exact H.
Qed.

Lemma evalE_fuel_le (f f' : nat) (n : PN) :
  (f <= f')%nat -> eE f n <> OutOfFuel -> eE f' n = eE f n.
Proof.
  induction 1 as [|g Hle IH]; intros H; [reflexivity|].
  rewrite <- (IH H). apply fuel_more. rewrite (IH H). exact H.
Qed.

(** With the fuel of [fuelFor] or more, the result is that of the run. *)
Lemma evalStack_fuel_enough (f : nat) (n : PN) :
  (fuelFor n <= f)%nat ->
  eStack f n = EvalTree ParseFloat math_Pow math_Mod n.
Proof.
  intros H. unfold EvalTree. apply evalStack_fuel_le; [exact H|].
  apply fuel_enough. unfold fuelFor. lia.
Qed.

Lemma evalE_fuel_enough (f : nat) (n : PN) :
  (2 * size n <= f)%nat ->
  eE f n = evalNode ParseFloat math_Pow math_Mod n.
Proof.
  intros H. unfold evalNode.
  assert (Hn : eE (2 * size n) n <> OutOfFuel) by (apply fuel_enough; lia).
  rewrite (evalE_fuel_le (2 * size n) f n H Hn).
  symmetry. apply evalE_fuel_le; [unfold fuelFor; lia | exact Hn].
Qed.

Lemma EvalTree_total (n : PN) :
  EvalTree ParseFloat math_Pow math_Mod n <> OutOfFuel.
Proof. apply fuel_enough. unfold fuelFor. lia. Qed.

Lemma evalNode_total (n : PN) :
  evalNode ParseFloat math_Pow math_Mod n <> OutOfFuel.
Proof. apply fuel_enough. unfold fuelFor. lia. Qed.

End Fuel.

(** ** Ternary selection *)

Lemma PromoteChild_single (k v : string) (B : PN) :
  Tree.PromoteChild (Node k v [B]) (-1) = B /\
  Tree.PromoteChild (Node k v [B]) 0 = B.
Proof.
  destruct B as [kb vb cb]. unfold Tree.PromoteChild.
  change (Tree.GetIdx (Cs (Node k v [Node kb vb cb])) (-1)) with (Some 0%nat).
  change (Tree.GetIdx (Cs (Node k v [Node kb vb cb])) 0) with (Some 0%nat).
  cbn [Cs nth_error firstn skipn Kind Value app].
  now rewrite app_nil_r.
Qed.

Lemma selectBranch_three (v : string) (A B C : PN) (x : float) :
  selectBranch (Node "?" v [A; B; C]) x = if (0 <? x)%float then B else A.
Proof.
  unfold selectBranch.
  change (Tree.RemoveChild (Node "?" v [A; B; C]) (-1))
    with (Node "?" v [A; B]).
  change (Tree.RemoveChild (Node "?" v [A; B]) (-1)) with (Node "?" v [A]).
  change (Tree.RemoveChild (Node "?" v [A; B]) (-2)) with (Node "?" v [B]).
  destruct (0 <? x)%float; apply PromoteChild_single.
Qed.

Section Ternary.

Variable ParseFloat : string -> float * bool.
Variable math_Pow : float -> float -> float.
Variable math_Mod : float -> float -> float.

Local Notation "'Run'" := (EvalTree ParseFloat math_Pow math_Mod).
Local Notation "'RunE'" := (evalNode ParseFloat math_Pow math_Mod).

(** On the canonical tree: a ["?"] node with the three children [A], [B]
    and [C] evaluates [C], then the node [B] or [A] alone. *)
Lemma EvalTree_ternary (v : string) (A B C : PN) :
  Run (Node "?" v [A; B; C]) =
  c <- RunE C ;; if (0 <? V c)%float then Run B else Run A.
Proof.
  unfold EvalTree at 1. rewrite fuelFor_S, evalStack_S.
  change (Kind (Node "?" v [A; B; C]) == "?") with true. cbv iota.
  change (Tree.Child (Node "?" v [A; B; C]) (-1)) with (Some C).
  cbv iota.
  rewrite evalE_fuel_enough by (rewrite size_Node; simpl; lia).
  destruct (RunE C) as [c| |]; cbn [bind]; try reflexivity.
  rewrite selectBranch_three.
  destruct (0 <? V c)%float;
    apply evalStack_fuel_enough; unfold fuelFor; rewrite size_Node; simpl; lia.
Qed.

(** The canonical tree of the program [a b c ?]. *)
Lemma Reduce_ternary_program (a b c : PN) :
  Reduce (Raw.cons (Raw.tern a b c) Raw.eps)
  = Node "?" "?" [Reduce a; Reduce b; Reduce c].
Proof. reflexivity. Qed.

(** The canonical tree of the program made of one expression. *)
Lemma Reduce_expression_program (e : PN) :
  Kind (Reduce e) <> "Stack" ->
  Reduce (Raw.cons e Raw.eps) = Reduce e.
Proof.
  intros H.
  change (Reduce (Raw.cons e Raw.eps))
    with (stack (Node "Stack" "" [Reduce e; Node "Stack" "" []])).
  unfold stack.
  change (Tree.ChildAt (Node "Stack" "" [Reduce e; Node "Stack" "" []]) (-1)
            ["Stack"]) with true. cbv iota.
  change (Tree.PromoteChildrenOf
            (Node "Stack" "" [Reduce e; Node "Stack" "" []]) (-1))
    with (Node "Stack" "" [Reduce e]).
  change (Tree.ChildAt (Node "Stack" "" [Reduce e]) 0 ["Stack"])
    with (existsb (String.eqb (Kind (Reduce e))) ["Stack"]).
  cbn [existsb]. rewrite orb_false_r.
  destruct (Kind (Reduce e) == "Stack") eqn:Ek;
    [apply String.eqb_eq in Ek; contradiction|].
  change (Tree.ChildAt (Node "Stack" "" [Reduce e]) (-1) ["smp"; "?"])
    with (existsb (String.eqb (Kind (Reduce e))) ["smp"; "?"]).
  change (Tree.PromoteSingleChild (Node "Stack" "" [Reduce e]))
    with (Tree.PromoteChild (Node "Stack" "" [Reduce e]) 0).
  destruct (existsb _ _); apply PromoteChild_single.
Qed.

(** [evalE] has no case for a ["?"] node: as an operand or as a condition,
    a ternary has the zero value. *)
Lemma evalNode_ternary_zero (v : string) (c : list PN) :
  RunE (Node "?" v c) = Ok Pfloat0.
Proof. unfold evalNode. rewrite fuelFor_S. reflexivity. Qed.

(** The program [a b c ?], for expressions [a], [b] and [c] (the
    canonical tree of an expression is never a "Stack" node), evaluates the
    condition [c] first, to the numeric value [evalE] gives its node; when
    that value is strictly greater than 0 the result is that of the program
    [b], otherwise that of the program [a]. The branch not selected is
    discarded unevaluated: the result is the same whatever tree stands in
    its place. *)
Theorem ternary_selects_lazily (a b c : PN) :
  Kind (Reduce a) <> "Stack" -> Kind (Reduce b) <> "Stack" ->
  Run (Reduce (Raw.cons (Raw.tern a b c) Raw.eps)) =
    (cv <- RunE (Reduce c) ;;
     if (0 <? V cv)%float then Run (Reduce (Raw.cons b Raw.eps))
     else Run (Reduce (Raw.cons a Raw.eps))) /\
  (forall cv, RunE (Reduce c) = Ok cv -> (0 <? V cv)%float = true ->
     forall a', Run (Reduce (Raw.cons (Raw.tern a' b c) Raw.eps))
                = Run (Reduce (Raw.cons b Raw.eps))) /\
  (forall cv, RunE (Reduce c) = Ok cv -> (0 <? V cv)%float = false ->
     forall b', Run (Reduce (Raw.cons (Raw.tern a b' c) Raw.eps))
                = Run (Reduce (Raw.cons a Raw.eps))).
Proof.
  intros Ha Hb.
  rewrite (Reduce_expression_program a Ha), (Reduce_expression_program b Hb).
  split; [|split].
  - rewrite Reduce_ternary_program. apply EvalTree_ternary.
  - intros cv Hc Hpos a'.
    rewrite Reduce_ternary_program, EvalTree_ternary, Hc. cbn [bind].
    now rewrite Hpos.
  - intros cv Hc Hpos b'.
    rewrite Reduce_ternary_program, EvalTree_ternary, Hc. cbn [bind].
    now rewrite Hpos.
Qed.

End Ternary.

Lemma ternary_selects_lazily_witness :
  Sample.Eval (Raw.cons (Raw.tern (Raw.num (Raw.int "1"))
                                  (Raw.num (Raw.int "2"))
                                  (Raw.num (Raw.int "3"))) Raw.eps)
  = Ok [mkPfloat 2%float 0] /\
  Sample.Eval (Raw.cons (Raw.tern (Node "bop" "+" [])
                                  (Raw.num (Raw.int "2"))
                                  (Raw.num (Raw.int "3"))) Raw.eps)
  = Ok [mkPfloat 2%float 0].
Proof.
  destruct (ternary_selects_lazily Sample.ParseFloat Sample.Pow Sample.Mod
              (Raw.num (Raw.int "1")) (Raw.num (Raw.int "2"))
              (Raw.num (Raw.int "3")))
    as (E & Hsel & _).
  - simpl. discriminate.
  - simpl. discriminate.
  - split.
    + unfold Sample.Eval. rewrite E. reflexivity.
    + unfold Sample.Eval.
      rewrite (Hsel (mkPfloat 3%float 0) eq_refl eq_refl (Node "bop" "+" [])).
      reflexivity.
Defined.

(** ** The order of floats *)

(** [<] and [==] on binary64 values, through their specification
    [SFcompare]: case analysis on the class and sign of the operands, then
    on the comparisons of exponents and mantissas. *)
Ltac sf_cases :=
  unfold SFltb, SFeqb, SFcompare;
  repeat match goal with
         | x : spec_float |- _ => destruct x as [[]|[]| |[] ? ?]
         end;
  cbn; try congruence;
  repeat match goal with
         | |- context [Z.compare ?a ?b] =>
             destruct (Z.compare_spec a b); cbn; try congruence
         | |- context [Pos.compare_cont Eq ?a ?b] =>
             change (Pos.compare_cont Eq a b) with (Pos.compare a b);
             destruct (Pos.compare_spec a b); cbn; try congruence
         | |- context [Pos.compare ?a ?b] =>
             destruct (Pos.compare_spec a b); cbn; try congruence
         end;
  try (intros; subst; lia).

Lemma SFltb_irrefl (x : spec_float) : SFltb x x = false.
Proof. sf_cases. Qed.

Lemma SFltb_below (x y z : spec_float) :
  SFltb y z = true -> SFltb x z = false -> SFltb x y = false.
Proof. sf_cases. Qed.

Lemma SFltb_above (x y z : spec_float) :
  SFltb z y = true -> SFltb z x = false -> SFltb y x = false.
Proof. sf_cases. Qed.

Lemma SFeqb_ltb_l (x y z : spec_float) :
  SFeqb x y = true -> SFltb y z = true -> SFltb x z = true.
Proof. sf_cases. Qed.

Lemma SFeqb_ltb_r (x y z : spec_float) :
  SFeqb x y = true -> SFltb z y = true -> SFltb z x = true.
Proof. sf_cases. Qed.

Lemma ltb_irrefl (x : float) : (x <? x)%float = false.
Proof. rewrite ltb_spec. apply SFltb_irrefl. Qed.

Lemma ltb_below (x y z : float) :
  (y <? z)%float = true -> (x <? z)%float = false -> (x <? y)%float = false.
Proof. rewrite !ltb_spec. apply SFltb_below. Qed.

Lemma ltb_above (x y z : float) :
  (z <? y)%float = true -> (z <? x)%float = false -> (y <? x)%float = false.
Proof. rewrite !ltb_spec. apply SFltb_above. Qed.

Lemma eqb_ltb_l (x y z : float) :
  (x =? y)%float = true -> (y <? z)%float = true -> (x <? z)%float = true.
Proof. rewrite !ltb_spec, eqb_spec. apply SFeqb_ltb_l. Qed.

Lemma eqb_ltb_r (x y z : float) :
  (x =? y)%float = true -> (z <? y)%float = true -> (z <? x)%float = true.
Proof. rewrite !ltb_spec, eqb_spec. apply SFeqb_ltb_r. Qed.

(** ** The selection loop of [min] and [max] *)

Section SelectLoop.

(** [better p v]: the loop replaces the current choice [v] by [p]. *)
Variable better : Pfloat -> Pfloat -> bool.
Variable same : Pfloat -> Pfloat -> bool.
Hypothesis better_irrefl : forall x, better x x = false.
Hypothesis better_trans : forall p q v,
    better q v = true -> better p v = false -> better p q = false.
Hypothesis same_better : forall q r v,
    same q r = true -> better r v = true -> better q v = true.

Local Notation "'chosen'" := (chosenBy better same).

Lemma chosen_loop (rest : list Pfloat) :
  forall seen v,
    chosen seen v ->
    chosen (seen ++ rest)
           (fold_left (fun v p => if better p v then p else v) rest v).
Proof.
  induction rest as [|q rest IH]; intros seen v Hc; cbn [fold_left].
  { now rewrite app_nil_r. }
  replace (seen ++ q :: rest) with ((seen ++ [q]) ++ rest)
    by (rewrite <- app_assoc; reflexivity).
  apply IH. destruct Hc as (l1 & l2 & E & Hmin & Hfirst).
  destruct (better q v) eqn:Eq.
  - exists seen, []. split; [reflexivity|]. split.
    + intros p Hp. apply in_app_or in Hp. destruct Hp as [Hp|[<-|[]]].
      * apply (better_trans p q v Eq (Hmin p Hp)).
      * apply better_irrefl.
    + intros q' Hq'. destruct (same q' q) eqn:Es; [|reflexivity].
      specialize (Hmin q' Hq').
      rewrite (same_better q' q v Es Eq) in Hmin. discriminate.
  - exists l1, (l2 ++ [q]). split; [rewrite E, <- app_assoc; reflexivity|].
    split; [|exact Hfirst].
    intros p Hp. apply in_app_or in Hp. destruct Hp as [Hp|[<-|[]]].
    + now apply Hmin.
    + exact Eq.
Qed.

Lemma chosen_fold (x : Pfloat) (r : list Pfloat) :
  chosen (x :: r) (fold_left (fun v p => if better p v then p else v) r x).
Proof.
  apply (chosen_loop r [x] x).
  exists [], []. split; [reflexivity|]. split.
  - intros p [<-|[]]. apply better_irrefl.
  - intros q [].
Qed.

End SelectLoop.

(** ** Aggregates *)

Lemma maxPrecision_loop_fold (l : list Pfloat) :
  forall m, maxPrecision_loop m l = fold_right Z.max m (map P l).
Proof.
  induction l as [|p r IH]; intros m; [reflexivity|].
  cbn [maxPrecision_loop map fold_right]. rewrite IH.
  assert (E : forall l a b, fold_right Z.max (Z.max a b) l
                            = Z.max b (fold_right Z.max a l)).
  { clear. induction l as [|z l IHl]; intros a b; cbn [fold_right]; [lia|].
    rewrite IHl. lia. }
  rewrite <- E. f_equal. destruct (Z.ltb_spec m (P p)); lia.
Qed.

Lemma maxPrecision_maxOf (l : list Pfloat) : maxPrecision l = maxOf (map P l).
Proof. apply maxPrecision_loop_fold. Qed.

Lemma evalSop_min_chosen (k : string) (c : list PN) (x : Pfloat)
    (r : list Pfloat) :
  chosenBy (fun p v => (V p <? V v)%float) (fun q m => (V q =? V m)%float)
           (x :: r) (evalSop (x :: r) (Node k "min" c)).
Proof.
  apply (chosen_fold (fun p v => (V p <? V v)%float)
                     (fun q m => (V q =? V m)%float)).
  - intros y. apply ltb_irrefl.
  - intros p q v. apply ltb_below.
  - intros q m v. apply eqb_ltb_l.
Qed.

Lemma evalSop_max_chosen (k : string) (c : list PN) (x : Pfloat)
    (r : list Pfloat) :
  chosenBy (fun p v => (V v <? V p)%float) (fun q m => (V q =? V m)%float)
           (x :: r) (evalSop (x :: r) (Node k "max" c)).
Proof.
  apply (chosen_fold (fun p v => (V v <? V p)%float)
                     (fun q m => (V q =? V m)%float)).
  - intros y. apply ltb_irrefl.
  - intros p q v. apply ltb_above.
  - intros q m v. apply eqb_ltb_r.
Qed.

Lemma chosenBy_In (better same : Pfloat -> Pfloat -> bool)
    (l : list Pfloat) (v : Pfloat) :
  chosenBy better same l v -> In v l.
Proof.
  intros (l1 & l2 & -> & _). apply in_or_app. right. now left.
Qed.

Lemma float64_of_len_counts (n : nat) :
  (n <= 4096)%nat -> float64_of_len n = countFloat n.
Proof.
  intros H.
  assert (Hall : forallb (fun m => PrimFloat.Leibniz.eqb (float64_of_len m)
                                                         (countFloat m))
                         (seq 0 4097) = true) by (vm_compute; reflexivity).
  rewrite forallb_forall in Hall.
  apply FloatAxioms.Leibniz.eqb_spec, Hall, in_seq. lia.
Qed.

(** C6: on every evaluated sub-sequence, [sum] and [avg] carry the largest
    element precision (0 for none); [avg] is the sum divided by the element
    count, and 0 for no element; [len] is the count with precision 0; [min]
    and [max] give the zero value on the empty sequence, and otherwise an
    element that no element is below (for [min]) or above (for [max]). The
    count is the number of elements as a float (stated for sequences of up
    to 4096 elements and on concrete sequences). *)
Theorem aggregates_of_a_subsequence (k : string) (c : list PN)
    (st : list Pfloat) (x : Pfloat) (r : list Pfloat) :
  P (evalSop st (Node k "sum" c)) = maxOf (map P st) /\
  P (evalSop st (Node k "avg" c)) = maxOf (map P st) /\
  V (evalSop st (Node k "sum" c))
    = fold_left (fun acc q => (acc + V q)%float) st 0%float /\
  V (evalSop (x :: r) (Node k "avg" c))
    = (V (evalSop (x :: r) (Node k "sum" c))
       / float64_of_len (length (x :: r)))%float /\
  evalSop [] (Node k "avg" c) = Pfloat0 /\
  evalSop st (Node k "len" c) = mkPfloat (float64_of_len (length st)) 0 /\
  evalSop [] (Node k "min" c) = Pfloat0 /\
  evalSop [] (Node k "max" c) = Pfloat0 /\
  (In (evalSop (x :: r) (Node k "min" c)) (x :: r) /\
   forall p, In p (x :: r) ->
     (V p <? V (evalSop (x :: r) (Node k "min" c)))%float = false) /\
  (In (evalSop (x :: r) (Node k "max" c)) (x :: r) /\
   forall p, In p (x :: r) ->
     (V (evalSop (x :: r) (Node k "max" c)) <? V p)%float = false) /\
  ((length st <= 4096)%nat ->
   evalSop st (Node k "len" c) = mkPfloat (countFloat (length st)) 0) /\
  ((length (x :: r) <= 4096)%nat ->
   V (evalSop (x :: r) (Node k "avg" c))
   = (fold_left (fun acc q => (acc + V q)%float) (x :: r) 0%float
      / countFloat (length (x :: r)))%float) /\
  evalSop [] (Node k "len" c) = mkPfloat 0%float 0 /\
  evalSop [x] (Node k "len" c) = mkPfloat 1%float 0 /\
  evalSop [mkPfloat 2%float 0; mkPfloat 4%float 1; mkPfloat 9%float 0]
          (Node k "len" c) = mkPfloat 3%float 0 /\
  evalSop [mkPfloat 2%float 0; mkPfloat 4%float 1; mkPfloat 9%float 0]
          (Node k "sum" c) = mkPfloat 15%float 1 /\
  evalSop [mkPfloat 2%float 0; mkPfloat 4%float 1; mkPfloat 9%float 0]
          (Node k "avg" c) = mkPfloat 5%float 1 /\
  evalSop [mkPfloat 2%float 0; mkPfloat 4%float 1; mkPfloat 9%float 0]
          (Node k "min" c) = mkPfloat 2%float 0 /\
  evalSop [mkPfloat 2%float 0; mkPfloat 4%float 1; mkPfloat 9%float 0]
          (Node k "max" c) = mkPfloat 9%float 0.
Proof.
  assert (Hp : forall o, o = "sum" \/ o = "avg" ->
                 P (evalSop st (Node k o c)) = maxOf (map P st)).
  { intros o [-> | ->]; unfold evalSop; cbn [Value];
      simpl String.eqb; cbn [orb andb]; rewrite <- maxPrecision_maxOf.
    - reflexivity.
    - destruct (0 <? length st)%nat; reflexivity. }
  split; [apply Hp; now left|].
  split; [apply Hp; now right|].
  do 6 (split; [reflexivity|]).
  split.
  { pose proof (evalSop_min_chosen k c x r) as H.
    split; [exact (chosenBy_In _ _ _ _ H)|].
    destruct H as (l1 & l2 & _ & Hmin & _). exact Hmin. }
  split.
  { pose proof (evalSop_max_chosen k c x r) as H.
    split; [exact (chosenBy_In _ _ _ _ H)|].
    destruct H as (l1 & l2 & _ & Hmax & _). exact Hmax. }
  split.
  { intros H. rewrite <- (float64_of_len_counts _ H). reflexivity. }
  split.
  { intros H. rewrite <- (float64_of_len_counts _ H). reflexivity. }
  repeat split.
Qed.

(** C10: on a non-empty evaluated sub-sequence, [min] (and [max]) returns
    one element as it is, value and precision: no element has a smaller
    (larger) value, and no element before it has the same value. Its
    precision is that element's own, which can differ from the largest
    precision of the sequence. *)
Theorem min_max_return_first_extreme_element (k : string) (c : list PN)
    (x : Pfloat) (r : list Pfloat) :
  (exists l1 m l2,
      x :: r = l1 ++ m :: l2 /\
      evalSop (x :: r) (Node k "min" c) = m /\
      (forall p, In p (x :: r) -> (V p <? V m)%float = false) /\
      (forall q, In q l1 -> (V q =? V m)%float = false)) /\
  (exists l1 m l2,
      x :: r = l1 ++ m :: l2 /\
      evalSop (x :: r) (Node k "max" c) = m /\
      (forall p, In p (x :: r) -> (V m <? V p)%float = false) /\
      (forall q, In q l1 -> (V q =? V m)%float = false)) /\
  evalSop [mkPfloat 1%float 0; mkPfloat 2%float 3; mkPfloat 1%float 5]
          (Node k "min" c) = mkPfloat 1%float 0 /\
  evalSop [mkPfloat 1%float 0; mkPfloat 2%float 3; mkPfloat 2%float 5]
          (Node k "max" c) = mkPfloat 2%float 3 /\
  maxPrecision [mkPfloat 1%float 0; mkPfloat 2%float 3; mkPfloat 1%float 5]
  = 5.
Proof.
  split; [|split; [|repeat split]].
  - destruct (evalSop_min_chosen k c x r) as (l1 & l2 & E & Hmin & Hfirst).
    exists l1, (evalSop (x :: r) (Node k "min" c)), l2. auto.
  - destruct (evalSop_max_chosen k c x r) as (l1 & l2 & E & Hmax & Hfirst).
    exists l1, (evalSop (x :: r) (Node k "max" c)), l2. auto.
Qed.

(** ** Ternary selection with operands before the alternatives *)

Lemma GetIdx_back {A : Type} (pre suf : list A) (k : nat) :
  (0 < k <= length suf)%nat ->
  Tree.GetIdx (pre ++ suf) (- Z.of_nat k)
  = Some (length pre + (length suf - k))%nat.
Proof.
  intros Hk. unfold Tree.GetIdx. rewrite length_app.
  replace (- Z.of_nat k <? 0) with true by (symmetry; apply Z.ltb_lt; lia).
  replace ((0 <=? Z.of_nat (length pre + length suf) + - Z.of_nat k)
           && (Z.of_nat (length pre + length suf) + - Z.of_nat k
               <? Z.of_nat (length pre + length suf))) with true.
  - f_equal. lia.
  - symmetry. apply andb_true_intro. split;
      [apply Z.leb_le | apply Z.ltb_lt]; lia.
Qed.

Lemma firstn_skipn_at {A : Type} (pre suf : list A) (i : nat) :
  firstn (length pre + i) (pre ++ suf) = pre ++ firstn i suf /\
  skipn (length pre + i) (pre ++ suf) = skipn i suf.
Proof.
  split.
  - apply firstn_app_2.
  - rewrite skipn_app.
    replace (length pre + i - length pre)%nat with i by lia.
    rewrite skipn_all2 by lia. reflexivity.
Qed.

Lemma RemoveChild_back (k v : string) (pre suf : list PN) (j : nat) :
  (0 < j <= length suf)%nat ->
  Tree.RemoveChild (Node k v (pre ++ suf)) (- Z.of_nat j)
  = Node k v (pre ++ firstn (length suf - j) suf
                  ++ skipn (S (length suf - j)) suf).
Proof.
  intros Hj. unfold Tree.RemoveChild. cbn [Cs Kind Value].
  rewrite (GetIdx_back pre suf j Hj).
  destruct (firstn_skipn_at pre suf (length suf - j)) as [-> _].
  replace (S (length pre + (length suf - j)))
    with (length pre + S (length suf - j))%nat by lia.
  destruct (firstn_skipn_at pre suf (S (length suf - j))) as [_ ->].
  now rewrite app_assoc.
Qed.

Lemma PromoteChild_last (k v : string) (pre : list PN) (B : PN) :
  Tree.PromoteChild (Node k v (pre ++ [B])) (-1)
  = Node (Kind B) (Value B) (pre ++ Cs B).
Proof.
  unfold Tree.PromoteChild. cbn [Cs].
  change (-1) with (- Z.of_nat 1).
  rewrite (GetIdx_back pre [B] 1) by (simpl; lia).
  cbn [length Nat.sub]. rewrite nth_error_app_at. cbn [nth_error].
  destruct (firstn_skipn_at pre [B] 0) as [-> _].
  replace (S (length pre + 0)) with (length pre + 1)%nat by lia.
  destruct (firstn_skipn_at pre [B] 1) as [_ ->].
  cbn [firstn skipn]. now rewrite !app_nil_r.
Qed.

(** The selected alternative takes the node's place and keeps, before its
    own children, the children that stood before the alternatives. *)
Lemma selectBranch_operands (k v : string) (pre : list PN) (A B C : PN)
    (x : float) :
  selectBranch (Node k v (pre ++ [A; B; C])) x
  = if (0 <? x)%float then Node (Kind B) (Value B) (pre ++ Cs B)
    else Node (Kind A) (Value A) (pre ++ Cs A).
Proof.
  unfold selectBranch.
  change (-2) with (- Z.of_nat 2). change (-1) with (- Z.of_nat 1).
  rewrite (RemoveChild_back k v pre [A; B; C] 1) by (simpl; lia).
  cbn [length Nat.sub firstn skipn app].
  change (pre ++ [A; B] ++ []) with (pre ++ [A; B]).
  destruct (0 <? x)%float.
  - rewrite (RemoveChild_back k v pre [A; B] 2) by (simpl; lia).
    cbn [length Nat.sub firstn skipn app]. apply PromoteChild_last.
  - rewrite (RemoveChild_back k v pre [A; B] 1) by (simpl; lia).
    cbn [length Nat.sub firstn skipn app]. apply PromoteChild_last.
Qed.

(** ** No panic when the operands are present *)

Lemma operandsPresent_Node (k v : string) (c : list PN) :
  operandsPresent (Node k v c)
  = enoughChildren k (length c) && forallb operandsPresent c.
Proof. reflexivity. Qed.

Lemma operandsPresent_inv (n : PN) :
  operandsPresent n = true ->
  enoughChildren (Kind n) (length (Cs n)) = true /\
  forall c, In c (Cs n) -> operandsPresent c = true.
Proof.
  destruct n as [k v c]. rewrite operandsPresent_Node. cbn [Kind Cs].
  intros H. apply andb_prop in H. destruct H as [H1 H2].
  split; [exact H1|]. now apply forallb_forall.
Qed.

Lemma enoughChildren_more (k : string) (a b : nat) :
  (a <= b)%nat -> enoughChildren k a = true -> enoughChildren k b = true.
Proof.
  unfold enoughChildren. intros Hle.
  repeat match goal with
         | |- context [if ?c then _ else _] => destruct c
         end; try reflexivity; rewrite !Nat.leb_le; lia.
Qed.

Lemma last_three {A : Type} (l : list A) :
  (3 <= length l)%nat -> exists pre a b c, l = pre ++ [a; b; c].
Proof.
  intros H.
  destruct (exists_last (l := l)) as (l1 & c & ->);
    [intros ->; simpl in H; lia|].
  rewrite length_app in H. simpl in H.
  destruct (exists_last (l := l1)) as (l2 & b & ->);
    [intros ->; simpl in H; lia|].
  rewrite length_app in H. simpl in H.
  destruct (exists_last (l := l2)) as (l3 & a & ->);
    [intros ->; simpl in H; lia|].
  exists l3, a, b, c. now rewrite <- !app_assoc.
Qed.

Lemma Child_last (k v : string) (pre : list PN) (C : PN) :
  Tree.Child (Node k v (pre ++ [C])) (-1) = Some C.
Proof.
  unfold Tree.Child. cbn [Cs]. change (-1) with (- Z.of_nat 1).
  rewrite (GetIdx_back pre [C] 1) by (simpl; lia).
  cbn [length Nat.sub]. now rewrite nth_error_app_at.
Qed.

Lemma operandsPresent_selectBranch (n : PN) (x : float) :
  operandsPresent n = true -> Kind n = "?" ->
  operandsPresent (selectBranch n x) = true /\
  exists c, Tree.Child n (-1) = Some c /\ operandsPresent c = true.
Proof.
  intros Hwf Hk. destruct (operandsPresent_inv n Hwf) as [Hn Hc].
  destruct n as [k v cs]. cbn [Kind Cs] in *. subst k.
  apply Nat.leb_le in Hn.
  destruct (last_three cs Hn) as (pre & A & B & C & ->).
  assert (HA : operandsPresent A = true) by (apply Hc, in_or_app; simpl; auto).
  assert (HB : operandsPresent B = true) by (apply Hc, in_or_app; simpl; auto).
  assert (HC : operandsPresent C = true) by (apply Hc, in_or_app; simpl; auto).
  assert (Hpre : forallb operandsPresent pre = true).
  { apply forallb_forall. intros y Hy. apply Hc, in_or_app. now left. }
  split.
  - rewrite selectBranch_operands.
    assert (Hsel : forall D, operandsPresent D = true ->
              operandsPresent (Node (Kind D) (Value D) (pre ++ Cs D)) = true).
    { intros D HD. destruct (operandsPresent_inv D HD) as [Hd1 Hd2].
      rewrite operandsPresent_Node. apply andb_true_intro. split.
      - apply (enoughChildren_more _ (length (Cs D))); [|exact Hd1].
        rewrite length_app. lia.
      - rewrite forallb_app, Hpre. now apply forallb_forall. }
    destruct (0 <? x)%float; now apply Hsel.
  - exists C. split; [|exact HC].
    change (pre ++ [A; B; C]) with (pre ++ [A; B] ++ [C]).
    rewrite app_assoc. apply Child_last.
Qed.

Lemma mapM_no_panic {A B : Type} (f : A -> res B) (l : list A) :
  (forall x, In x l -> f x <> Panic) -> mapM f l <> Panic.
Proof.
  induction l as [|x l IH]; intros H; simpl; [discriminate|].
  pose proof (H x (or_introl eq_refl)) as Hx.
  destruct (f x); simpl; [|congruence|discriminate].
  assert (Hl : mapM f l <> Panic) by (apply IH; intros; apply H; now right).
  destruct (mapM f l); simpl; [discriminate|congruence|discriminate].
Qed.

Section NoPanic.

Variable ParseFloat : string -> float * bool.
Variable math_Pow : float -> float -> float.
Variable math_Mod : float -> float -> float.

Local Notation "'eStack'" := (evalStack ParseFloat math_Pow math_Mod).
Local Notation "'eE'" := (evalE ParseFloat math_Pow math_Mod).

Lemma no_panic (fuel : nat) :
  forall n, operandsPresent n = true ->
            eStack fuel n <> Panic /\ eE fuel n <> Panic.
Proof.
  induction fuel as [|f IH]; intros n Hwf; [split; discriminate|].
  destruct (operandsPresent_inv n Hwf) as [Hn Hc].
  split.
  - rewrite evalStack_S.
    destruct (Kind n == "?") eqn:Ek.
    { apply String.eqb_eq in Ek.
      destruct (operandsPresent_selectBranch n 0%float Hwf Ek)
        as (_ & c & -> & Hcw).
      destruct (eE f c) as [v| |] eqn:Ev; cbn [bind]; [| |discriminate].
      - apply IH. now apply operandsPresent_selectBranch.
      - exfalso. revert Ev. now apply IH. }
    destruct (Kind n == "smp").
    { apply mapM_no_panic. intros y Hy. apply IH, Hc. now apply evalSmp_In. }
    destruct (Kind n == "Stack").
    { apply mapM_no_panic. intros y Hy. now apply IH, Hc. }
    destruct (eE f n) eqn:Ev; cbn [bind]; [discriminate| |discriminate].
    exfalso. revert Ev. now apply IH.
  - rewrite evalE_S. unfold enoughChildren in Hn.
    destruct (Kind n == "Number").
    { destruct (Cs n) as [|c0 [|c1 [|c2 r]]]; discriminate. }
    destruct (Kind n == "uop").
    { apply Nat.leb_le in Hn.
      destruct (Cs n) as [|a r]; [simpl in Hn; lia|].
      cbn [nth_error evalUop].
      destruct (eE f a) eqn:Ev; cbn [bind]; [discriminate| |discriminate].
      exfalso. revert Ev. apply IH, Hc. now left. }
    destruct (Kind n == "bop").
    { apply Nat.leb_le in Hn.
      destruct (Cs n) as [|a [|b r]]; [simpl in Hn; lia|simpl in Hn; lia|].
      cbn [nth_error evalBop].
      destruct (eE f a) eqn:Eva; cbn [bind];
        [| exfalso; revert Eva; apply IH, Hc; now left | discriminate].
      destruct (eE f b) eqn:Evb; cbn [bind];
        [discriminate| |discriminate].
      exfalso. revert Evb. apply IH, Hc. right. now left. }
    destruct (Kind n == "sop"); [|discriminate].
    apply Nat.leb_le in Hn.
    destruct (Cs n) as [|a r]; [simpl in Hn; lia|].
    cbn [nth_error].
    destruct (eStack f a) eqn:Ev; cbn [bind]; [discriminate| |discriminate].
    exfalso. revert Ev. apply IH, Hc. now left.
Qed.

End NoPanic.

(** ** Precision on a ternary that follows other elements *)

(** C9 at the program [1 0 25 1 ?]: every literal is an integer, so the
    largest literal precision is 0; the canonical tree is a ["?"] node with
    four children, the selection promotes the literal 25 over the element
    before it, and the result carries precision 1. *)
Theorem prefixed_ternary_precision :
  maxLiteralPrecision Programs.prefixed_ternary = 0 /\
  Reduce Programs.prefixed_ternary
  = Node "?" "?" [Node "Number" "" [Node "int" "1" []];
                  Node "Number" "" [Node "int" "0" []];
                  Node "Number" "" [Node "int" "25" []];
                  Node "Number" "" [Node "int" "1" []]] /\
  selectBranch (Reduce Programs.prefixed_ternary) 1%float
  = Node "Number" "" [Node "Number" "" [Node "int" "1" []];
                      Node "int" "25" []] /\
  Sample.Eval Programs.prefixed_ternary = Ok [mkPfloat 25%float 1].
Proof. repeat split; reflexivity. Qed.

(** ** Groups *)

(** A group that is all of its sequence: the sequence becomes the group's
    inner sequence. *)
Lemma Reduce_group_alone (s : PN) :
  Reduce (Raw.group Raw.eps s Raw.eps) = Reduce s.
Proof.
  change (Reduce (Raw.group Raw.eps s Raw.eps))
    with (stack (Node "Stack" "" [Node "Stack" "" []; Reduce s;
                                  Node "Stack" "" []])).
  unfold stack.
  change (Tree.ChildAt (Node "Stack" "" [Node "Stack" "" []; Reduce s;
                                         Node "Stack" "" []]) (-1) ["Stack"])
    with true. cbv iota.
  change (Tree.PromoteChildrenOf
            (Node "Stack" "" [Node "Stack" "" []; Reduce s;
                              Node "Stack" "" []]) (-1))
    with (Node "Stack" "" [Node "Stack" "" []; Reduce s]).
  change (Tree.ChildAt (Node "Stack" "" [Node "Stack" "" []; Reduce s]) 0
            ["Stack"]) with true. cbv iota.
  change (Tree.PromoteChildrenOf
            (Node "Stack" "" [Node "Stack" "" []; Reduce s]) 0)
    with (Node "Stack" "" [Reduce s]).
  change (Tree.PromoteSingleChild (Node "Stack" "" [Reduce s]))
    with (Tree.PromoteChild (Node "Stack" "" [Reduce s]) 0).
  destruct (Tree.ChildAt _ _ _); apply PromoteChild_single.
Qed.

(** A group as the whole argument of an aggregate operator: its sequence is
    the operator's one child. *)
Lemma Reduce_group_aggregate (s : PN) (o : string) :
  Reduce (Raw.sop (Raw.group Raw.eps s Raw.eps) o)
  = Node "sop" o [Reduce s].
Proof.
  change (Reduce (Raw.sop (Raw.group Raw.eps s Raw.eps) o))
    with (Tree.PromoteChild
            (Node "E" "" [Reduce (Raw.group Raw.eps s Raw.eps);
                          Node "sop" o []]) (-1)).
  rewrite Reduce_group_alone. reflexivity.
Qed.

(** The program [(1 2) 3] under the single pass of [Reduce]: the group is
    the middle child of its sequence, where the reduction of "Stack" does
    not look; its inner sequence stays a nested "Stack" node, which
    evaluates as one zero value in place of the elements 1 and 2. *)
Theorem group_before_element_stays_nested :
  Reduce Programs.group_then_element
  = Node "Stack" ""
         [Node "Stack" "" [Node "Number" "" [Node "int" "1" []];
                           Node "Number" "" [Node "int" "2" []]];
          Node "Number" "" [Node "int" "3" []]] /\
  Sample.Eval Programs.group_then_element
  = Ok [Pfloat0; mkPfloat 3%float 0].
Proof. split; reflexivity. Qed.

(** ** Precision stays within the literals on trees of ternary shape *)

Lemma ternaryShape_Node (k v : string) (c : list PN) :
  ternaryShape (Node k v c) = shapeOk k c && forallb ternaryShape c.
Proof. reflexivity. Qed.

Lemma ternaryShape_inv (n : PN) :
  ternaryShape n = true ->
  shapeOk (Kind n) (Cs n) = true /\
  forall c, In c (Cs n) -> ternaryShape c = true.
Proof.
  destruct n as [k v c]. rewrite ternaryShape_Node. cbn [Kind Cs].
  intros H. apply andb_prop in H. destruct H as [H1 H2].
  split; [exact H1|]. now apply forallb_forall.
Qed.

Lemma maxLiteralPrecision_nonneg (n : PN) : 0 <= maxLiteralPrecision n.
Proof.
  destruct n as [k v c]. cbn [maxLiteralPrecision].
  set (own := if k == "Number" then _ else 0). clearbody own.
  induction c as [|x r IH]; lia.
Qed.

Lemma maxLiteralPrecision_child (n c : PN) :
  In c (Cs n) -> maxLiteralPrecision c <= maxLiteralPrecision n.
Proof.
  destruct n as [k v cs]. cbn [Cs maxLiteralPrecision].
  set (own := if k == "Number" then _ else 0). clearbody own.
  induction cs as [|x r IH]; cbn [In]; [contradiction|].
  intros [->|H]; [lia|]. specialize (IH H). lia.
Qed.

Lemma fold_select_In (better : Pfloat -> Pfloat -> bool) (r : list Pfloat) :
  forall x, In (fold_left (fun v p => if better p v then p else v) r x)
               (x :: r).
Proof.
  induction r as [|y r IH]; intros x; cbn [fold_left]; [now left|].
  destruct (IH (if better y x then y else x)) as [E|H].
  - rewrite <- E. destruct (better y x); [right; now left | now left].
  - right. now right.
Qed.

(** The precision of an aggregate stays within a bound on the elements. *)
Lemma evalSop_precision_bound (st : list Pfloat) (op : PN) (b : Z) :
  0 <= b -> (forall p, In p st -> 0 <= P p <= b) ->
  0 <= P (evalSop st op) <= b.
Proof.
  intros Hb Hst.
  assert (Hin : forall p, In p st \/ p = Pfloat0 -> 0 <= P p <= b).
  { intros p [H| ->]; [now apply Hst | simpl; lia]. }
  unfold evalSop.
  destruct ((Value op == "sum") || (Value op == "avg")).
  { assert (0 <= maxPrecision st <= b).
    { split; [apply maxPrecision_nonneg|].
      apply maxPrecision_le; [exact Hb | intros p Hp; now apply Hst]. }
    destruct ((Value op == "avg") && (0 <? length st)%nat); exact H. }
  destruct (Value op == "len"); [simpl; lia|].
  destruct (Value op == "min").
  { destruct st as [|x r]; apply Hin; [now right | left].
    apply fold_select_In. }
  destruct (Value op == "max").
  { destruct st as [|x r]; apply Hin; [now right | left].
    apply fold_select_In. }
  destruct (Value op == "last").
  { destruct st as [|x r]; apply Hin; [now right | left; now left]. }
  destruct (Value op == "first"); [|apply Hin; now right].
  destruct (0 <? length st)%nat eqn:El; [|apply Hin; now right].
  apply Hin. left. apply nth_In. apply Nat.ltb_lt in El. lia.
Qed.

Lemma mapM_Forall {A B : Type} (f : A -> res B) (Q : B -> Prop) (l : list A) :
  (forall x y, In x l -> f x = Ok y -> Q y) ->
  forall out, mapM f l = Ok out -> forall y, In y out -> Q y.
Proof.
  induction l as [|x l IH]; intros H out; cbn [mapM].
  - intros E. injection E as <-. intros y [].
  - destruct (f x) as [y0| |] eqn:Ex; cbn [bind]; try discriminate.
    destruct (mapM f l) as [ys| |] eqn:El; cbn [bind]; try discriminate.
    intros E. injection E as <-. intros y [<-|Hy].
    + apply (H x y0); [now left | exact Ex].
    + apply (IH (fun x' y' Hx' => H x' y' (or_intror Hx')) ys eq_refl y Hy).
Qed.

Lemma applyUop_precision (op : string) (ae : Pfloat) :
  P (applyUop op ae) = P ae.
Proof.
  unfold applyUop. destruct (op == "--"); [reflexivity|].
  destruct (op == "abs"); [|reflexivity].
  destruct (V ae <? 0)%float; reflexivity.
Qed.

Section PrecisionBound.

Variable ParseFloat : string -> float * bool.
Variable math_Pow : float -> float -> float.
Variable math_Mod : float -> float -> float.

Local Notation "'eStack'" := (evalStack ParseFloat math_Pow math_Mod).
Local Notation "'eE'" := (evalE ParseFloat math_Pow math_Mod).

Lemma precision_bounded (fuel : nat) :
  forall n, ternaryShape n = true ->
    (forall out, eStack fuel n = Ok out ->
       forall p, In p out -> 0 <= P p <= maxLiteralPrecision n) /\
    (forall x, eE fuel n = Ok x -> 0 <= P x <= maxLiteralPrecision n).
Proof.
  induction fuel as [|f IH]; intros n Hwf; [split; discriminate|].
  destruct (ternaryShape_inv n Hwf) as [Hn Hc].
  pose proof (maxLiteralPrecision_nonneg n) as Hnn.
  assert (IHc : forall c y, In c (Cs n) -> eE f c = Ok y ->
                            0 <= P y <= maxLiteralPrecision n).
  { intros c y Hin Hy. pose proof (maxLiteralPrecision_child n c Hin).
    destruct (IH c (Hc c Hin)) as [_ H']. specialize (H' y Hy). lia. }
  split.
  - intros out. rewrite evalStack_S.
    destruct (Kind n == "?") eqn:Ek.
    { destruct n as [k v cs]. cbn [Kind Cs] in *.
      apply String.eqb_eq in Ek. subst k.
      unfold shapeOk in Hn. cbn in Hn. rewrite andb_true_r in Hn.
      apply Nat.eqb_eq in Hn.
      destruct cs as [|A [|B [|C [|D r]]]]; try discriminate.
      change (Tree.Child (Node "?" v [A; B; C]) (-1)) with (Some C).
      cbv iota.
      destruct (eE f C) as [cv| |]; cbn [bind]; try discriminate.
      rewrite selectBranch_three.
      destruct (0 <? V cv)%float; intros Hout p Hp.
      - pose proof (maxLiteralPrecision_child (Node "?" v [A; B; C]) B) as Hle.
        destruct (IH B) as [H' _]; [apply Hc; simpl; auto|].
        specialize (H' out Hout p Hp). cbn [Cs In] in Hle.
        specialize (Hle (or_intror (or_introl eq_refl))). lia.
      - pose proof (maxLiteralPrecision_child (Node "?" v [A; B; C]) A) as Hle.
        destruct (IH A) as [H' _]; [apply Hc; simpl; auto|].
        specialize (H' out Hout p Hp). cbn [Cs In] in Hle.
        specialize (Hle (or_introl eq_refl)). lia. }
    destruct (Kind n == "smp").
    { apply mapM_Forall. intros x y Hx. apply IHc. now apply evalSmp_In. }
    destruct (Kind n == "Stack").
    { apply mapM_Forall. intros x y Hx. now apply IHc. }
    destruct (eE f n) as [x| |] eqn:Ex; cbn [bind]; try discriminate.
    intros E. injection E as <-. intros p [<-|[]].
    now apply (IH n Hwf).
  - intros x. rewrite evalE_S.
    destruct (Kind n == "Number") eqn:Ek.
    { destruct n as [k v cs]. cbn [Kind Cs] in *.
      unfold shapeOk in Hn. rewrite Ek in Hn.
      cbn [maxLiteralPrecision] in *. rewrite Ek in *.
      destruct cs as [|c0 [|c1 [|c2 r]]]; intros E; injection E as <-;
        cbn [P Pfloat0]; try lia.
      apply andb_prop in Hn. destruct Hn as [_ Hn].
      apply Nat.leb_le in Hn. lia. }
    destruct (Kind n == "uop").
    { unfold evalUop. destruct (nth_error (Cs n) 0) as [a|] eqn:Ea;
        [|discriminate].
      destruct (eE f a) as [ae| |] eqn:Eae; cbn [bind]; try discriminate.
      intros E. injection E as <-. rewrite applyUop_precision.
      apply (IHc a ae); [now apply nth_error_In in Ea | exact Eae]. }
    destruct (Kind n == "bop").
    { unfold evalBop. destruct (nth_error (Cs n) 0) as [a|] eqn:Ea;
        [|discriminate].
      destruct (nth_error (Cs n) 1) as [b|] eqn:Eb; [|discriminate].
      destruct (eE f a) as [ae| |] eqn:Eae; cbn [bind]; try discriminate.
      destruct (eE f b) as [be| |] eqn:Ebe; cbn [bind]; try discriminate.
      intros E. injection E as <-. unfold applyBop. cbn [P].
      pose proof (IHc a ae (nth_error_In _ _ Ea) Eae).
      pose proof (IHc b be (nth_error_In _ _ Eb) Ebe).
      split; [apply maxPrecision_nonneg|].
      apply maxPrecision_le; [lia|].
      intros p [<-|[<-|[]]]; lia. }
    destruct (Kind n == "sop");
      [|intros E; injection E as <-; cbn [P Pfloat0]; lia].
    destruct (nth_error (Cs n) 0) as [a|] eqn:Ea; [|discriminate].
    destruct (eStack f a) as [st| |] eqn:Est; cbn [bind]; try discriminate.
    intros E. injection E as <-.
    apply nth_error_In in Ea.
    apply evalSop_precision_bound; [lia|].
    intros p Hp. destruct (IH a (Hc a Ea)) as [H' _].
    specialize (H' st Est p Hp).
    pose proof (maxLiteralPrecision_child n a Ea). lia.
Qed.

(** X20: on a tree of ternary shape, every precision the evaluation
    produces is non-negative and at most the largest precision written in
    a literal. *)
Lemma precision_within_literals (n : PN) (out : list Pfloat) (p : Pfloat) :
  ternaryShape n = true ->
  EvalTree ParseFloat math_Pow math_Mod n = Ok out -> In p out ->
  0 <= P p <= maxLiteralPrecision n.
Proof.
  intros Hwf Hout Hp.
  destruct (precision_bounded (fuelFor n) n Hwf) as [H _].
  exact (H out Hout p Hp).
Qed.

End PrecisionBound.

(** ** The scenarios of the specification, run on the model *)

Module Scenarios.

Import Raw.
Import Programs.

(** [3 4 +] gives 7 with precision 0. *)
Example scenario_add :
  Sample.Eval (cons (bop three (num (int "4")) "+") eps)
  = Ok [mkPfloat 7%float 0].
Proof. reflexivity. Qed.

(** [1.50 2.5 +] gives 4.00: precision 2, from the left operand. *)
Example scenario_add_decimals :
  Sample.Eval (cons (bop (num (dec "1" ".50")) (num (dec "2" ".5")) "+") eps)
  = Ok [mkPfloat 4%float 2].
Proof. reflexivity. Qed.

(** [1 2 3 sum] gives 6. *)
Example scenario_sum :
  Sample.Eval (cons (sop (cons one (cons two (cons three eps))) "sum") eps)
  = Ok [mkPfloat 6%float 0].
Proof. reflexivity. Qed.

(** [5 3 >] gives 1 and [3 5 >] gives 0. *)
Example scenario_greater :
  Sample.Eval (cons (bop (num (int "5")) three ">") eps)
  = Ok [mkPfloat 1%float 0] /\
  Sample.Eval (cons (bop three (num (int "5")) ">") eps)
  = Ok [mkPfloat 0%float 0].
Proof. split; reflexivity. Qed.

(** [1 2 3 ?] selects the second operand. *)
Example scenario_ternary :
  Sample.Eval (cons (tern one two three) eps) = Ok [mkPfloat 2%float 0].
Proof. reflexivity. Qed.

(** [1 2 clear] gives the empty sequence, [1 2 swap] gives 2 1 and
    [1 2 drop] gives 1. *)
Example scenario_stack_manipulation :
  Sample.Eval (smp (cons one (cons two eps)) "clear") = Ok [] /\
  Sample.Eval (smp (cons one (cons two eps)) "swap")
  = Ok [mkPfloat 2%float 0; mkPfloat 1%float 0] /\
  Sample.Eval (smp (cons one (cons two eps)) "drop")
  = Ok [mkPfloat 1%float 0].
Proof. repeat split; reflexivity. Qed.

(** [1 2 3 last] gives 1 and [1 2 3 first] gives 3. *)
Example scenario_last_first :
  Sample.Eval (cons (sop (cons one (cons two (cons three eps))) "last") eps)
  = Ok [mkPfloat 1%float 0] /\
  Sample.Eval (cons (sop (cons one (cons two (cons three eps))) "first") eps)
  = Ok [mkPfloat 3%float 0].
Proof. split; reflexivity. Qed.

(** [1 2 + - 1 ?], a choice between two operators: the operands stand
    before the alternatives and the selected operator is applied to them. *)
Example scenario_operator_choice :
  Sample.Eval
    (cons (nt "E" [one; two;
                   nt "Bop" [nt "Bop" [tok "bop" "+"]; nt "Bop" [tok "bop" "-"];
                             one; tok "?" "?"]]) eps)
  = Ok [mkPfloat (-1)%float 0].
Proof. reflexivity. Qed.

End Scenarios.

(** * Further properties of the evaluator *)

(** ** Termination *)

(** X1: [evalStack] and [evalE] terminate on every tree. The recursion of
    the ternary case is on a node with fewer nodes, so a recursion budget of
    twice the node count plus one is never exhausted, and a larger budget
    gives the same result. *)
Theorem evaluation_terminates
    (ParseFloat : string -> float * bool)
    (math_Pow math_Mod : float -> float -> float) (n : PN) (fuel : nat) :
  (fuelFor n <= fuel)%nat ->
  evalStack ParseFloat math_Pow math_Mod fuel n
  = EvalTree ParseFloat math_Pow math_Mod n /\
  evalE ParseFloat math_Pow math_Mod fuel n
  = evalNode ParseFloat math_Pow math_Mod n /\
  EvalTree ParseFloat math_Pow math_Mod n <> OutOfFuel /\
  evalNode ParseFloat math_Pow math_Mod n <> OutOfFuel /\
  (forall c x, Tree.Child n (-1) = Some c ->
               (size (selectBranch n x) < size n)%nat).
Proof.
  intros H. split; [now apply evalStack_fuel_enough|].
  split; [apply evalE_fuel_enough; unfold fuelFor in H; lia|].
  split; [apply EvalTree_total|]. split; [apply evalNode_total|].
  intros c x Hc. now apply (size_selectBranch n c x).
Qed.

Lemma evaluation_terminates_witness :
  evalStack Sample.ParseFloat Sample.Pow Sample.Mod 100
            (Reduce Programs.prefixed_ternary)
  = Ok [mkPfloat 25%float 1].
Proof.
  destruct (evaluation_terminates Sample.ParseFloat Sample.Pow Sample.Mod
              (Reduce Programs.prefixed_ternary) 100) as (E & _).
  - vm_compute. lia.
  - rewrite E. reflexivity.
Defined.

(** ** A ternary with operands before its alternatives *)

Lemma Child_last_of_three (v : string) (pre : list PN) (A B C : PN) :
  Tree.Child (Node "?" v (pre ++ [A; B; C])) (-1) = Some C.
Proof.
  change (pre ++ [A; B; C]) with (pre ++ [A; B] ++ [C]).
  rewrite app_assoc. apply Child_last.
Qed.

Lemma EvalTree_ternary_operands
    (ParseFloat : string -> float * bool)
    (math_Pow math_Mod : float -> float -> float)
    (v : string) (pre : list PN) (A B C : PN) :
  EvalTree ParseFloat math_Pow math_Mod (Node "?" v (pre ++ [A; B; C])) =
  c <- evalNode ParseFloat math_Pow math_Mod C ;;
  EvalTree ParseFloat math_Pow math_Mod
    (if (0 <? V c)%float then Node (Kind B) (Value B) (pre ++ Cs B)
     else Node (Kind A) (Value A) (pre ++ Cs A)).
Proof.
  pose proof (Child_last_of_three v pre A B C) as HC.
  unfold EvalTree at 1. rewrite fuelFor_S, evalStack_S.
  change (Kind (Node "?" v (pre ++ [A; B; C])) == "?") with true. cbv iota.
  rewrite HC.
  rewrite evalE_fuel_enough by (apply size_Child in HC; lia).
  destruct (evalNode ParseFloat math_Pow math_Mod C) as [c| |];
    cbn [bind]; try reflexivity.
  pose proof (size_selectBranch _ _ (V c) HC) as Hlt.
  rewrite evalStack_fuel_enough by (unfold fuelFor; lia).
  now rewrite selectBranch_operands.
Qed.

(** X2: a ["?"] node whose last three children are [A], [B] and the
    condition [C], after any children [pre], evaluates [C] and then the
    selected alternative in the node's place: the node takes the kind and
    value of [B] (condition above 0) or of [A], and its children are [pre]
    followed by the alternative's own children. A choice between two
    operators is thereby applied to the operands standing before it: with
    operands [x], [y] and two "bop" alternatives, the result is the
    selected operator applied to [x] and [y]. *)
Theorem ternary_with_operands
    (ParseFloat : string -> float * bool)
    (math_Pow math_Mod : float -> float -> float)
    (v : string) (pre : list PN) (A B C : PN) (x y : PN) (o1 o2 : string) :
  EvalTree ParseFloat math_Pow math_Mod (Node "?" v (pre ++ [A; B; C])) =
  (c <- evalNode ParseFloat math_Pow math_Mod C ;;
   EvalTree ParseFloat math_Pow math_Mod
     (if (0 <? V c)%float then Node (Kind B) (Value B) (pre ++ Cs B)
      else Node (Kind A) (Value A) (pre ++ Cs A))) /\
  EvalTree ParseFloat math_Pow math_Mod
    (Node "?" v [x; y; Node "bop" o1 []; Node "bop" o2 []; C]) =
  (c <- evalNode ParseFloat math_Pow math_Mod C ;;
   EvalTree ParseFloat math_Pow math_Mod
     (Node "bop" (if (0 <? V c)%float then o2 else o1) [x; y])).
Proof.
  split; [apply EvalTree_ternary_operands|].
  pose proof (EvalTree_ternary_operands ParseFloat math_Pow math_Mod v [x; y]
                (Node "bop" o1 []) (Node "bop" o2 []) C) as E.
  cbn [app Kind Value Cs] in E. rewrite E. clear E.
  destruct (evalNode ParseFloat math_Pow math_Mod C) as [c| |];
    cbn [bind]; try reflexivity.
  destruct (0 <? V c)%float; reflexivity.
Qed.

(** ** Sequences are evaluated element by element *)

Lemma mapM_ext_In {A B : Type} (f g : A -> res B) (l : list A) :
  (forall x, In x l -> f x = g x) -> mapM f l = mapM g l.
Proof.
  induction l as [|x l IH]; intros H; [reflexivity|].
  cbn [mapM]. rewrite (H x (or_introl eq_refl)).
  rewrite IH by (intros y Hy; apply H; now right). reflexivity.
Qed.

Lemma mapM_length {A B : Type} (f : A -> res B) (l : list A) :
  forall out, mapM f l = Ok out -> length out = length l.
Proof.
  induction l as [|x l IH]; intros out; cbn [mapM].
  - intros E. now injection E as <-.
  - destruct (f x); cbn [bind]; try discriminate.
    destruct (mapM f l) as [ys| |]; cbn [bind]; try discriminate.
    intros E. injection E as <-. cbn [length]. now rewrite (IH ys eq_refl).
Qed.

Lemma mapM_app {A B : Type} (f : A -> res B) (l r : list A) :
  mapM f (l ++ r) = xs <- mapM f l ;; ys <- mapM f r ;; Ok (xs ++ ys).
Proof.
  induction l as [|x l IH]; cbn [mapM app bind].
  - destruct (mapM f r); reflexivity.
  - destruct (f x); cbn [bind]; try reflexivity.
    rewrite IH. destruct (mapM f l); cbn [bind]; try reflexivity.
    destruct (mapM f r); reflexivity.
Qed.

Section Elementwise.

Variable ParseFloat : string -> float * bool.
Variable math_Pow : float -> float -> float.
Variable math_Mod : float -> float -> float.

Local Notation "'Run'" := (EvalTree ParseFloat math_Pow math_Mod).
Local Notation "'RunE'" := (evalNode ParseFloat math_Pow math_Mod).

Lemma mapM_children_fuel (n : PN) (cs : list PN) (f : nat) :
  (forall x, In x cs -> In x (Cs n)) -> (2 * size n <= f)%nat ->
  mapM (evalE ParseFloat math_Pow math_Mod f) cs = mapM RunE cs.
Proof.
  intros Hsub Hf. apply mapM_ext_In. intros x Hx.
  apply evalE_fuel_enough.
  pose proof (sizes_In _ _ (Hsub x Hx)). rewrite (size_Cs n) in Hf. lia.
Qed.

Lemma EvalTree_Stack (v : string) (cs : list PN) :
  Run (Node "Stack" v cs) = mapM RunE cs.
Proof.
  unfold EvalTree. rewrite fuelFor_S, evalStack_S.
  change (Kind (Node "Stack" v cs) == "?") with false.
  change (Kind (Node "Stack" v cs) == "smp") with false.
  change (Kind (Node "Stack" v cs) == "Stack") with true. cbv iota.
  apply (mapM_children_fuel (Node "Stack" v cs)); auto.
Qed.

(** X3: a "Stack" node evaluates its children one by one from left to
    right, each as [evalE] evaluates it alone: the result has exactly one
    value per child, in the children's order, and the evaluation panics
    exactly when one of the children does. *)
Theorem stack_evaluates_each_child (v : string) (cs : list PN) :
  Run (Node "Stack" v cs) = mapM RunE cs /\
  (forall out, Run (Node "Stack" v cs) = Ok out ->
     length out = length cs /\
     forall i c, nth_error cs i = Some c ->
       exists x, RunE c = Ok x /\ nth_error out i = Some x) /\
  (Run (Node "Stack" v cs) = Panic <-> exists c, In c cs /\ RunE c = Panic).
Proof.
  pose proof (EvalTree_Stack v cs) as E.
  rewrite E. split; [reflexivity|]. split.
  - intros out Hout. split; [now apply mapM_length in Hout|].
    clear E. revert out Hout.
    induction cs as [|c0 cs IH]; intros out Hout [|i] c Hc;
      cbn [nth_error] in Hc; try discriminate.
    + injection Hc as ->. cbn [mapM] in Hout.
      destruct (RunE c) as [x| |]; cbn [bind] in Hout; try discriminate.
      destruct (mapM RunE cs); cbn [bind] in Hout; try discriminate.
      injection Hout as <-. exists x. split; reflexivity.
    + cbn [mapM] in Hout.
      destruct (RunE c0) as [x| |]; cbn [bind] in Hout; try discriminate.
      destruct (mapM RunE cs) as [ys| |]; cbn [bind] in Hout;
        try discriminate.
      injection Hout as <-. cbn [nth_error]. now apply (IH ys eq_refl i c).
  - clear E. induction cs as [|c0 cs IH]; cbn [mapM].
    + split; [discriminate|]. intros (c & [] & _).
    + pose proof (evalNode_total ParseFloat math_Pow math_Mod c0) as Hc0.
      destruct (RunE c0) as [x| |] eqn:Ex; cbn [bind]; [| |now elim Hc0].
      * destruct (mapM RunE cs) as [ys| |] eqn:Ey; cbn [bind].
        -- split; [discriminate|].
           intros (c & [<-|Hin] & Hp); [congruence|].
           assert (H : Ok ys = Panic) by (apply IH; eauto). discriminate.
        -- split; [|reflexivity]. intros _.
           destruct (proj1 IH eq_refl) as (c & Hin & Hp).
           exists c. split; [now right | exact Hp].
        -- split; [discriminate|].
           intros (c & [<-|Hin] & Hp); [congruence|].
           assert (H : @OutOfFuel (list Pfloat) = Panic) by (apply IH; eauto).
           discriminate.
      * split; [|reflexivity]. intros _. exists c0. split; [now left|exact Ex].
Qed.

End Elementwise.

(** ** Stack manipulation acts on the elements before they are evaluated *)

Section Manipulation.

Variable ParseFloat : string -> float * bool.
Variable math_Pow : float -> float -> float.
Variable math_Mod : float -> float -> float.

Local Notation "'Run'" := (EvalTree ParseFloat math_Pow math_Mod).
Local Notation "'RunE'" := (evalNode ParseFloat math_Pow math_Mod).

Lemma EvalTree_smp (v : string) (cs : list PN) :
  Run (Node "smp" v cs) = mapM RunE (Cs (evalSmp (Node "smp" v cs))).
Proof.
  unfold EvalTree. rewrite fuelFor_S, evalStack_S.
  change (Kind (Node "smp" v cs) == "?") with false.
  change (Kind (Node "smp" v cs) == "smp") with true. cbv iota.
  apply (mapM_children_fuel _ _ _ (Node "smp" v cs)); [|lia].
  intros x. apply evalSmp_In.
Qed.

(** X4: evaluating a [swap] node over the elements [l], [a], [b] gives the
    values of [l], then the value of [b], then the value of [a]: the last
    two results are exchanged and the others keep their places. *)
Theorem swap_exchanges_last_two_values (l : list PN) (a b : PN)
    (vs : list Pfloat) (x y : Pfloat) :
  mapM RunE l = Ok vs -> RunE a = Ok x -> RunE b = Ok y ->
  Run (Node "Stack" "" (l ++ [a; b])) = Ok (vs ++ [x; y]) /\
  Run (Node "smp" "swap" (l ++ [a; b])) = Ok (vs ++ [y; x]).
Proof.
  intros Hl Ha Hb. split.
  - rewrite (EvalTree_Stack ParseFloat math_Pow math_Mod).
    rewrite mapM_app, Hl. cbn [mapM bind]. now rewrite Ha, Hb.
  - rewrite EvalTree_smp, evalSmp_swap. cbn [Cs].
    rewrite mapM_app, Hl. cbn [mapM bind]. now rewrite Hb, Ha.
Qed.

(** X5: evaluating a [drop] node over the elements [l] and [a] is
    evaluating the elements [l] alone: the dropped element is removed
    before anything is evaluated, so it is not evaluated at all, and a
    panic it would raise does not happen. A "smp" node whose value is none
    of [swap], [drop], [clear] evaluates all its elements unchanged. *)
Theorem drop_discards_last_unevaluated (l cs : list PN) (a : PN)
    (v : string) :
  Run (Node "smp" "drop" (l ++ [a])) = mapM RunE l /\
  Run (Node "smp" "drop" (l ++ [a])) = Run (Node "Stack" "" l) /\
  ((v == "swap") = false -> (v == "drop") = false ->
   (v == "clear") = false ->
   Run (Node "smp" v cs) = mapM RunE cs).
Proof.
  assert (E : Run (Node "smp" "drop" (l ++ [a])) = mapM RunE l).
  { rewrite EvalTree_smp, evalSmp_drop. reflexivity. }
  split; [exact E|]. split.
  - rewrite E. symmetry.
    apply (EvalTree_Stack ParseFloat math_Pow math_Mod).
  - intros H1 H2 H3. rewrite EvalTree_smp. unfold evalSmp. cbn [Value].
    now rewrite H1, H2, H3.
Qed.

End Manipulation.

Lemma swap_exchanges_last_two_values_witness :
  EvalTree Sample.ParseFloat Sample.Pow Sample.Mod
    (Node "smp" "swap" ([Reduce Programs.one] ++
                        [Reduce Programs.two; Reduce Programs.three]))
  = Ok ([mkPfloat 1%float 0] ++ [mkPfloat 3%float 0; mkPfloat 2%float 0]).
Proof.
  apply (swap_exchanges_last_two_values
           Sample.ParseFloat Sample.Pow Sample.Mod
           [Reduce Programs.one] (Reduce Programs.two) (Reduce Programs.three)
           [mkPfloat 1%float 0] (mkPfloat 2%float 0) (mkPfloat 3%float 0));
    reflexivity.
Defined.

Lemma drop_discards_last_unevaluated_witness :
  EvalTree Sample.ParseFloat Sample.Pow Sample.Mod
    (Node "smp" "dup" [Reduce Programs.one])
  = Ok [mkPfloat 1%float 0] /\
  EvalTree Sample.ParseFloat Sample.Pow Sample.Mod
    (Node "smp" "drop" ([Reduce Programs.one] ++ [Node "bop" "+" []]))
  = Ok [mkPfloat 1%float 0].
Proof.
  destruct (drop_discards_last_unevaluated
              Sample.ParseFloat Sample.Pow Sample.Mod
              [Reduce Programs.one] [Reduce Programs.one] (Node "bop" "+" [])
              "dup") as (Hd & _ & Hu).
  split.
  - rewrite (Hu eq_refl eq_refl eq_refl). reflexivity.
  - rewrite Hd. reflexivity.
Defined.

(** ** [swap] undoes itself *)

Lemma last_two {A : Type} (l : list A) :
  (2 <= length l)%nat -> exists pre a b, l = pre ++ [a; b].
Proof.
  intros H.
  destruct (exists_last (l := l)) as (l1 & b & ->);
    [intros ->; simpl in H; lia|].
  rewrite length_app in H. simpl in H.
  destruct (exists_last (l := l1)) as (l2 & a & ->);
    [intros ->; simpl in H; lia|].
  exists l2, a, b. now rewrite <- app_assoc.
Qed.

(** X6: [evalSmp] never changes the kind or the value of its node and
    never adds a child; [swap] keeps the number of children and, applied
    twice, restores the child list; [drop] removes exactly one child of a
    non-empty list. *)
Theorem evalSmp_shape (k v : string) (cs : list PN) :
  Kind (evalSmp (Node k v cs)) = k /\
  Value (evalSmp (Node k v cs)) = v /\
  (length (Cs (evalSmp (Node k v cs))) <= length cs)%nat /\
  length (Cs (evalSmp (Node k "swap" cs))) = length cs /\
  evalSmp (evalSmp (Node k "swap" cs)) = Node k "swap" cs /\
  length (Cs (evalSmp (Node k "drop" cs))) = (length cs - 1)%nat.
Proof.
  assert (Hswap : length (Cs (evalSmp (Node k "swap" cs))) = length cs /\
                  evalSmp (evalSmp (Node k "swap" cs)) = Node k "swap" cs).
  { destruct (Nat.lt_ge_cases (length cs) 2) as [Hlt|Hge].
    - assert (E : evalSmp (Node k "swap" cs) = Node k "swap" cs).
      { destruct cs as [|a [|b r]]; [reflexivity|reflexivity|].
        simpl in Hlt. lia. }
      rewrite !E. split; reflexivity.
    - destruct (last_two cs Hge) as (pre & a & b & ->).
      rewrite !evalSmp_swap. cbn [Cs]. rewrite !length_app. split; reflexivity. }
  assert (Hdrop : length (Cs (evalSmp (Node k "drop" cs)))
                  = (length cs - 1)%nat).
  { destruct cs as [|c0 r]; [reflexivity|].
    destruct (exists_last (l := c0 :: r)) as (pre & a & E); [discriminate|].
    rewrite E, evalSmp_drop. cbn [Cs]. rewrite length_app. simpl. lia. }
  destruct Hswap as [Hs1 Hs2].
  assert (Hset : forall (l : list PN) i x, length (set_nth i x l) = length l).
  { induction l as [|y l IH]; intros [|i] x; simpl; auto. }
  repeat split; try assumption; unfold evalSmp; cbn [Cs Kind Value];
    repeat match goal with
           | |- context [if ?c then _ else _] => destruct c
           | |- context [match ?c with Some _ => _ | None => _ end] =>
               destruct c
           end; cbn [Cs Kind Value length]; try reflexivity;
    rewrite ?Hset, ?length_firstn; lia.
Qed.

(** ** Unary operators *)

Lemma SFopp_involutive (x : spec_float) : SFopp (SFopp x) = x.
Proof. destruct x as [s|s| |s m e]; simpl; now rewrite ?negb_involutive. Qed.

Lemma opp_involutive (x : float) : (- - x)%float = x.
Proof.
  rewrite <- (SF2Prim_Prim2SF (- - x)), !opp_spec, SFopp_involutive.
  apply SF2Prim_Prim2SF.
Qed.

Lemma Prim2SF_zero : Prim2SF 0%float = S754_zero false.
Proof. reflexivity. Qed.

Lemma SFopp_not_below_zero (x : spec_float) :
  SFltb x (S754_zero false) = true ->
  SFltb (SFopp x) (S754_zero false) = false.
Proof.
  unfold SFltb, SFcompare, SFopp.
  destruct x as [[]|[]| |[] m e]; cbn; congruence.
Qed.

Lemma opp_not_below_zero (x : float) :
  (x <? 0)%float = true -> (- x <? 0)%float = false.
Proof.
  rewrite !ltb_spec, opp_spec, Prim2SF_zero. apply SFopp_not_below_zero.
Qed.

(** X7: the unary operators keep the precision of their operand; negating
    twice gives back the operand, value and precision; the absolute value
    is never below zero, leaves a value that is not below zero as it is,
    and applying it twice is applying it once. *)
Theorem unary_operators (ae : Pfloat) :
  P (applyUop "--" ae) = P ae /\
  P (applyUop "abs" ae) = P ae /\
  applyUop "--" (applyUop "--" ae) = ae /\
  (V (applyUop "abs" ae) <? 0)%float = false /\
  ((V ae <? 0)%float = false -> applyUop "abs" ae = ae) /\
  applyUop "abs" (applyUop "abs" ae) = applyUop "abs" ae.
Proof.
  assert (Habs : (V (applyUop "abs" ae) <? 0)%float = false).
  { unfold applyUop. simpl String.eqb. cbv iota.
    destruct (V ae <? 0)%float eqn:E; cbn [V]; [|exact E].
    now apply opp_not_below_zero. }
  split; [apply applyUop_precision|]. split; [apply applyUop_precision|].
  split.
  { destruct ae as [v p]. unfold applyUop. simpl String.eqb. cbv iota.
    cbn [V P]. now rewrite opp_involutive. }
  split; [exact Habs|]. split.
  - intros H. unfold applyUop. simpl String.eqb. cbv iota. now rewrite H.
  - unfold applyUop at 1. simpl String.eqb. cbv iota. now rewrite Habs.
Qed.

(** ** Comparisons *)

Ltac one_of_three :=
  first [ left; repeat split; reflexivity
        | right; left; repeat split; reflexivity
        | right; right; repeat split; reflexivity ].

Lemma SF_trichotomy (x y : spec_float) :
  SFeqb x x = true -> SFeqb y y = true ->
  (SFltb y x = true /\ SFltb x y = false /\ SFeqb x y = false) \/
  (SFltb y x = false /\ SFltb x y = true /\ SFeqb x y = false) \/
  (SFltb y x = false /\ SFltb x y = false /\ SFeqb x y = true).
Proof.
  unfold SFltb, SFeqb, SFcompare.
  destruct x as [[]|[]| |[] mx ex]; destruct y as [[]|[]| |[] my ey];
    cbn; try congruence; intros _ _; try one_of_three;
    change (Pos.compare_cont Eq mx my) with (Pos.compare mx my);
    change (Pos.compare_cont Eq my mx) with (Pos.compare my mx);
    rewrite (Z.compare_antisym ex ey), (Pos.compare_antisym mx my);
    destruct (Z.compare ex ey); cbn; try one_of_three;
    destruct (Pos.compare mx my); cbn; one_of_three.
Qed.

Lemma SF_exclusive (x y : spec_float) :
  (SFltb y x = true -> SFltb x y = false /\ SFeqb x y = false) /\
  (SFltb x y = true -> SFeqb x y = false).
Proof.
  unfold SFltb, SFeqb, SFcompare.
  destruct x as [[]|[]| |[] mx ex]; destruct y as [[]|[]| |[] my ey];
    cbn; try (split; intros; try split; congruence);
    change (Pos.compare_cont Eq mx my) with (Pos.compare mx my);
    change (Pos.compare_cont Eq my mx) with (Pos.compare my mx);
    rewrite (Z.compare_antisym ex ey), (Pos.compare_antisym mx my);
    destruct (Z.compare ex ey); cbn;
    try (split; intros; try split; congruence);
    destruct (Pos.compare mx my); cbn;
    split; intros; try split; congruence.
Qed.

Lemma float_trichotomy (x y : float) :
  (x =? x)%float = true -> (y =? y)%float = true ->
  ((y <? x)%float = true /\ (x <? y)%float = false /\ (x =? y)%float = false) \/
  ((y <? x)%float = false /\ (x <? y)%float = true /\ (x =? y)%float = false) \/
  ((y <? x)%float = false /\ (x <? y)%float = false /\ (x =? y)%float = true).
Proof. rewrite !ltb_spec, !eqb_spec. apply SF_trichotomy. Qed.

Lemma float_exclusive (x y : float) :
  ((y <? x)%float = true ->
   (x <? y)%float = false /\ (x =? y)%float = false) /\
  ((x <? y)%float = true -> (x =? y)%float = false).
Proof. rewrite !ltb_spec, !eqb_spec. apply SF_exclusive. Qed.

(** X8: on two operands whose values are numbers (equal to themselves,
    that is, not NaN), exactly one of [>], [<] and [=] yields 1 and the two
    others yield 0, and [cmpr] yields 1, -1 or 0 accordingly; each of the
    four results has the larger of the operand precisions. *)
Theorem comparisons_are_exclusive
    (math_Pow math_Mod : float -> float -> float) (a b : Pfloat) :
  (V a =? V a)%float = true -> (V b =? V b)%float = true ->
  let p := maxPrecision [a; b] in
  let r := fun o => applyBop math_Pow math_Mod o a b in
  (r ">" = mkPfloat 1 p /\ r "<" = mkPfloat 0 p /\ r "=" = mkPfloat 0 p /\
   r "cmpr" = mkPfloat 1 p) \/
  (r ">" = mkPfloat 0 p /\ r "<" = mkPfloat 1 p /\ r "=" = mkPfloat 0 p /\
   r "cmpr" = mkPfloat (-1) p) \/
  (r ">" = mkPfloat 0 p /\ r "<" = mkPfloat 0 p /\ r "=" = mkPfloat 1 p /\
   r "cmpr" = mkPfloat 0 p).
Proof.
  intros Ha Hb p r. subst r. unfold applyBop. simpl String.eqb. cbv iota.
  fold p.
  destruct (float_trichotomy (V a) (V b) Ha Hb)
    as [(-> & -> & ->)|[(-> & -> & ->)|(-> & -> & ->)]].
  - left. repeat split.
  - right. left. repeat split.
  - right. right. repeat split.
Qed.

Lemma comparisons_are_exclusive_witness :
  let a := mkPfloat 2.5%float 1 in
  let b := mkPfloat 7%float 0 in
  let r := fun o => applyBop Sample.Pow Sample.Mod o a b in
  (r ">" = mkPfloat 1 1 /\ r "<" = mkPfloat 0 1 /\ r "=" = mkPfloat 0 1 /\
   r "cmpr" = mkPfloat 1 1) \/
  (r ">" = mkPfloat 0 1 /\ r "<" = mkPfloat 1 1 /\ r "=" = mkPfloat 0 1 /\
   r "cmpr" = mkPfloat (-1) 1) \/
  (r ">" = mkPfloat 0 1 /\ r "<" = mkPfloat 0 1 /\ r "=" = mkPfloat 1 1 /\
   r "cmpr" = mkPfloat 0 1).
Proof.
  exact (comparisons_are_exclusive Sample.Pow Sample.Mod
           (mkPfloat 2.5%float 1) (mkPfloat 7%float 0) eq_refl eq_refl).
Defined.

(** X9: whatever the operands, NaN included, at most one of [>], [<] and
    [=] yields 1; [cmpr] of the operands in one order is 1 exactly when
    [cmpr] in the other order is -1; and the operator [>] on [a], [b] is
    the operator [<] on [b], [a]. *)
Theorem comparisons_are_consistent
    (math_Pow math_Mod : float -> float -> float) (a b : Pfloat) :
  let r := fun o x y => V (applyBop math_Pow math_Mod o x y) in
  (r ">" a b = 1%float -> r "<" a b = 0%float /\ r "=" a b = 0%float) /\
  (r "<" a b = 1%float -> r "=" a b = 0%float) /\
  (r "cmpr" a b = 1%float <-> r "cmpr" b a = (-1)%float) /\
  r ">" a b = r "<" b a.
Proof.
  intros r. subst r. unfold applyBop. simpl String.eqb. cbv iota. cbn [V].
  destruct (float_exclusive (V a) (V b)) as [H1 H2].
  destruct (float_exclusive (V b) (V a)) as [H3 _].
  destruct (V b <? V a)%float eqn:Eba; destruct (V a <? V b)%float eqn:Eab;
    destruct (V a =? V b)%float eqn:Ee;
    try (destruct (H1 eq_refl); discriminate);
    try (destruct (H3 eq_refl); discriminate);
    try (specialize (H2 eq_refl); discriminate);
    repeat split; intros; try reflexivity; try discriminate.
Qed.

(** ** [maxPrecision] does not depend on the order of its arguments *)

Lemma maxOf_app (l r : list Z) : maxOf (l ++ r) = Z.max (maxOf l) (maxOf r).
Proof.
  unfold maxOf. induction l as [|x l IH]; cbn [app fold_right].
  - assert (0 <= fold_right Z.max 0 r) by (induction r; simpl; lia). lia.
  - rewrite IH. lia.
Qed.

Lemma maxOf_perm (l r : list Z) : Permutation l r -> maxOf l = maxOf r.
Proof.
  unfold maxOf. induction 1; cbn [fold_right]; lia.
Qed.

(** X10: [maxPrecision] of a concatenation is the larger of the two
    [maxPrecision]s, and [maxPrecision] is the same for every order of the
    same arguments. So the precision of a binary operator is the same for
    the operands in either order and whatever the operator, and applying
    binary operators to three operands gives the largest of the three
    precisions however they are grouped. *)
Theorem maxPrecision_order_independent
    (math_Pow math_Mod : float -> float -> float)
    (a b c : Pfloat) (o o' : string) :
  (forall l r : list Pfloat,
      Permutation l r -> maxPrecision l = maxPrecision r) /\
  (forall l r : list Pfloat,
      maxPrecision (l ++ r) = Z.max (maxPrecision l) (maxPrecision r)) /\
  P (applyBop math_Pow math_Mod o a b) = P (applyBop math_Pow math_Mod o' b a) /\
  P (applyBop math_Pow math_Mod o (applyBop math_Pow math_Mod o' a b) c)
  = maxPrecision [a; b; c] /\
  P (applyBop math_Pow math_Mod o a (applyBop math_Pow math_Mod o' b c))
  = maxPrecision [a; b; c].
Proof.
  split.
  { intros l r Hperm. rewrite !maxPrecision_maxOf. apply maxOf_perm.
    now apply Permutation_map. }
  split.
  { intros l r. rewrite !maxPrecision_maxOf, map_app. apply maxOf_app. }
  unfold applyBop. cbn [P].
  rewrite !maxPrecision_maxOf. cbn [map P]. unfold maxOf. cbn [fold_right].
  repeat split; lia.
Qed.

Lemma maxPrecision_order_independent_witness :
  maxPrecision [mkPfloat 1%float 2; mkPfloat 2%float 0; mkPfloat 3%float 4]
  = maxPrecision [mkPfloat 3%float 4; mkPfloat 1%float 2; mkPfloat 2%float 0]
  /\
  maxPrecision ([mkPfloat 1%float 2] ++ [mkPfloat 2%float 0; mkPfloat 3%float 4])
  = Z.max 2 4.
Proof.
  destruct (maxPrecision_order_independent Sample.Pow Sample.Mod
              Pfloat0 Pfloat0 Pfloat0 "+" "+") as (Hperm & Happ & _).
  split.
  - apply Hperm. apply Permutation_sym.
    apply (Permutation_cons_app
             [mkPfloat 1%float 2; mkPfloat 2%float 0] []
             (mkPfloat 3%float 4)).
    rewrite app_nil_r. apply Permutation_refl.
  - rewrite Happ. reflexivity.
Defined.

(** ** Precision on trees of ternary shape *)

Lemma precision_within_literals_witness :
  0 <= P (mkPfloat 4%float 2)
    <= maxLiteralPrecision
         (Reduce (Raw.cons (Raw.bop (Raw.num (Raw.dec "1" ".50"))
                                    (Raw.num (Raw.dec "2" ".5")) "+")
                           Raw.eps)).
Proof.
  apply (precision_within_literals Sample.ParseFloat Sample.Pow Sample.Mod
           (Reduce (Raw.cons (Raw.bop (Raw.num (Raw.dec "1" ".50"))
                                      (Raw.num (Raw.dec "2" ".5")) "+")
                             Raw.eps))
           [mkPfloat 4%float 2] (mkPfloat 4%float 2)).
  - reflexivity.
  - reflexivity.
  - simpl. auto.
Defined.

(** * Further properties of the canonicalizer *)

(** ** The tree operations on the first and the last child *)

Lemma ChildAt_last (k v : string) (pre : list PN) (c : PN)
    (kinds : list string) :
  Tree.ChildAt (Node k v (pre ++ [c])) (-1) kinds
  = existsb (String.eqb (Kind c)) kinds.
Proof. unfold Tree.ChildAt. now rewrite Child_last. Qed.

Lemma Child_first (k v : string) (c : PN) (r : list PN) :
  Tree.Child (Node k v (c :: r)) 0 = Some c.
Proof.
  unfold Tree.Child, Tree.GetIdx. cbn [Cs length].
  rewrite Nat2Z.inj_succ. cbn [Z.ltb Z.compare].
  replace ((0 <=? 0) && (0 <? Z.succ (Z.of_nat (length r)))) with true.
  - reflexivity.
  - symmetry. apply andb_true_intro. split;
      [apply Z.leb_le | apply Z.ltb_lt]; lia.
Qed.

Lemma ChildAt_first (k v : string) (c : PN) (r : list PN)
    (kinds : list string) :
  Tree.ChildAt (Node k v (c :: r)) 0 kinds
  = existsb (String.eqb (Kind c)) kinds.
Proof. unfold Tree.ChildAt. now rewrite Child_first. Qed.

Lemma PromoteChildrenOf_last (k v : string) (pre : list PN) (c : PN) :
  Tree.PromoteChildrenOf (Node k v (pre ++ [c])) (-1)
  = Node k v (pre ++ Cs c).
Proof.
  unfold Tree.PromoteChildrenOf. cbn [Cs Kind Value].
  change (-1) with (- Z.of_nat 1).
  rewrite (GetIdx_back pre [c] 1) by (simpl; lia).
  cbn [length Nat.sub]. rewrite nth_error_app_at. cbn [nth_error].
  destruct (firstn_skipn_at pre [c] 0) as [-> _].
  replace (S (length pre + 0)) with (length pre + 1)%nat by lia.
  destruct (firstn_skipn_at pre [c] 1) as [_ ->].
  cbn [firstn skipn]. now rewrite !app_nil_r.
Qed.

Lemma PromoteChildrenOf_first (k v : string) (c : PN) (r : list PN) :
  Tree.PromoteChildrenOf (Node k v (c :: r)) 0 = Node k v (Cs c ++ r).
Proof.
  unfold Tree.PromoteChildrenOf.
  pose proof (Child_first k v c r) as H. unfold Tree.Child in H.
  destruct (Tree.GetIdx (Cs (Node k v (c :: r))) 0) as [i|] eqn:E;
    [|discriminate].
  assert (i = 0%nat) as ->.
  { unfold Tree.GetIdx in E. cbn [Z.ltb Z.compare] in E.
    destruct ((0 <=? 0) && (0 <? Z.of_nat (length (Cs (Node k v (c :: r))))));
      [|discriminate]. now injection E as <-. }
  rewrite H. reflexivity.
Qed.

Lemma isElement_kinds (x : PN) :
  isElement x = true ->
  existsb (String.eqb (Kind x)) ["Stack"] = false /\
  existsb (String.eqb (Kind x)) ["smp"; "?"] = false.
Proof.
  unfold isElement. intros H.
  apply andb_prop in H. destruct H as [H H3].
  apply andb_prop in H. destruct H as [H1 H2].
  apply negb_true_iff in H1, H2, H3. cbn [existsb].
  now rewrite H1, H2, H3.
Qed.

Lemma ChildAt_last2 (k v : string) (a c : PN) (kinds : list string) :
  Tree.ChildAt (Node k v [a; c]) (-1) kinds
  = existsb (String.eqb (Kind c)) kinds.
Proof. exact (ChildAt_last k v [a] c kinds). Qed.

Lemma ChildAt_last1 (k v : string) (c : PN) (kinds : list string) :
  Tree.ChildAt (Node k v [c]) (-1) kinds
  = existsb (String.eqb (Kind c)) kinds.
Proof. exact (ChildAt_last k v [] c kinds). Qed.

Lemma PromoteChildrenOf_last2 (k v : string) (a c : PN) :
  Tree.PromoteChildrenOf (Node k v [a; c]) (-1) = Node k v (a :: Cs c).
Proof. exact (PromoteChildrenOf_last k v [a] c). Qed.

(** The reduction of "Stack" on an element followed by a reduced rest. *)
Lemma stack_element_then_empty (x : PN) (w : string) :
  isElement x = true ->
  stack (Node "Stack" "" [x; Node "Stack" w []]) = x.
Proof.
  intros Hx. destruct (isElement_kinds x Hx) as [H1 H2]. unfold stack.
  rewrite ChildAt_last2.
  change (existsb (String.eqb (Kind (Node "Stack" w []))) ["Stack"])
    with true. cbv iota.
  rewrite PromoteChildrenOf_last2.
  cbn [Cs]. rewrite ChildAt_first, H1, ChildAt_last1, H2.
  apply PromoteChild_single.
Qed.

Lemma stack_element_then_element (x y : PN) :
  isElement x = true -> isElement y = true ->
  stack (Node "Stack" "" [x; y]) = Node "Stack" "" [x; y].
Proof.
  intros Hx Hy. destruct (isElement_kinds x Hx) as [H1 _].
  destruct (isElement_kinds y Hy) as [H3 H4]. unfold stack.
  rewrite ChildAt_last2, H3, ChildAt_first, H1, ChildAt_last2, H4.
  reflexivity.
Qed.

Lemma stack_element_then_sequence (x : PN) (w : string) (ys : list PN)
    (y : PN) :
  isElement x = true -> isElement y = true ->
  stack (Node "Stack" "" [x; Node "Stack" w (ys ++ [y])])
  = Node "Stack" "" (x :: ys ++ [y]).
Proof.
  intros Hx Hy. destruct (isElement_kinds x Hx) as [H1 _].
  destruct (isElement_kinds y Hy) as [_ H4]. unfold stack.
  rewrite ChildAt_last2.
  change (existsb (String.eqb (Kind (Node "Stack" w (ys ++ [y])))) ["Stack"])
    with true. cbv iota.
  rewrite PromoteChildrenOf_last2.
  cbn [Cs]. rewrite ChildAt_first, H1.
  change (x :: ys ++ [y]) with ((x :: ys) ++ [y]).
  rewrite ChildAt_last, H4.
  unfold Tree.PromoteSingleChild. cbn [Cs app].
  destruct ys; reflexivity.
Qed.

(** ** Sequences of expressions *)

Lemma Reduce_cons (e s : PN) :
  Reduce (Raw.cons e s) = stack (Node "Stack" "" [Reduce e; Reduce s]).
Proof. reflexivity. Qed.

Lemma Reduce_sequence (es : list PN) :
  Forall (fun e => isElement (Reduce e) = true) es ->
  Reduce (sequence es) = canonicalSequence (map Reduce es).
Proof.
  induction es as [|e es IH]; intros H; [reflexivity|].
  inversion H as [|e' es' He Hes]; subst.
  change (sequence (e :: es)) with (Raw.cons e (sequence es)).
  rewrite Reduce_cons, (IH Hes). cbn [map].
  assert (Hall : forall y, In y (map Reduce es) -> isElement y = true).
  { intros y Hy. apply in_map_iff in Hy. destruct Hy as (e0 & <- & Hin).
    revert e0 Hin. now apply Forall_forall. }
  destruct (map Reduce es) as [|y1 [|y2 r]] eqn:Em; cbn [canonicalSequence].
  - now apply stack_element_then_empty.
  - apply stack_element_then_element; [exact He|]. apply Hall. now left.
  - destruct (exists_last (l := y1 :: y2 :: r)) as (ys & y & E);
      [discriminate|].
    rewrite E. rewrite stack_element_then_sequence; [| exact He |].
    + reflexivity.
    + apply Hall. rewrite E. apply in_or_app. right. now left.
Qed.

Section SequencePrograms.

Variable ParseFloat : string -> float * bool.
Variable math_Pow : float -> float -> float.
Variable math_Mod : float -> float -> float.

Local Notation "'Run'" := (EvalTree ParseFloat math_Pow math_Mod).
Local Notation "'RunE'" := (evalNode ParseFloat math_Pow math_Mod).

Lemma EvalTree_element (x : PN) :
  isElement x = true -> Run x = mapM RunE [x].
Proof.
  unfold isElement. intros H.
  apply andb_prop in H. destruct H as [H H3].
  apply andb_prop in H. destruct H as [H1 H2].
  apply negb_true_iff in H1, H2, H3.
  unfold EvalTree. rewrite fuelFor_S, evalStack_S, H1, H2, H3.
  rewrite evalE_fuel_enough by lia. cbn [mapM].
  destruct (RunE x); reflexivity.
Qed.

Lemma EvalTree_canonicalSequence (xs : list PN) :
  (forall x, In x xs -> isElement x = true) ->
  Run (canonicalSequence xs) = mapM RunE xs.
Proof.
  intros H. destruct xs as [|x [|y r]]; cbn [canonicalSequence].
  - reflexivity.
  - apply EvalTree_element, H. now left.
  - apply (EvalTree_Stack ParseFloat math_Pow math_Mod).
Qed.

(** X11: the program [e1 ... en] of expressions that are elements (their
    canonical trees are no "Stack", "smp" or "?" nodes) canonicalizes to
    the canonical trees of the expressions in order, under one flat "Stack"
    node when there are two or more, and evaluates to the values of the
    expressions in order. *)
Theorem sequence_evaluates_in_order (es : list PN) :
  Forall (fun e => isElement (Reduce e) = true) es ->
  Reduce (sequence es) = canonicalSequence (map Reduce es) /\
  Run (Reduce (sequence es)) = mapM RunE (map Reduce es).
Proof.
  intros H. rewrite (Reduce_sequence es H). split; [reflexivity|].
  apply EvalTree_canonicalSequence. intros x Hx.
  apply in_map_iff in Hx. destruct Hx as (e0 & <- & Hin).
  revert e0 Hin. now apply Forall_forall.
Qed.

End SequencePrograms.

Lemma sequence_evaluates_in_order_witness :
  Sample.Eval (sequence [Raw.bop Programs.one Programs.two "+";
                         Programs.three;
                         Raw.uop Programs.two "--"])
  = Ok [mkPfloat 3%float 0; mkPfloat 3%float 0; mkPfloat (-2)%float 0].
Proof.
  destruct (sequence_evaluates_in_order
              Sample.ParseFloat Sample.Pow Sample.Mod
              [Raw.bop Programs.one Programs.two "+"; Programs.three;
               Raw.uop Programs.two "--"]) as [_ E].
  - repeat constructor.
  - unfold Sample.Eval. rewrite E. reflexivity.
Defined.

(** ** Stack manipulation after a sequence *)

Lemma Reduce_smp (s : PN) (o : string) :
  Reduce (Raw.smp s o) = stack (Node "Stack" "" [Reduce s; Node "smp" o []]).
Proof. reflexivity. Qed.

Lemma stack_then_smp (x : PN) (o : string) :
  stack (Node "Stack" "" [x; Node "smp" o []])
  = if Kind x == "Stack" then Node "smp" o (Cs x) else Node "smp" o [x].
Proof.
  unfold stack. rewrite ChildAt_last2.
  change (existsb (String.eqb (Kind (Node "smp" o []))) ["Stack"]) with false.
  cbv iota. rewrite ChildAt_first. cbn [existsb]. rewrite orb_false_r.
  destruct (Kind x == "Stack").
  - rewrite PromoteChildrenOf_first, ChildAt_last.
    change (existsb (String.eqb (Kind (Node "smp" o []))) ["smp"; "?"])
      with true. cbv iota.
    rewrite PromoteChild_last. cbn [Kind Value Cs]. now rewrite app_nil_r.
  - rewrite ChildAt_last2.
    change (existsb (String.eqb (Kind (Node "smp" o []))) ["smp"; "?"])
      with true. cbv iota.
    exact (PromoteChild_last "Stack" "" [x] (Node "smp" o [])).
Qed.

Section ManipulationPrograms.

Variable ParseFloat : string -> float * bool.
Variable math_Pow : float -> float -> float.
Variable math_Mod : float -> float -> float.

Local Notation "'Run'" := (EvalTree ParseFloat math_Pow math_Mod).
Local Notation "'RunE'" := (evalNode ParseFloat math_Pow math_Mod).


(** X13: a stack manipulation written after another one does not act on
    the elements the first one leaves. The first "smp" node is the single
    child of the second: [drop] and [clear] remove it, and otherwise it is
    evaluated by [evalE], which has no case for "smp" and gives the zero
    value, without applying the first operator. *)
Theorem manipulation_after_manipulation (s : PN) (o1 o2 : string) :
  Reduce (Raw.smp (Raw.smp s o1) o2)
  = Node "smp" o2 [Reduce (Raw.smp s o1)] /\
  Run (Reduce (Raw.smp (Raw.smp s o1) o2))
  = if (o2 == "drop") || (o2 == "clear") then Ok [] else Ok [Pfloat0].
Proof.
  assert (Hk : Kind (Reduce (Raw.smp s o1)) = "smp").
  { rewrite Reduce_smp, stack_then_smp.
    destruct (Kind (Reduce s) == "Stack"); reflexivity. }
  assert (E : Reduce (Raw.smp (Raw.smp s o1) o2)
              = Node "smp" o2 [Reduce (Raw.smp s o1)]).
  { rewrite (Reduce_smp (Raw.smp s o1) o2), stack_then_smp, Hk.
    reflexivity. }
  rewrite E. split; [reflexivity|].
  rewrite (EvalTree_smp ParseFloat math_Pow math_Mod).
  assert (Hz : RunE (Reduce (Raw.smp s o1)) = Ok Pfloat0).
  { unfold evalNode. rewrite fuelFor_S, evalE_S, Hk. reflexivity. }
  unfold evalSmp. cbn [Cs Value Kind length].
  change (1 <? 1)%nat with false. change (0 <? 1)%nat with true.
  destruct (o2 == "swap") eqn:E1.
  { apply String.eqb_eq in E1. subst o2.
    cbn [Cs mapM orb]. simpl String.eqb. cbn [orb]. now rewrite Hz. }
  destruct (o2 == "drop"); [reflexivity|].
  destruct (o2 == "clear"); [reflexivity|].
  cbn [Cs mapM orb]. now rewrite Hz.
Qed.

End ManipulationPrograms.



(** ** Parentheses around a whole sequence *)

(** X14: a group [( s )] that is all of its sequence canonicalizes to the
    canonical tree of [s] itself, so writing the parentheses changes
    nothing where the group is the argument of an aggregate operator, the
    rest of a sequence after an expression, the sequence before a stack
    manipulation operator, or the content of another such group. *)
Theorem parentheses_around_a_whole_sequence (s e : PN) (o : string) :
  let g := Raw.group Raw.eps s Raw.eps in
  Reduce g = Reduce s /\
  Reduce (Raw.sop g o) = Reduce (Raw.sop s o) /\
  Reduce (Raw.cons e g) = Reduce (Raw.cons e s) /\
  Reduce (Raw.smp g o) = Reduce (Raw.smp s o) /\
  Reduce (Raw.group Raw.eps g Raw.eps) = Reduce s.
Proof.
  intros g. pose proof (Reduce_group_alone s) as E. fold g in E.
  split; [exact E|].
  split.
  { change (Reduce (Raw.sop g o))
      with (Tree.PromoteChild (Node "E" "" [Reduce g; Node "sop" o []]) (-1)).
    now rewrite E. }
  split; [now rewrite !Reduce_cons, E|].
  split; [now rewrite !Reduce_smp, E|].
  now rewrite Reduce_group_alone.
Qed.

(** ** A ternary at the end of a sequence *)

Lemma Reduce_tern (a b c : PN) :
  Reduce (Raw.tern a b c) = Node "?" "?" [Reduce a; Reduce b; Reduce c].
Proof. reflexivity. Qed.

Lemma stack_then_ternary (x : PN) (v : string) (cs : list PN) :
  isElement x = true ->
  stack (Node "Stack" "" [x; Node "?" v cs]) = Node "?" v (x :: cs).
Proof.
  intros Hx. destruct (isElement_kinds x Hx) as [H1 _]. unfold stack.
  rewrite ChildAt_last2.
  change (existsb (String.eqb (Kind (Node "?" v cs))) ["Stack"]) with false.
  cbv iota. rewrite ChildAt_first, H1, ChildAt_last2.
  change (existsb (String.eqb (Kind (Node "?" v cs))) ["smp"; "?"]) with true.
  cbv iota. exact (PromoteChild_last "Stack" "" [x] (Node "?" v cs)).
Qed.

Lemma Reduce_sequence_ternary (es : list PN) (a b c : PN) :
  Forall (fun e => isElement (Reduce e) = true) es ->
  Reduce (sequence (es ++ [Raw.tern a b c]))
  = Node "?" "?" (map Reduce es ++ [Reduce a; Reduce b; Reduce c]).
Proof.
  induction es as [|e es IH]; intros H.
  - apply Reduce_ternary_program.
  - inversion H as [|e' es' He Hes]; subst.
    change (sequence ((e :: es) ++ [Raw.tern a b c]))
      with (Raw.cons e (sequence (es ++ [Raw.tern a b c]))).
    rewrite Reduce_cons, (IH Hes). now apply stack_then_ternary.
Qed.

(** X15: a ternary [a b c ?] written after the elements [e1 ... en] of a
    sequence takes them in: the canonical tree is one ["?"] node whose
    children are the canonical elements followed by the two alternatives
    and the condition. Evaluation then gives the selected alternative the
    elements as its leading children, instead of evaluating the elements
    and the ternary side by side. *)
Theorem ternary_takes_the_elements_before_it
    (ParseFloat : string -> float * bool)
    (math_Pow math_Mod : float -> float -> float)
    (es : list PN) (a b c : PN) :
  Forall (fun e => isElement (Reduce e) = true) es ->
  Reduce (sequence (es ++ [Raw.tern a b c]))
  = Node "?" "?" (map Reduce es ++ [Reduce a; Reduce b; Reduce c]) /\
  EvalTree ParseFloat math_Pow math_Mod
    (Reduce (sequence (es ++ [Raw.tern a b c])))
  = (cv <- evalNode ParseFloat math_Pow math_Mod (Reduce c) ;;
     EvalTree ParseFloat math_Pow math_Mod
       (if (0 <? V cv)%float
        then Node (Kind (Reduce b)) (Value (Reduce b))
                  (map Reduce es ++ Cs (Reduce b))
        else Node (Kind (Reduce a)) (Value (Reduce a))
                  (map Reduce es ++ Cs (Reduce a)))).
Proof.
  intros H. rewrite (Reduce_sequence_ternary es a b c H).
  split; [reflexivity | apply EvalTree_ternary_operands].
Qed.

Lemma ternary_takes_the_elements_before_it_witness :
  Reduce (sequence ([Programs.one; Programs.two]
                    ++ [Raw.tern Programs.one Programs.three Programs.two]))
  = Node "?" "?" (map Reduce [Programs.one; Programs.two]
                  ++ [Reduce Programs.one; Reduce Programs.three;
                      Reduce Programs.two]).
Proof.
  apply (ternary_takes_the_elements_before_it
           Sample.ParseFloat Sample.Pow Sample.Mod
           [Programs.one; Programs.two]
           Programs.one Programs.three Programs.two).
  repeat constructor.
Defined.

(** * Properties of the reducer language *)

Section ReducerFacts.

Import ReducerLang.

Variable Atoi : string -> Z * bool.

Local Notation "'num'" := (fun c : PN => fst (Atoi (Value c))).

Lemma fillArgs_spec (ns : list PN) :
  forall pre,
    fillArgs Atoi (length pre) ns (pre ++ repeat 0 (length ns))
    = pre ++ map num ns.
Proof.
  induction ns as [|n ns IH]; intros pre; [reflexivity|].
  cbn [fillArgs length repeat map].
  replace (length pre) with (length pre + 0)%nat at 2 by lia.
  rewrite set_nth_app. cbn [set_nth].
  specialize (IH (pre ++ [fst (Atoi (Value n))])).
  rewrite length_app, <- !app_assoc in IH. cbn [length app] in IH.
  rewrite Nat.add_1_r in IH. exact IH.
Qed.

(** X16: [evalVarNumArgs] returns one number per child of the argument
    node, in the children's order, each the value [strconv.Atoi] reads from
    the child's text (its error is ignored); [evalOneNumArg] reads the
    first child only, and returns 0 when there is none. *)
Theorem numeric_arguments_in_order (n c0 : PN) (k v : string) (r : list PN) :
  evalVarNumArgs Atoi n = map num (Cs n) /\
  length (evalVarNumArgs Atoi n) = length (Cs n) /\
  evalOneNumArg Atoi (Node k v []) = 0 /\
  evalOneNumArg Atoi (Node k v (c0 :: r)) = num c0.
Proof.
  assert (E : evalVarNumArgs Atoi n = map num (Cs n)).
  { exact (fillArgs_spec (Cs n) []). }
  rewrite E, length_map. repeat split.
Qed.

End ReducerFacts.

Section ReductionChains.

Import ReducerLang.

Variable Atoi : string -> Z * bool.

Local Notation "'reduction'" := (evalReduction Atoi).

Lemma evalLoop_from (ns : list PN) :
  forall r, evalLoop Atoi ns r = s <- evalLoop Atoi ns [] ;; Ok (r ++ s).
Proof.
  induction ns as [|x ns IH]; intros r; cbn [evalLoop bind].
  - now rewrite app_nil_r.
  - destruct (evalCase Atoi x) as [s| |]; cbn [bind]; try reflexivity.
    rewrite (IH (r ++ s)), (IH ([] ++ s)).
    destruct (evalLoop Atoi ns []) as [t| |]; cbn [bind]; try reflexivity.
    now rewrite app_assoc.
Qed.

Lemma evalReduction_cons (x : PN) (ns : list PN) :
  reduction (x :: ns)
  = s <- evalCase Atoi x ;; t <- reduction ns ;; Ok (s ++ t).
Proof.
  unfold evalReduction. cbn [evalLoop].
  destruct (evalCase Atoi x) as [s| |]; cbn [bind]; try reflexivity.
  apply evalLoop_from.
Qed.

Lemma evalReduction_app (a b : list PN) :
  reduction (a ++ b) = ra <- reduction a ;; rb <- reduction b ;; Ok (ra ++ rb).
Proof.
  induction a as [|x a IH]; cbn [app].
  - change (reduction []) with (@Ok Reduction []). cbn [bind].
    destruct (reduction b); reflexivity.
  - rewrite !evalReduction_cons.
    destruct (evalCase Atoi x) as [s| |]; cbn [bind]; try reflexivity.
    rewrite IH. destruct (reduction a) as [ra| |]; cbn [bind];
      try reflexivity.
    destruct (reduction b) as [rb| |]; cbn [bind]; try reflexivity.
    now rewrite app_assoc.
Qed.

Lemma evalCase_length (n : PN) (s : list Step) :
  evalCase Atoi n = Ok s -> (length s <= 1)%nat.
Proof.
  destruct n as [k v c]. cbn [evalCase].
  repeat match goal with
         | |- context [if ?b then _ else _] => destruct b
         end;
    try (destruct c as [|c0 c']; intros E; try discriminate;
         injection E as <-; simpl; lia).
  all: try (intros E; injection E as <-; simpl; lia).
  all: destruct c as [|c0 [|[k1 v1 ts] [|[k2 v2 es] c']]]; try discriminate.
  all: destruct (evalConditional Atoi c0); cbn [bind]; try discriminate.
  all: match goal with |- context [bind ?m _] => destruct m end;
    cbn [bind]; try discriminate.
  all: match goal with |- context [bind ?m _] => destruct m end;
    cbn [bind]; try discriminate.
  all: intros E; injection E as <-; simpl; lia.
Qed.

Lemma evalReduction_length (ns : list PN) :
  forall r, reduction ns = Ok r -> (length r <= length ns)%nat.
Proof.
  induction ns as [|x ns IH]; intros r.
  - intros E. injection E as <-. simpl. lia.
  - rewrite evalReduction_cons.
    destruct (evalCase Atoi x) as [s| |] eqn:Es; cbn [bind]; try discriminate.
    destruct (reduction ns) as [t| |]; cbn [bind]; try discriminate.
    intros E. injection E as <-. rewrite length_app. cbn [length].
    pose proof (evalCase_length x s Es). specialize (IH t eq_refl). lia.
Qed.

(** X17: [evalReduction] translates the nodes of a chain one by one, in
    order: the reduction of two chains written one after the other is the
    reduction of the first followed by the reduction of the second, and it
    fails exactly when one of them does. A node whose kind is none of the
    six the switch knows (a [Nil] node, for one) adds nothing, and the
    chain never has more calls than there are nodes. *)
Theorem reduction_chain_in_order (a b : list PN) (n : PN) :
  reduction (a ++ b) = (ra <- reduction a ;; rb <- reduction b ;; Ok (ra ++ rb))
  /\ (evalCase Atoi n = Ok [] -> reduction (a ++ n :: b) = reduction (a ++ b))
  /\ (forall r, reduction a = Ok r -> (length r <= length a)%nat)
  /\ evalCase Atoi (Node "Nil" (Value n) (Cs n)) = Ok [].
Proof.
  split; [apply evalReduction_app|]. split; [|split].
  - intros Hn. rewrite !evalReduction_app, evalReduction_cons, Hn.
    cbn [bind]. destruct (reduction a); cbn [bind]; try reflexivity.
    destruct (reduction b); reflexivity.
  - apply evalReduction_length.
  - reflexivity.
Qed.

(** An "If" node with its condition node and two chain nodes
    translates to one [If] call whose branches are the reductions of the
    children of the two chain nodes; with fewer than three children, or
    with a "ChildIs" condition lacking one of its two arguments, the
    translation indexes out of range. A condition node of another kind
    gives the nil condition. *)
Theorem if_translates_both_chains (v k1 v1 k2 v2 kc vc : string)
    (c0 : PN) (ts es rest cc : list PN) (x y : PN) :
  evalCase Atoi (Node "If" v (c0 :: Node k1 v1 ts :: Node k2 v2 es :: rest))
  = (cnd <- evalConditional Atoi c0 ;;
     t <- reduction ts ;; e <- reduction es ;; Ok [If cnd t e]) /\
  evalCase Atoi (Node "If" v []) = Panic /\
  evalCase Atoi (Node "If" v [x]) = Panic /\
  evalCase Atoi (Node "If" v [x; y]) = Panic /\
  evalConditional Atoi (Node "ChildIs" vc (x :: y :: cc))
  = Ok (Some (ChildIs (fst (Atoi (Value x))) (Value y))) /\
  evalConditional Atoi (Node "ChildIs" vc [x]) = Panic /\
  evalConditional Atoi (Node "ChildIs" vc []) = Panic /\
  ((kc == "ChildIs") = false ->
   evalConditional Atoi (Node kc vc cc) = Ok None).
Proof.
  split; [reflexivity|].
  split; [reflexivity|].
  split; [reflexivity|].
  split; [destruct y; reflexivity|].
  split; [reflexivity|].
  split; [reflexivity|].
  split; [reflexivity|].
  intros H. unfold evalConditional. cbn [Kind]. now rewrite H.
Qed.

End ReductionChains.

Section ParseRules.

Import ReducerLang.

Variable Atoi : string -> Z * bool.

Lemma parseRules_unbound (k : string) (ns : list PN) :
  forall acc rdcr,
    parseRules Atoi ns acc = Ok rdcr ->
    (forall m, In m ns -> Kind m = "Rule" -> Value m <> k) ->
    lookup k rdcr = lookup k acc.
Proof.
  induction ns as [|n ns IH]; intros acc rdcr; cbn [parseRules].
  - intros E _. now injection E as <-.
  - intros E H. destruct (Kind n == "Rule") eqn:Ek.
    + destruct (evalReduction Atoi (Cs n)) as [v| |]; cbn [bind] in E;
        try discriminate.
      rewrite (IH _ _ E) by (intros m Hm; apply H; now right).
      cbn [lookup]. destruct (Value n == k) eqn:Ev; [|reflexivity].
      apply String.eqb_eq in Ev. apply String.eqb_eq in Ek.
      now elim (H n (or_introl eq_refl) Ek).
    + apply (IH _ _ E). intros m Hm. apply H. now right.
Qed.

Lemma parseRules_app (pre post : list PN) :
  forall acc,
    parseRules Atoi (pre ++ post) acc
    = acc' <- parseRules Atoi pre acc ;; parseRules Atoi post acc'.
Proof.
  induction pre as [|n pre IH]; intros acc; cbn [app parseRules bind];
    [reflexivity|].
  destruct (Kind n == "Rule"); [|apply IH].
  destruct (evalReduction Atoi (Cs n)); cbn [bind]; try reflexivity.
  apply IH.
Qed.

(** X19: in the reducer [Parse] builds, a rule name is bound to the
    reduction of the last "Rule" child of the root that carries the name:
    a later rule replaces an earlier one of the same name. Children that
    are no "Rule" nodes bind nothing, and a name no rule carries is
    unbound. *)
Theorem latest_rule_wins (root n : PN) (pre post : list PN) (k : string)
    (rdcr : Reducer) :
  ParseTree Atoi root = Ok rdcr ->
  Cs root = pre ++ n :: post ->
  Kind n = "Rule" ->
  (forall m, In m post -> Kind m = "Rule" -> Value m <> Value n) ->
  (exists v, evalReduction Atoi (Cs n) = Ok v /\
             lookup (Value n) rdcr = Some v) /\
  ((forall m, In m (Cs root) -> Kind m = "Rule" -> Value m <> k) ->
   lookup k rdcr = None).
Proof.
  unfold ParseTree. intros E Hc Hk Hpost. split.
  - rewrite Hc, parseRules_app in E.
    destruct (parseRules Atoi pre []) as [acc| |]; cbn [bind] in E;
      try discriminate.
    cbn [parseRules] in E. apply String.eqb_eq in Hk. rewrite Hk in E.
    destruct (evalReduction Atoi (Cs n)) as [v| |]; cbn [bind] in E;
      try discriminate.
    exists v. split; [reflexivity|].
    rewrite (parseRules_unbound (Value n) post _ _ E Hpost).
    cbn [lookup]. now rewrite String.eqb_refl.
  - intros H. now rewrite (parseRules_unbound k (Cs root) [] rdcr E H).
Qed.

End ParseRules.

Lemma latest_rule_wins_witness :
  ReducerLang.lookup "E"
    [("E", [ReducerLang.RemoveChildren [0; -1];
            ReducerLang.PromoteSingleChild]);
     ("P", [ReducerLang.ReplaceWithChild 1]);
     ("E", [ReducerLang.PromoteSingleChild])]
  = Some [ReducerLang.RemoveChildren [0; -1]; ReducerLang.PromoteSingleChild].
Proof.
  destruct (latest_rule_wins ReducerLang.sampleAtoi ReducerLang.sampleRules
              (Node "Rule" "E"
                 [Node "RemoveChildren" "RemoveChildren"
                    [Node "VarNumArg" ""
                       [Node "number" "0" []; Node "number" "-1" []]];
                  Node "PromoteSingleChild" "PromoteSingleChild" []])
              [Node "Rule" "E"
                 [Node "PromoteSingleChild" "PromoteSingleChild" []];
               Node "Rule" "P"
                 [Node "ReplaceWithChild" "ReplaceWithChild"
                    [Node "OneNumArg" "" [Node "number" "1" []]]]]
              [] "Q"
              [("E", [ReducerLang.RemoveChildren [0; -1];
                      ReducerLang.PromoteSingleChild]);
               ("P", [ReducerLang.ReplaceWithChild 1]);
               ("E", [ReducerLang.PromoteSingleChild])])
    as [(v & Ev & Hl) _].
  - reflexivity.
  - reflexivity.
  - reflexivity.
  - intros m [].
  - cbn [Value] in Hl. rewrite Hl.
    assert (E2 : Ok v = Ok [ReducerLang.RemoveChildren [0; -1];
                            ReducerLang.PromoteSingleChild])
      by (rewrite <- Ev; reflexivity).
    injection E2 as ->. reflexivity.
Defined.

(** * Aggregates over a sequence *)


Section AggregatePrograms.

Variable ParseFloat : string -> float * bool.
Variable math_Pow : float -> float -> float.
Variable math_Mod : float -> float -> float.

Local Notation "'Run'" := (EvalTree ParseFloat math_Pow math_Mod).
Local Notation "'RunE'" := (evalNode ParseFloat math_Pow math_Mod).



End AggregatePrograms.


(** * Parse trees of the grammar *)

(** The raw trees built with [Raw] are parse trees of [grammarRules]. *)
Lemma derives_int (t : string) : derives NNumber (Raw.int t).
Proof. apply d_Number_int. Qed.

Lemma derives_dec (t d : string) : derives NNumber (Raw.dec t d).
Proof. apply d_Number_dec. Qed.

Lemma derives_num (n : PN) : derives NNumber n -> derives NE (Raw.num n).
Proof. apply d_E_Number. Qed.

Lemma derives_bop (a b : PN) (o : string) :
  derives NE a -> derives NE b -> derives NE (Raw.bop a b o).
Proof.
  intros Ha Hb. apply d_E_Bop; [exact Ha | exact Hb |].
  apply (d_Op_token CBop).
Qed.

Lemma derives_uop (a : PN) (o : string) :
  derives NE a -> derives NE (Raw.uop a o).
Proof. intros Ha. apply d_E_Uop; [exact Ha | apply (d_Op_token CUop)]. Qed.

Lemma derives_sop (s : PN) (o : string) :
  derives NStack s -> derives NE (Raw.sop s o).
Proof. intros Hs. apply d_E_Sop; [exact Hs | apply (d_Op_token CSop)]. Qed.

Lemma derives_tern (a b c : PN) :
  derives NE a -> derives NE b -> derives NE c -> derives NE (Raw.tern a b c).
Proof. intros Ha Hb Hc. now apply d_E_ternary. Qed.

Lemma derives_eps : derives NStack Raw.eps.
Proof. apply d_Stack_empty. Qed.

Lemma derives_cons (e s : PN) :
  derives NE e -> derives NStack s -> derives NStack (Raw.cons e s).
Proof. intros He Hs. now apply d_Stack_E. Qed.

Lemma derives_smp (s : PN) (o : string) :
  derives NStack s -> derives NStack (Raw.smp s o).
Proof. intros Hs. apply d_Stack_Smp; [exact Hs | apply (d_Op_token CSmp)]. Qed.

Lemma derives_group (s1 s s3 : PN) :
  derives NStack s1 -> derives NStack s -> derives NStack s3 ->
  derives NStack (Raw.group s1 s s3).
Proof.
  intros H1 Hs H3. apply d_Stack_P; [exact H1 | | exact H3].
  now apply d_P.
Qed.

Create HintDb grammar.
#[local] Hint Resolve derives_int derives_dec derives_num derives_bop
  derives_uop derives_sop derives_tern derives_eps derives_cons derives_smp
  derives_group : grammar.

(** * A condition that is itself a ternary *)

(** C1 at the program [1 2 0 5 1 ? ?], a parse tree of the grammar: the
    condition [0 5 1 ?] evaluates, as a program, to 5, which is above 0,
    and the second operand evaluates to 2; but [evalStack] takes the condition's value from [evalE], which
    has no case for a ["?"] node and returns the zero value, so the first
    operand is selected and the result is 1. So for every ["?"] node whose
    condition is a ["?"] node, whatever its children. The canonical tree is
    the same when canonicalization is run to a fixed point. *)
Theorem nested_condition_selects_first_operand :
  derives NStack Nested.nested_condition /\
  (forall (ParseFloat : string -> float * bool)
          (math_Pow math_Mod : float -> float -> float)
          (v w : string) (A B : PN) (cs : list PN),
      EvalTree ParseFloat math_Pow math_Mod
               (Node "?" v [A; B; Node "?" w cs])
      = EvalTree ParseFloat math_Pow math_Mod A) /\
  Reduce Nested.nested_condition
  = Node "?" "?" [Node "Number" "" [Node "int" "1" []];
                  Node "Number" "" [Node "int" "2" []];
                  Node "?" "?" [Node "Number" "" [Node "int" "0" []];
                                Node "Number" "" [Node "int" "5" []];
                                Node "Number" "" [Node "int" "1" []]]] /\
  ReduceFix Nested.nested_condition = Reduce Nested.nested_condition /\
  Sample.Eval (Raw.cons Nested.condition Raw.eps) = Ok [mkPfloat 5%float 0] /\
  Sample.Eval (Raw.cons Programs.two Raw.eps) = Ok [mkPfloat 2%float 0] /\
  Sample.Eval (Raw.cons Programs.one Raw.eps) = Ok [mkPfloat 1%float 0] /\
  Sample.Eval Nested.nested_condition = Ok [mkPfloat 1%float 0].
Proof.
  split.
  { unfold Nested.nested_condition, Nested.condition, Programs.one,
      Programs.two.
    auto 10 with grammar. }
  split.
  { intros pf pw md v w A B cs.
    rewrite EvalTree_ternary, evalNode_ternary_zero. cbn [bind].
    change (0 <? V Pfloat0)%float with false. reflexivity. }
  repeat split; reflexivity.
Qed.

(** * A group between two elements *)

(** The reducer language of this repository is written for a single
    application of each rule: its own rule for [OneNumArg],
    [RemoveChildren(0, -1)], leaves the number of [( 1 )] when applied
    once, and applied again to its result removes the number as well, after
    which [evalOneNumArg] reads 0 for every argument. *)
Lemma rules_are_applied_once :
  RemoveChildren [0; -1] Nested.one_num_arg
  = Node "OneNumArg" "" [Node "number" "1" []] /\
  ReducerLang.evalOneNumArg ReducerLang.sampleAtoi
    (RemoveChildren [0; -1] Nested.one_num_arg) = 1 /\
  RemoveChildren [0; -1] (RemoveChildren [0; -1] Nested.one_num_arg)
  = Node "OneNumArg" "" [] /\
  ReducerLang.evalOneNumArg ReducerLang.sampleAtoi
    (RemoveChildren [0; -1] (RemoveChildren [0; -1] Nested.one_num_arg)) = 0.
Proof. repeat split; reflexivity. Qed.

(** C2 at the program [7 (1 2) 3], the parse tree of the grammar by
    [Stack -> Stack P Stack] with the sequences [7] and [3] around the
    group: each of the two is a single
    element, so neither the first nor the last child of the enclosing
    "Stack" node is a "Stack" node, and the group, its middle child, is not
    spliced. The canonical tree keeps the group as a nested "Stack" node,
    whether each rule is applied once or until nothing changes (no rule
    changes the tree any more at any node), and the nested node evaluates
    as one zero value in place of the elements 1 and 2. *)
Theorem group_between_elements_stays_nested :
  derives NStack Nested.group_between_elements /\
  Reduce Nested.group_between_elements
  = Node "Stack" ""
         [Node "Number" "" [Node "int" "7" []];
          Node "Stack" "" [Node "Number" "" [Node "int" "1" []];
                           Node "Number" "" [Node "int" "2" []]];
          Node "Number" "" [Node "int" "3" []]] /\
  ReduceFix Nested.group_between_elements
  = Reduce Nested.group_between_elements /\
  stable (Reduce Nested.group_between_elements) = true /\
  Sample.Eval Nested.group_between_elements
  = Ok [mkPfloat 7%float 0; Pfloat0; mkPfloat 3%float 0] /\
  EvalTree Sample.ParseFloat Sample.Pow Sample.Mod
           (ReduceFix Nested.group_between_elements)
  = Ok [mkPfloat 7%float 0; Pfloat0; mkPfloat 3%float 0].
Proof.
  split.
  { unfold Nested.group_between_elements, Programs.one, Programs.two,
      Programs.three.
    auto 10 with grammar. }
  repeat split; reflexivity.
Qed.

(** * No panic on the parse trees of the grammar *)

(** ** Well-formed trees *)

Lemma wellFormed_more (d d' : nat) (n : PN) :
  wellFormed d n -> (d <= d')%nat -> wellFormed d' n.
Proof.
  intros H Hle. inversion H; subst.
  - apply wf_plain; [assumption | lia | assumption].
  - apply (wf_choice d' v pre A B C dA dB); try assumption; lia.
Qed.

(** A node promoted over the children [pre] standing before it. *)
Lemma wellFormed_supply (d dB : nat) (pre : list PN) (B : PN) :
  wellFormed dB B -> (dB <= d + length pre)%nat ->
  Forall (wellFormed 0) pre ->
  wellFormed d (Node (Kind B) (Value B) (pre ++ Cs B)).
Proof.
  intros HB Hle Hpre. inversion HB; subst; cbn [Kind Value Cs].
  - apply wf_plain; [assumption | rewrite length_app; lia |].
    apply Forall_app. now split.
  - rewrite app_assoc.
    apply (wf_choice d v (pre ++ pre0) A B0 C dA dB0); try assumption.
    + apply Forall_app. now split.
    + rewrite length_app. lia.
    + rewrite length_app. lia.
Qed.

Lemma wellFormed_children (d : nat) (n : PN) :
  wellFormed d n -> (Kind n == "?") = false ->
  Forall (wellFormed 0) (Cs n) /\ (need (Kind n) <= d + length (Cs n))%nat.
Proof.
  intros H Hk. inversion H; subst; cbn [Kind Cs] in *.
  - now split.
  - discriminate.
Qed.

Section NoPanicWellFormed.

Variable ParseFloat : string -> float * bool.
Variable math_Pow : float -> float -> float.
Variable math_Mod : float -> float -> float.

Local Notation "'eStack'" := (evalStack ParseFloat math_Pow math_Mod).
Local Notation "'eE'" := (evalE ParseFloat math_Pow math_Mod).

Lemma wellFormed_no_panic (fuel : nat) :
  forall n, wellFormed 0 n -> eStack fuel n <> Panic /\ eE fuel n <> Panic.
Proof.
  induction fuel as [|f IH]; intros n Hwf; [split; discriminate|].
  inversion Hwf as [d k v c Hk Hneed Hc | d v pre A B C dA dB Hpre HA HdA HB HdB HC];
    subst.
  - (* a node that is no "?" node *)
    assert (IHc : forall x, In x c -> eE f x <> Panic /\ eStack f x <> Panic).
    { intros x Hx. rewrite Forall_forall in Hc.
      destruct (IH x (Hc x Hx)). now split. }
    split.
    + rewrite evalStack_S. cbn [Kind]. rewrite Hk.
      destruct (k == "smp").
      { apply mapM_no_panic. intros y Hy. apply evalSmp_In in Hy.
        now apply IHc. }
      destruct (k == "Stack").
      { apply mapM_no_panic. intros y Hy. now apply IHc. }
      destruct (eE f (Node k v c)) eqn:Ev; cbn [bind];
        [discriminate| |discriminate].
      exfalso. revert Ev. now apply IH.
    + rewrite evalE_S. cbn [Kind Cs]. unfold need in Hneed.
      destruct (k == "Number").
      { destruct c as [|c0 [|c1 [|c2 r]]]; discriminate. }
      destruct (k == "uop").
      { destruct c as [|a r]; [simpl in Hneed; lia|].
        cbn [nth_error evalUop].
        destruct (eE f a) eqn:Ev; cbn [bind]; [discriminate| |discriminate].
        exfalso. revert Ev. apply IHc. now left. }
      destruct (k == "bop").
      { destruct c as [|a [|b r]]; [simpl in Hneed; lia|simpl in Hneed; lia|].
        cbn [nth_error evalBop].
        destruct (eE f a) eqn:Eva; cbn [bind];
          [| exfalso; revert Eva; apply IHc; now left | discriminate].
        destruct (eE f b) eqn:Evb; cbn [bind];
          [discriminate| |discriminate].
        exfalso. revert Evb. apply IHc. right. now left. }
      destruct (k == "sop"); [|discriminate].
      destruct c as [|a r]; [simpl in Hneed; lia|].
      cbn [nth_error].
      destruct (eStack f a) eqn:Ev; cbn [bind]; [discriminate| |discriminate].
      exfalso. revert Ev. apply IHc. now left.
  - (* a "?" node *)
    split; [|rewrite evalE_S; discriminate].
    rewrite evalStack_S.
    change (Kind (Node "?" v (pre ++ [A; B; C])) == "?") with true. cbv iota.
    rewrite Child_last_of_three.
    destruct (eE f C) as [cv| |] eqn:Ev; cbn [bind]; [| |discriminate].
    + rewrite selectBranch_operands. apply IH.
      destruct (0 <? V cv)%float.
      * now apply (wellFormed_supply 0 dB pre B).
      * now apply (wellFormed_supply 0 dA pre A).
    + exfalso. revert Ev. now apply IH.
Qed.

(** Evaluation returns on every well-formed tree. *)
Lemma wellFormed_returns (n : PN) :
  wellFormed 0 n ->
  exists out, EvalTree ParseFloat math_Pow math_Mod n = Ok out.
Proof.
  intros Hwf.
  pose proof (EvalTree_total ParseFloat math_Pow math_Mod n) as Hf.
  pose proof (proj1 (wellFormed_no_panic (fuelFor n) n Hwf)) as Hp.
  unfold EvalTree in *.
  destruct (eStack (fuelFor n) n); [eauto | now elim Hp | now elim Hf].
Qed.

End NoPanicWellFormed.

(** ** The rules keep trees well formed *)

Lemma last_case {A : Type} (l : list A) :
  l = [] \/ exists pre x, l = pre ++ [x].
Proof.
  destruct l as [|a r]; [now left|]. right.
  destruct (@exists_last A (a :: r)) as (pre & x & E); [discriminate|].
  eauto.
Qed.

Lemma PromoteChild_last_wf (d dB : nat) (k v : string) (pre : list PN)
    (l : PN) :
  Forall (wellFormed 0) pre -> wellFormed dB l -> (dB <= d + length pre)%nat ->
  wellFormed d (Tree.PromoteChild (Node k v (pre ++ [l])) (-1)).
Proof.
  intros Hpre Hl Hle. rewrite PromoteChild_last.
  now apply (wellFormed_supply d dB).
Qed.

Lemma PromoteChild_ternary_wf (d dA dB : nat) (k v q : string) (a b c : PN) :
  wellFormed dA a -> (dA <= d)%nat -> wellFormed dB b -> (dB <= d)%nat ->
  wellFormed 0 c ->
  wellFormed d (Tree.PromoteChild (Node k v [a; b; c; Node "?" q []]) (-1)).
Proof.
  intros Ha HdA Hb HdB Hc.
  change [a; b; c; Node "?" q []] with ([a; b; c] ++ [Node "?" q []]).
  rewrite PromoteChild_last. cbn [Kind Value Cs]. rewrite app_nil_r.
  apply (wf_choice d q [] a b c dA dB); simpl; auto; lia.
Qed.

Lemma splice_last_wf (k v : string) (cs : list PN) :
  Forall (wellFormed 0) cs ->
  exists cs',
    (if Tree.ChildAt (Node k v cs) (-1) ["Stack"]
     then Tree.PromoteChildrenOf (Node k v cs) (-1) else Node k v cs)
    = Node k v cs' /\ Forall (wellFormed 0) cs'.
Proof.
  intros H. destruct (last_case cs) as [->|(pre & l & ->)].
  - exists []. split; [reflexivity | constructor].
  - rewrite ChildAt_last. cbn [existsb]. rewrite orb_false_r.
    destruct (Kind l == "Stack") eqn:Ek; [|eauto].
    rewrite PromoteChildrenOf_last. exists (pre ++ Cs l). split; [reflexivity|].
    apply Forall_app in H. destruct H as [Hpre Hl].
    apply Forall_app. split; [exact Hpre|].
    inversion Hl as [|? ? Hl0 _]; subst.
    apply (wellFormed_children 0 l Hl0).
    apply String.eqb_eq in Ek. now rewrite Ek.
Qed.

Lemma splice_first_wf (k v : string) (cs : list PN) :
  Forall (wellFormed 0) cs ->
  exists cs',
    (if Tree.ChildAt (Node k v cs) 0 ["Stack"]
     then Tree.PromoteChildrenOf (Node k v cs) 0 else Node k v cs)
    = Node k v cs' /\ Forall (wellFormed 0) cs'.
Proof.
  intros H. destruct cs as [|c r].
  - exists []. split; [reflexivity | constructor].
  - rewrite ChildAt_first. cbn [existsb]. rewrite orb_false_r.
    destruct (Kind c == "Stack") eqn:Ek; [|eauto].
    rewrite PromoteChildrenOf_first. exists (Cs c ++ r). split; [reflexivity|].
    inversion H as [|? ? Hc Hr]; subst.
    apply Forall_app. split; [|exact Hr].
    apply (wellFormed_children 0 c Hc).
    apply String.eqb_eq in Ek. now rewrite Ek.
Qed.

Lemma promote_or_single_wf (v : string) (cs : list PN) :
  Forall (wellFormed 0) cs ->
  wellFormed 0
    (if Tree.ChildAt (Node "Stack" v cs) (-1) ["smp"; "?"]
     then Tree.PromoteChild (Node "Stack" v cs) (-1)
     else Tree.PromoteSingleChild (Node "Stack" v cs)).
Proof.
  intros H.
  assert (Hn : wellFormed 0 (Node "Stack" v cs)).
  { apply wf_plain; [reflexivity | unfold need; simpl; lia | exact H]. }
  destruct (last_case cs) as [->|(pre & l & ->)]; [exact Hn|].
  apply Forall_app in H. destruct H as [Hpre Hl].
  inversion Hl as [|? ? Hl0 _]; subst.
  rewrite ChildAt_last.
  destruct (existsb (String.eqb (Kind l)) ["smp"; "?"]).
  - apply (PromoteChild_last_wf 0 0); [assumption | assumption | lia].
  - unfold Tree.PromoteSingleChild. cbn [Cs].
    destruct pre as [|p [|p' pre']]; cbn [app].
    + destruct (PromoteChild_single "Stack" v l) as [_ ->]. exact Hl0.
    + exact Hn.
    + exact Hn.
Qed.

(** [stack] on a "Stack" node whose children are well formed. *)
Lemma stack_wf (v : string) (cs : list PN) :
  Forall (wellFormed 0) cs -> wellFormed 0 (stack (Node "Stack" v cs)).
Proof.
  intros H. unfold stack.
  destruct (splice_last_wf "Stack" v cs H) as (cs1 & -> & H1).
  destruct (splice_first_wf "Stack" v cs1 H1) as (cs2 & -> & H2).
  now apply promote_or_single_wf.
Qed.

Lemma PromoteChild_last_keeps (d : nat) (k v : string) (cs : list PN) :
  wellFormed d (Node k v cs) -> (k == "?") = false ->
  wellFormed d (Tree.PromoteChild (Node k v cs) (-1)).
Proof.
  intros Hwf Hk.
  destruct (wellFormed_children d _ Hwf Hk) as [Hc _]. cbn [Cs] in Hc.
  destruct (last_case cs) as [->|(pre & l & ->)]; [exact Hwf|].
  apply Forall_app in Hc. destruct Hc as [Hpre Hl].
  inversion Hl as [|? ? Hl0 _]; subst.
  apply (PromoteChild_last_wf d 0); [assumption | assumption | lia].
Qed.

Lemma ReplaceWithChild_keeps (d : nat) (k v : string) (cs : list PN) (i : Z) :
  wellFormed d (Node k v cs) -> (k == "?") = false ->
  wellFormed d (Tree.ReplaceWithChild (Node k v cs) i).
Proof.
  intros Hwf Hk.
  destruct (wellFormed_children d _ Hwf Hk) as [Hc _]. cbn [Cs] in Hc.
  unfold Tree.ReplaceWithChild, Tree.Child. cbn [Cs].
  destruct (Tree.GetIdx cs i) as [j|]; [|exact Hwf].
  destruct (nth_error cs j) as [c|] eqn:E; [|exact Hwf].
  apply nth_error_In in E.
  apply (wellFormed_more 0); [|lia].
  rewrite Forall_forall in Hc. now apply Hc.
Qed.

(** Every rule of the table keeps a well-formed node well formed. *)
Lemma rule_preserves (d : nat) (n : PN) :
  wellFormed d n -> wellFormed d (applyRule (Kind n) n).
Proof.
  intros Hwf. destruct n as [k v cs]. cbn [Kind].
  destruct (k == "?") eqn:Hk.
  { apply String.eqb_eq in Hk. subst k. exact Hwf. }
  unfold applyRule, rdcr.
  destruct (k == "Stack") eqn:Es.
  { apply String.eqb_eq in Es. subst k. apply (wellFormed_more 0); [|lia].
    apply stack_wf. apply (wellFormed_children d _ Hwf). reflexivity. }
  destruct (k == "E"); [now apply PromoteChild_last_keeps|].
  destruct (k == "P"); [now apply ReplaceWithChild_keeps|].
  destruct (k == "Bop"); [now apply PromoteChild_last_keeps|].
  destruct (k == "Uop"); [now apply PromoteChild_last_keeps|].
  destruct (k == "Sop"); [now apply PromoteChild_last_keeps|].
  destruct (k == "Smp"); [now apply PromoteChild_last_keeps|].
  exact Hwf.
Qed.

Lemma PN_eqb_eq : forall a b : PN, PN_eqb a b = true -> a = b.
Proof.
  fix IH 1. intros [ka va ca] [kb vb cb] H. cbn [PN_eqb] in H.
  apply andb_prop in H. destruct H as [H Hc].
  apply andb_prop in H. destruct H as [Hk Hv].
  apply String.eqb_eq in Hk. apply String.eqb_eq in Hv. subst kb vb.
  f_equal. revert cb Hc.
  induction ca as [|x r IHr]; intros [|y r2] Hc; try discriminate.
  - reflexivity.
  - apply andb_prop in Hc. destruct Hc as [Hx Hr].
    f_equal; [now apply IH | now apply IHr].
Qed.

Lemma fixRule_wf (d : nat) (fuel : nat) :
  forall n, wellFormed d n -> wellFormed d (fixRule fuel n).
Proof.
  induction fuel as [|f IH]; intros n Hwf; [exact Hwf|].
  cbn [fixRule].
  pose proof (rule_preserves d n Hwf) as Hr. unfold applyRule in Hr.
  destruct (rdcr (Kind n)) as [r|]; [|exact Hwf].
  destruct (PN_eqb (r n) n); [exact Hwf | now apply IH].
Qed.

(** ** Canonical trees of the grammar's parse trees are well formed *)

Section ReducerReading.

(** A reading of [tree.Reducer.Reduce]: the children are reduced first, a
    token is left as it is, and what the node becomes is well formed
    whenever one application of its rule is. *)
Variable R : PN -> PN.
Hypothesis R_token : forall k v, rdcr k = None -> R (Node k v []) = Node k v [].
Hypothesis R_node : forall d k v cs,
  wellFormed d (applyRule k (Node k v (map R cs))) ->
  wellFormed d (R (Node k v cs)).

Lemma catName_rule (c : Cat) :
  rdcr (catName c) = Some (fun n => Tree.PromoteChild n (-1)).
Proof. now destruct c. Qed.

Lemma catToken_rule (c : Cat) : rdcr (catToken c) = None.
Proof. now destruct c. Qed.

Lemma token_wf (d : nat) (k v : string) :
  (k == "?") = false -> (need k <= d)%nat -> wellFormed d (Node k v []).
Proof.
  intros Hk Hn. apply wf_plain; [exact Hk | simpl; lia | constructor].
Qed.

Lemma derives_wellFormed (nt : NT) (t : PN) :
  derives nt t -> wellFormed (operandsOf nt) (R t).
Proof.
  induction 1; apply R_node; cbn [map operandsOf] in *.
  - (* Stack -> Stack Smp *)
    apply stack_wf. repeat constructor; assumption.
  - (* Stack -> E Stack *)
    apply stack_wf. repeat constructor; assumption.
  - (* Stack -> Stack P Stack *)
    apply stack_wf. repeat constructor; assumption.
  - (* Stack -> empty *)
    apply stack_wf. constructor.
  - (* E -> Stack Sop *)
    change (applyRule "E" ?n) with (Tree.PromoteChild n (-1)).
    apply (PromoteChild_last_wf 0 1 "E" v [R s] (R o));
      [repeat constructor; assumption | assumption | unfold need; simpl; lia].
  - (* E -> E E E ? *)
    rewrite (R_token "?" q eq_refl).
    change (applyRule "E" ?n) with (Tree.PromoteChild n (-1)).
    apply (PromoteChild_ternary_wf 0 0 0); auto.
  - (* E -> E Uop *)
    change (applyRule "E" ?n) with (Tree.PromoteChild n (-1)).
    apply (PromoteChild_last_wf 0 1 "E" v [R a] (R o));
      [repeat constructor; assumption | assumption | unfold need; simpl; lia].
  - (* E -> E E Bop *)
    change (applyRule "E" ?n) with (Tree.PromoteChild n (-1)).
    apply (PromoteChild_last_wf 0 2 "E" v [R a; R b] (R o));
      [repeat constructor; assumption | assumption | unfold need; simpl; lia].
  - (* E -> Number *)
    change (applyRule "E" ?n) with (Tree.PromoteChild n (-1)).
    apply (PromoteChild_last_wf 0 0 "E" v [] (R n));
      [constructor | assumption | unfold need; simpl; lia].
  - (* Number -> int *)
    rewrite (R_token "int" t eq_refl).
    apply wf_plain; [reflexivity | unfold need; simpl; lia |].
    repeat constructor; now apply token_wf.
  - (* Number -> int dec *)
    rewrite (R_token "int" t eq_refl), (R_token "dec" d eq_refl).
    apply wf_plain; [reflexivity | unfold need; simpl; lia |].
    repeat constructor; now apply token_wf.
  - (* P -> ( Stack ) *)
    change (wellFormed 0 (R s)). assumption.
  - (* an operator token *)
    rewrite (R_token (catToken c) o (catToken_rule c)).
    unfold applyRule. rewrite catName_rule.
    apply (PromoteChild_last_wf _ (catOperands c) _ v []
             (Node (catToken c) o []));
      [constructor | | unfold need; simpl; lia].
    destruct c; apply token_wf; (reflexivity || (unfold need; simpl; lia)).
  - (* a choice between two operators *)
    rewrite (R_token "?" q eq_refl).
    unfold applyRule. rewrite catName_rule.
    apply (PromoteChild_ternary_wf _ (catOperands c) (catOperands c));
      auto.
Qed.

End ReducerReading.

Lemma Reduce_node (k v : string) (cs : list PN) :
  Reduce (Node k v cs) = applyRule k (Node k v (map Reduce cs)).
Proof. reflexivity. Qed.

Lemma Reduce_wellFormed (nt : NT) (t : PN) :
  derives nt t -> wellFormed (operandsOf nt) (Reduce t).
Proof.
  apply derives_wellFormed.
  - intros k v Hk. rewrite Reduce_node. unfold applyRule. now rewrite Hk.
  - intros d k v cs H. now rewrite Reduce_node.
Qed.

Lemma ReduceFix_wellFormed (nt : NT) (t : PN) :
  derives nt t -> wellFormed (operandsOf nt) (ReduceFix t).
Proof.
  apply derives_wellFormed.
  - intros k v Hk. cbn. now rewrite Hk.
  - intros d k v cs H.
    change (ReduceFix (Node k v cs))
      with (fixRule (size (Node k v (map ReduceFix cs)))
              (Node k v (map ReduceFix cs))).
    destruct (size (Node k v (map ReduceFix cs))) as [|m] eqn:Es.
    + (* a node counts itself *)
      cbn in Es. discriminate.
    + cbn [fixRule Kind]. unfold applyRule in H.
      destruct (rdcr k) as [r|]; [|exact H].
      destruct (PN_eqb _ _) eqn:E.
      * apply PN_eqb_eq in E. now rewrite <- E.
      * now apply fixRule_wf.
Qed.

(** A tree whose operator nodes have the children the evaluator indexes is
    well formed. *)
Lemma operandsPresent_wellFormed (m : nat) :
  forall n, (size n <= m)%nat -> operandsPresent n = true -> wellFormed 0 n.
Proof.
  induction m as [|m IH]; intros n Hsz Hop.
  { rewrite size_Cs in Hsz. lia. }
  destruct (operandsPresent_inv n Hop) as [Hen Hch].
  destruct n as [k v c]. cbn [Kind Cs] in Hen, Hch.
  assert (Hc : Forall (wellFormed 0) c).
  { apply Forall_forall. intros x Hx. apply IH; [|now apply Hch].
    apply sizes_In in Hx. rewrite size_Node in Hsz. lia. }
  destruct (k == "?") eqn:Hk.
  - apply String.eqb_eq in Hk. subst k.
    change (enoughChildren "?" (length c)) with (3 <=? length c)%nat in Hen.
    apply Nat.leb_le in Hen.
    destruct (last_three c Hen) as (pre & a & b & cc & ->).
    apply Forall_app in Hc. destruct Hc as [Hpre Habc].
    inversion Habc as [|? ? Ha Hbc]; subst.
    inversion Hbc as [|? ? Hb Hcc]; subst.
    inversion Hcc as [|? ? Hc0 _]; subst.
    apply (wf_choice 0 v pre a b cc 0 0); auto; lia.
  - apply wf_plain; [exact Hk | | exact Hc].
    unfold enoughChildren in Hen. rewrite Hk in Hen. unfold need.
    destruct (k == "uop"); [apply Nat.leb_le in Hen; lia|].
    destruct (k == "bop"); [apply Nat.leb_le in Hen; lia|].
    destruct (k == "sop"); [apply Nat.leb_le in Hen; lia|].
    lia.
Qed.

Lemma wellFormed_evalNode_returns
    (ParseFloat : string -> float * bool)
    (math_Pow math_Mod : float -> float -> float) (n : PN) :
  wellFormed 0 n ->
  exists x, evalNode ParseFloat math_Pow math_Mod n = Ok x.
Proof.
  intros Hwf.
  pose proof (evalNode_total ParseFloat math_Pow math_Mod n) as Hf.
  pose proof (proj2 (wellFormed_no_panic ParseFloat math_Pow math_Mod
                       (fuelFor n) n Hwf)) as Hp.
  unfold evalNode in *.
  destruct (evalE ParseFloat math_Pow math_Mod (fuelFor n) n);
    [eauto | now elim Hp | now elim Hf].
Qed.

(** [1 2 + - 1 ?]: the condition 1 selects the operator written second,
    which takes the two operands before the choice: 1 - 2. *)
Example operator_choice_evaluates :
  Reduce Defaults.operator_choice = Defaults.operator_choice_tree /\
  ReduceFix Defaults.operator_choice = Defaults.operator_choice_tree /\
  operandsPresent Defaults.operator_choice_tree = false /\
  Sample.Eval Defaults.operator_choice = Ok [mkPfloat (-1)%float 0].
Proof. repeat split; reflexivity. Qed.

(** ** Zero-value defaults *)

(** C8, as the code has it. A literal evaluates to the value
    [strconv.ParseFloat] returns, the error ignored, with precision 0 for
    one token and the length of the second token less one for two tokens,
    whether the text is accepted or not. A Number node with no child or
    more than two children, and a node of a kind the evaluator does not
    know, evaluate to the zero value. The evaluator returns, without a
    panic, on the canonical tree of every parse tree of the grammar, the
    rule of a node applied once or until nothing changes, on every well
    formed tree, and so on every tree whose operator nodes have their
    operands as children. An operator node without the child it indexes
    makes it panic. *)
Theorem literal_defaults_and_evaluation_returns
    (ParseFloat : string -> float * bool)
    (math_Pow math_Mod : float -> float -> float)
    (raw n : PN) (k k' v s d : string) (c c' r : list PN) (a b e : PN) :
  derives NStack raw ->
  wellFormed 0 n ->
  (exists out, EvalTree ParseFloat math_Pow math_Mod (Reduce raw) = Ok out) /\
  (exists out,
      EvalTree ParseFloat math_Pow math_Mod (ReduceFix raw) = Ok out) /\
  (exists out, EvalTree ParseFloat math_Pow math_Mod n = Ok out) /\
  (exists x, evalNode ParseFloat math_Pow math_Mod n = Ok x) /\
  (forall m, operandsPresent m = true ->
     (exists out, EvalTree ParseFloat math_Pow math_Mod m = Ok out) /\
     (exists x, evalNode ParseFloat math_Pow math_Mod m = Ok x)) /\
  evalNode ParseFloat math_Pow math_Mod (Node "Number" v [Node k s c])
  = Ok (mkPfloat (fst (ParseFloat s)) 0) /\
  evalNode ParseFloat math_Pow math_Mod
           (Node "Number" v [Node k s c; Node k' d c'])
  = Ok (mkPfloat (fst (ParseFloat (s ++ d)%string))
                 (Z.of_nat (String.length d) - 1)) /\
  evalNode ParseFloat math_Pow math_Mod (Node "Number" v []) = Ok Pfloat0 /\
  evalNode ParseFloat math_Pow math_Mod (Node "Number" v (a :: b :: e :: r))
  = Ok Pfloat0 /\
  ((k == "Number") = false -> (k == "uop") = false ->
   (k == "bop") = false -> (k == "sop") = false ->
   evalNode ParseFloat math_Pow math_Mod (Node k v c) = Ok Pfloat0) /\
  evalNode ParseFloat math_Pow math_Mod (Node "uop" v []) = Panic /\
  evalNode ParseFloat math_Pow math_Mod (Node "bop" v []) = Panic /\
  evalNode ParseFloat math_Pow math_Mod (Node "bop" v [a]) = Panic /\
  evalNode ParseFloat math_Pow math_Mod (Node "sop" v []) = Panic /\
  EvalTree ParseFloat math_Pow math_Mod (Node "?" v []) = Panic.
Proof.
  intros Hraw Hn.
  split; [|split; [|split; [|split; [|split]]]].
  - apply wellFormed_returns. exact (Reduce_wellFormed NStack raw Hraw).
  - apply wellFormed_returns. exact (ReduceFix_wellFormed NStack raw Hraw).
  - now apply wellFormed_returns.
  - now apply wellFormed_evalNode_returns.
  - intros m Hm.
    pose proof (operandsPresent_wellFormed (size m) m (le_n _) Hm) as Hwf.
    split; [now apply wellFormed_returns
           | now apply wellFormed_evalNode_returns].
  - unfold evalNode, EvalTree.
    rewrite !fuelFor_S, !evalE_S, !evalStack_S. cbn [Kind Cs Value].
    repeat split; try reflexivity.
    intros H1 H2 H3 H4. now rewrite H1, H2, H3, H4.
Qed.

Lemma literal_defaults_and_evaluation_returns_witness :
  (exists out, Sample.Eval Defaults.operator_choice = Ok out) /\
  (exists out,
      EvalTree Sample.ParseFloat Sample.Pow Sample.Mod
               Defaults.operator_choice_tree = Ok out) /\
  evalNode Sample.ParseFloat Sample.Pow Sample.Mod Defaults.malformed_literal
  = Ok (mkPfloat (fst (Sample.ParseFloat "abc.55")) 2).
Proof.
  assert (Hone : forall t, derives NE (Raw.num (Raw.int t))).
  { intros t. apply d_E_Number, d_Number_int. }
  destruct (literal_defaults_and_evaluation_returns
              Sample.ParseFloat Sample.Pow Sample.Mod
              Defaults.operator_choice Defaults.operator_choice_tree
              "int" "dec" "" "abc" ".55" [] [] [] Raw.eps Raw.eps Raw.eps)
    as (Hraw & _ & Htree & _ & _ & _ & Hlit & _).
  - apply d_Stack_E; [|apply d_Stack_empty].
    apply d_E_Bop; [apply Hone | apply Hone |].
    apply (d_Op_choice CBop);
      [apply (d_Op_token CBop) | apply (d_Op_token CBop) | apply Hone].
  - apply (wf_choice 0 "?"
             [Node "Number" "" [Node "int" "1" []];
              Node "Number" "" [Node "int" "2" []]]
             (Node "bop" "+" []) (Node "bop" "-" [])
             (Node "Number" "" [Node "int" "1" []]) 2 2).
    + repeat constructor.
    + apply wf_plain; [reflexivity | unfold need; simpl; lia | constructor].
    + simpl; lia.
    + apply wf_plain; [reflexivity | unfold need; simpl; lia | constructor].
    + simpl; lia.
    + repeat constructor.
  - split; [exact Hraw | split; [exact Htree | exact Hlit]].
Defined.

(** C8, as stated, fails. A rejected literal with a fraction keeps the
    precision of its fraction: the program [s d], a parse tree of the
    grammar, evaluates to the reader's value with precision [len(d) - 1],
    for every reader, so it never evaluates to {0, 0} when [d] is a point
    and digits; the program [7.25] under a reader that rejects every text
    gives {0, 2}, and the malformed literal [abc] [.55] gives {0, 2}. And
    the evaluator does raise on a node shape: a binary operator node with
    one operand, a unary operator node with none and a ["?"] node with no
    child make it panic. *)
Lemma rejected_literal_keeps_precision_and_absent_operand_panics :
  (forall s d : string, derives NStack (Defaults.fraction s d)) /\
  (forall (ParseFloat : string -> float * bool)
          (math_Pow math_Mod : float -> float -> float) (s d : string),
      EvalTree ParseFloat math_Pow math_Mod (Reduce (Defaults.fraction s d))
      = Ok [mkPfloat (fst (ParseFloat (s ++ d)%string))
                     (Z.of_nat (String.length d) - 1)]) /\
  (forall (ParseFloat : string -> float * bool)
          (math_Pow math_Mod : float -> float -> float) (s d : string),
      (2 <= String.length d)%nat ->
      EvalTree ParseFloat math_Pow math_Mod (Reduce (Defaults.fraction s d))
      <> Ok [Pfloat0]) /\
  EvalTree Defaults.rejectAll Sample.Pow Sample.Mod
           (Reduce (Defaults.fraction "7" ".25"))
  = Ok [mkPfloat 0%float 2] /\
  snd (Sample.ParseFloat "abc.55") = false /\
  evalNode Sample.ParseFloat Sample.Pow Sample.Mod Defaults.malformed_literal
  = Ok (mkPfloat 0%float 2) /\
  mkPfloat 0%float 2 <> Pfloat0 /\
  evalNode Sample.ParseFloat Sample.Pow Sample.Mod
           (Node "bop" "+" [Node "Number" "" [Node "int" "1" []]]) = Panic /\
  evalNode Sample.ParseFloat Sample.Pow Sample.Mod (Node "uop" "--" [])
  = Panic /\
  EvalTree Sample.ParseFloat Sample.Pow Sample.Mod (Node "?" "?" []) = Panic.
Proof.
  split.
  { intros s d. unfold Defaults.fraction. auto with grammar. }
  split; [reflexivity|].
  split.
  { intros pf pw md s d Hd.
    change (EvalTree pf pw md (Reduce (Defaults.fraction s d)))
      with (Ok [mkPfloat (fst (pf (s ++ d)%string))
                         (Z.of_nat (String.length d) - 1)]).
    unfold Pfloat0. intros H. injection H as _ Hp. lia. }
  repeat split; try reflexivity.
  discriminate.
Qed.
